(** * base91: a shallow embedding of [base91.go] and its properties

    The Go package implements Joachim Henke's basE91 codec.  This file
    embeds [NewEncoding], [Encode], [EncodedLen], [Decode], [DecodedLen],
    [EncodeToString], [DecodeString] and [CorruptInputError.Error], and proves the round trip, the length bounds, the error behaviour and
    the bit-queue invariants of the package.

    Modelling conventions.
    - A Go [byte] is a [Z] in [0, 256); [[]byte] and [string] are [list Z].
    - Go's [uint] is 64 bits wide; every [uint] operation that can leave
      the range is followed by [wrap].  Go's [int] is 64 bits, signed:
      [wrap_int].
    - A run-time panic (an explicit [panic(...)] or an index out of range)
      is the [Panic] constructor of [result].
    - [dst] is the caller's buffer: a list updated by index, with the
      bounds check of every store written out.  [Encode] and [Decode]
      take [dst] and [src] as two lists, slices that share no memory;
      [Encode_at] and [Decode_at] take them as two slices of one array,
      which may overlap, and agree with [Encode] and [Decode] when they
      do not ([Encode_at_apart], [Decode_at_apart]).
    - [make] panics above the largest allocation of a 64-bit platform;
      that the machine has the memory asked for is assumed. *)

From Stdlib Require Import ZArith Lia String Ascii SpecFloat.
From Stdlib Require DecimalString DecimalZ.
From stdpp Require Import base decidable option numbers list.

Local Open Scope Z_scope.

(** ** Machine integers *)

Definition uint_bits : Z := 64.

(** Reduction of a mathematical integer to Go's [uint]. *)
Definition wrap (x : Z) : Z := x mod 2 ^ uint_bits.

(** Reduction of a mathematical integer to Go's [int]. *)
Definition wrap_int (x : Z) : Z := (x + 2 ^ 63) mod 2 ^ uint_bits - 2 ^ 63.

(** The conversion [byte(x)] of an unsigned integer. *)
Definition to_byte (x : Z) : Z := x mod 256.

Definition is_byte (x : Z) : Prop := 0 <= x < 256.

(** ** Panics *)

Inductive result (A : Type) : Type :=
| Ok (a : A)
| Panic (msg : string).
Arguments Ok {A} a.
Arguments Panic {A} msg.

Definition bind {A B : Type} (m : result A) (k : A -> result B) : result B :=
  match m with
  | Ok a => k a
  | Panic msg => Panic msg
  end.

Notation "'let!' x ':=' m 'in' k" := (bind m (fun x => k))
  (at level 10, x pattern, m at level 100, k at level 200).

Definition index_out_of_range : string := "index out of range".

(** [a[i]] for a slice or array [a]. *)
Definition index (a : list Z) (i : Z) : result Z :=
  match a !! Z.to_nat i with
  | Some x => Ok x
  | None => Panic index_out_of_range
  end.

(** [dst[n] = x]. *)
Definition store (dst : list Z) (n : nat) (x : Z) : result (list Z) :=
  if decide (n < length dst)%nat then Ok (<[n := x]> dst)
  else Panic index_out_of_range.

(** ** The encoding table *)

Record Encoding : Type := mkEncoding {
  encode : list Z;      (* [91]byte *)
  decodeMap : list Z    (* [256]byte *)
}.

Definition bytes_of_string (s : string) : list Z :=
  List.map (fun c => Z.of_N (N_of_ascii c)) (list_ascii_of_string s).

(** [encodeStd]; its last byte is the double quote, 0x22. *)
Definition encodeStd : list Z :=
  bytes_of_string
    "ABCDEFGHIJKLMNOPQRSTUVWXYZabcdefghijklmnopqrstuvwxyz0123456789!#$%&()*+,./:;<=>?@[]^_`{|}~"
  ++ [34].

(** The built-in [copy(dst, src)]: the first [min (len dst) (len src)]
    elements of [dst] are overwritten. *)
Definition copy (dst src : list Z) : list Z :=
  take (length dst) src ++ drop (length src) dst.

(** The loop [for i := 0; i < len(encoder); i++ { decodeMap[encoder[i]] = byte(i) }],
    run from index [i] on the rest of [encoder].  The index is a byte and
    the array has 256 entries, so the store has no bounds failure. *)
Fixpoint fill_decodeMap (encoder : list Z) (i : nat) (m : list Z) : list Z :=
  match encoder with
  | [] => m
  | c :: rest => fill_decodeMap rest (S i) (<[Z.to_nat c := to_byte (Z.of_nat i)]> m)
  end.

Definition is_newline (c : Z) : bool := (c =? 10) || (c =? 13).

Definition NewEncoding (encoder : list Z) : result Encoding :=
  if negb (length encoder =? 91)%nat then
    Panic "encoding alphabet is not 91 bytes long"
  else if existsb is_newline encoder then
    Panic "encoding alphabet contains newline character"
  else
    Ok {| encode := copy (replicate 91 0) encoder;
          decodeMap := fill_decodeMap encoder 0 (replicate 256 255) |}.

Definition StdEncoding : result Encoding := NewEncoding encodeStd.

(** The table [StdEncoding] holds. *)
Definition std : Encoding :=
  {| encode := encodeStd;
     decodeMap := fill_decodeMap encodeStd 0 (replicate 256 255) |}.

(** ** Encoder *)

(** One iteration of the [for] loop of [Encode] on the byte [b]. *)
Definition Encode_iter (enc : Encoding) (b : Z)
    (dst : list Z) (n : nat) (queue numBits : Z)
  : result (list Z * nat * Z * Z) :=
  let queue := Z.lor queue (wrap (Z.shiftl b numBits)) in
  let numBits := wrap (numBits + 8) in
  if 13 <? numBits then
    let v := Z.land queue 8191 in
    let '(v, queue, numBits) :=
      if 88 <? v then (v, Z.shiftr queue 13, wrap (numBits - 13))
      else (Z.land queue 16383, Z.shiftr queue 14, wrap (numBits - 14)) in
    let! c0 := index (encode enc) (v mod 91) in
    let! dst := store dst n c0 in
    let! c1 := index (encode enc) (v / 91) in
    let! dst := store dst (S n) c1 in
    Ok (dst, S (S n), queue, numBits)
  else Ok (dst, n, queue, numBits).

Fixpoint Encode_loop (enc : Encoding) (src : list Z)
    (dst : list Z) (n : nat) (queue numBits : Z)
  : result (list Z * nat * Z * Z) :=
  match src with
  | [] => Ok (dst, n, queue, numBits)
  | b :: src' =>
      let! (dst, n, queue, numBits) := Encode_iter enc b dst n queue numBits in
      Encode_loop enc src' dst n queue numBits
  end.

(** The statements after the loop. *)
Definition Encode_flush (enc : Encoding)
    (dst : list Z) (n : nat) (queue numBits : Z) : result (list Z * nat) :=
  if 0 <? numBits then
    let! c0 := index (encode enc) (queue mod 91) in
    let! dst := store dst n c0 in
    if (7 <? numBits) || (90 <? queue) then
      let! c1 := index (encode enc) (queue / 91) in
      let! dst := store dst (S n) c1 in
      Ok (dst, S (S n))
    else Ok (dst, S n)
  else Ok (dst, n).

(** [enc.Encode(dst, src)]: the buffer after the call and the count returned. *)
Definition Encode (enc : Encoding) (dst src : list Z) : result (list Z * nat) :=
  let! (dst, n, queue, numBits) := Encode_loop enc src dst 0%nat 0 0 in
  Encode_flush enc dst n queue numBits.

(** ** Decoder *)

Inductive error : Type :=
| CorruptInputError (i : Z).

(** [e.Error()].  The verb [%d] of [fmt.Sprintf] prints the [int64] in
    decimal, without leading zeros and with a minus sign when negative. *)
Definition Error (e : error) : string :=
  match e with
  | CorruptInputError i =>
      ("illegal base91 data at input byte " ++
       DecimalString.NilZero.string_of_int (Z.to_int i))%string
  end.

(** The [do ... while numBits > 7] loop of [Decode].  Every iteration
    stores at [dst[n]] and increments [n], so the loop ends, by its exit
    test or by a bounds failure, within [length dst - n + 1] iterations:
    [fuel] is never exhausted when it is larger than [length dst - n]. *)
Fixpoint Decode_drain (fuel : nat) (dst : list Z) (n : nat) (queue numBits : Z)
  : result (list Z * nat * Z * Z) :=
  match fuel with
  | O => Panic index_out_of_range
  | S fuel =>
      let! dst := store dst n (to_byte queue) in
      let n := S n in
      let queue := Z.shiftr queue 8 in
      let numBits := wrap (numBits - 8) in
      if 7 <? numBits then Decode_drain fuel dst n queue numBits
      else Ok (dst, n, queue, numBits)
  end.

(** The [for] loop of [Decode] from index [i], on the rest [src] of the
    input, and the statements after it. *)
Fixpoint Decode_loop (enc : Encoding) (src : list Z) (i : nat)
    (dst : list Z) (n : nat) (queue numBits v : Z)
  : result (list Z * nat * option error) :=
  match src with
  | [] =>
      if negb (v =? -1) then
        let! dst := store dst n (to_byte (Z.lor queue (wrap (Z.shiftl (wrap v) numBits)))) in
        Ok (dst, S n, None)
      else Ok (dst, n, None)
  | c :: src' =>
      let! d := index (decodeMap enc) c in
      if d =? 255 then Ok (dst, n, Some (CorruptInputError (Z.of_nat i)))
      else if v =? -1 then
        Decode_loop enc src' (S i) dst n queue numBits d
      else
        let v := wrap_int (v + wrap_int (d * 91)) in
        let queue := Z.lor queue (wrap (Z.shiftl (wrap v) numBits)) in
        let numBits :=
          if 88 <? Z.land v 8191 then wrap (numBits + 13)
          else wrap (numBits + 14) in
        let! (dst, n, queue, numBits) := Decode_drain (S (length dst - n)) dst n queue numBits in
        Decode_loop enc src' (S i) dst n queue numBits (-1)
  end.

(** [enc.Decode(dst, src)]: the buffer after the call, the count and the
    error returned. *)
Definition Decode (enc : Encoding) (dst src : list Z)
  : result (list Z * nat * option error) :=
  Decode_loop enc src 0%nat dst 0%nat 0 0 (-1).

(** [enc.DecodedLen(n)]. *)
Definition DecodedLen (n : Z) : Z := n.

(** ** [EncodedLen]: binary64 arithmetic

    [EncodedLen] computes in [float64].  A [float64] is a [spec_float] of
    the Standard Library with the parameters of binary64 (53 bits of
    mantissa, exponent bound 1024); [SFmul] and [SFdiv] are its correctly
    rounded (to nearest, ties to even) operations. *)

Definition float64 : Type := spec_float.

(** The conversion [float64(n)] of an integer, rounded to nearest even. *)
Definition float64_of_int (n : Z) : float64 := binary_normalize 53 1024 n 0 false.

(** [math.Ceil]: the least integral value not below [x]; zeros,
    infinities and NaN are returned as they are. *)
Definition Ceil (x : float64) : float64 :=
  match x with
  | S754_finite s m e =>
      if 0 <=? e then x
      else
        let i := if s then - (Zpos m / 2 ^ (- e)) else - ((- Zpos m) / 2 ^ (- e)) in
        binary_normalize 53 1024 i 0 s
  | _ => x
  end.

(** The conversion [int(x)]: the fraction is discarded; for a value
    that is not an [int] (also an infinity or NaN) the result depends on
    the platform, on amd64 it is the least [int]. *)
Definition int_of_float64 (x : float64) : Z :=
  match x with
  | S754_zero _ => 0
  | S754_finite s m e =>
      let a := if 0 <=? e then Zpos m * 2 ^ e else Zpos m / 2 ^ (- e) in
      let t := if s then - a else a in
      if (- 2 ^ 63 <=? t) && (t <? 2 ^ 63) then t else - 2 ^ 63
  | _ => - 2 ^ 63
  end.

(** [enc.EncodedLen(n)]: [int(math.Ceil(float64(n) * 16.0 / 13.0))]. *)
Definition EncodedLen (n : Z) : Z :=
  int_of_float64
    (Ceil (SFdiv 53 1024
             (SFmul 53 1024 (float64_of_int n) (float64_of_int 16))
             (float64_of_int 13))).

(** ** The string wrappers *)

(** The largest allocation of the runtime, [maxAlloc]: [1 << 48] bytes
    on a 64-bit platform. *)
Definition maxAlloc : Z := 2 ^ 48.

(** [make([]byte, n)]: a new zeroed slice, which shares no memory with
    any other; a negative length and a length above [maxAlloc] panic.
    That the machine has the memory asked for is assumed. *)
Definition make (n : Z) : result (list Z) :=
  if (n <? 0) || (maxAlloc <? n) then Panic "makeslice: len out of range"
  else Ok (replicate (Z.to_nat n) 0).

(** [buf[:n]]: a length above that of [buf] panics. *)
Definition slice_to (buf : list Z) (n : nat) : result (list Z) :=
  if decide (n <= length buf)%nat then Ok (take n buf)
  else Panic "slice bounds out of range".

(** [enc.EncodeToString(src)]. *)
Definition EncodeToString (enc : Encoding) (src : list Z) : result (list Z) :=
  let! buf := make (EncodedLen (Z.of_nat (length src))) in
  let! (buf, n) := Encode enc buf src in
  slice_to buf n.

(** [enc.DecodeString(s)]: the bytes and the error returned. *)
Definition DecodeString (enc : Encoding) (s : list Z)
  : result (list Z * option error) :=
  let! dbuf := make (DecodedLen (Z.of_nat (length s))) in
  let! (dbuf, n, err) := Decode enc dbuf s in
  let! out := slice_to dbuf n in
  Ok (out, err).

(** ** Slices of one backing array

    [dst] and [src] are slices, windows onto a backing array, and the
    caller may pass two windows onto the same array.  [Encode] and
    [Decode] above run on two lists, that is on slices that share no
    memory.  [Encode_at] and [Decode_at] run the same statements on one
    array [arr]: every [src[i]] is read from the array as the stores to
    [dst] made before have left it. *)

Record slice : Type := mkSlice {
  s_off : nat;   (* index in the array of the first element *)
  s_len : nat    (* len(s) *)
}.

(** [s[i]]. *)
Definition load (arr : list Z) (s : slice) (i : nat) : result Z :=
  if decide (i < s_len s)%nat then
    match arr !! (s_off s + i)%nat with
    | Some x => Ok x
    | None => Panic index_out_of_range
    end
  else Panic index_out_of_range.

(** [s[n] = x]. *)
Definition store_at (arr : list Z) (s : slice) (n : nat) (x : Z) : result (list Z) :=
  if decide (n < s_len s)%nat then store arr (s_off s + n) x
  else Panic index_out_of_range.

(** The body of the loop of [Encode], as [Encode_iter], on the array. *)
Definition Encode_iter_at (enc : Encoding) (b : Z)
    (arr : list Z) (dst : slice) (n : nat) (queue numBits : Z)
  : result (list Z * nat * Z * Z) :=
  let queue := Z.lor queue (wrap (Z.shiftl b numBits)) in
  let numBits := wrap (numBits + 8) in
  if 13 <? numBits then
    let v := Z.land queue 8191 in
    let '(v, queue, numBits) :=
      if 88 <? v then (v, Z.shiftr queue 13, wrap (numBits - 13))
      else (Z.land queue 16383, Z.shiftr queue 14, wrap (numBits - 14)) in
    let! c0 := index (encode enc) (v mod 91) in
    let! arr := store_at arr dst n c0 in
    let! c1 := index (encode enc) (v / 91) in
    let! arr := store_at arr dst (S n) c1 in
    Ok (arr, S (S n), queue, numBits)
  else Ok (arr, n, queue, numBits).

(** [for i := i; i < len(src); i++ { ... }] with [k = len(src) - i]
    iterations left. *)
Fixpoint Encode_loop_at (enc : Encoding) (k i : nat)
    (arr : list Z) (dst src : slice) (n : nat) (queue numBits : Z)
  : result (list Z * nat * Z * Z) :=
  match k with
  | O => Ok (arr, n, queue, numBits)
  | S k =>
      let! b := load arr src i in
      let! (arr, n, queue, numBits) := Encode_iter_at enc b arr dst n queue numBits in
      Encode_loop_at enc k (S i) arr dst src n queue numBits
  end.

Definition Encode_flush_at (enc : Encoding)
    (arr : list Z) (dst : slice) (n : nat) (queue numBits : Z) : result (list Z * nat) :=
  if 0 <? numBits then
    let! c0 := index (encode enc) (queue mod 91) in
    let! arr := store_at arr dst n c0 in
    if (7 <? numBits) || (90 <? queue) then
      let! c1 := index (encode enc) (queue / 91) in
      let! arr := store_at arr dst (S n) c1 in
      Ok (arr, S (S n))
    else Ok (arr, S n)
  else Ok (arr, n).

(** [enc.Encode(dst, src)] for two slices of the array [arr]: the array
    after the call and the count returned. *)
Definition Encode_at (enc : Encoding) (arr : list Z) (dst src : slice)
  : result (list Z * nat) :=
  let! (arr, n, queue, numBits) :=
    Encode_loop_at enc (s_len src) 0%nat arr dst src 0%nat 0 0 in
  Encode_flush_at enc arr dst n queue numBits.

(** The [do ... while] loop of [Decode], as [Decode_drain], on the array. *)
Fixpoint Decode_drain_at (fuel : nat) (arr : list Z) (dst : slice)
    (n : nat) (queue numBits : Z)
  : result (list Z * nat * Z * Z) :=
  match fuel with
  | O => Panic index_out_of_range
  | S fuel =>
      let! arr := store_at arr dst n (to_byte queue) in
      let n := S n in
      let queue := Z.shiftr queue 8 in
      let numBits := wrap (numBits - 8) in
      if 7 <? numBits then Decode_drain_at fuel arr dst n queue numBits
      else Ok (arr, n, queue, numBits)
  end.

(** The [for] loop of [Decode] from index [i], with [k = len(src) - i]
    iterations left, and the statements after it. *)
Fixpoint Decode_loop_at (enc : Encoding) (k i : nat)
    (arr : list Z) (dst src : slice) (n : nat) (queue numBits v : Z)
  : result (list Z * nat * option error) :=
  match k with
  | O =>
      if negb (v =? -1) then
        let! arr :=
          store_at arr dst n (to_byte (Z.lor queue (wrap (Z.shiftl (wrap v) numBits)))) in
        Ok (arr, S n, None)
      else Ok (arr, n, None)
  | S k =>
      let! c := load arr src i in
      let! d := index (decodeMap enc) c in
      if d =? 255 then Ok (arr, n, Some (CorruptInputError (Z.of_nat i)))
      else if v =? -1 then
        Decode_loop_at enc k (S i) arr dst src n queue numBits d
      else
        let v := wrap_int (v + wrap_int (d * 91)) in
        let queue := Z.lor queue (wrap (Z.shiftl (wrap v) numBits)) in
        let numBits :=
          if 88 <? Z.land v 8191 then wrap (numBits + 13)
          else wrap (numBits + 14) in
        let! (arr, n, queue, numBits) :=
          Decode_drain_at (S (s_len dst - n)) arr dst n queue numBits in
        Decode_loop_at enc k (S i) arr dst src n queue numBits (-1)
  end.

(** [enc.Decode(dst, src)] for two slices of the array [arr]. *)
Definition Decode_at (enc : Encoding) (arr : list Z) (dst src : slice)
  : result (list Z * nat * option error) :=
  Decode_loop_at enc (s_len src) 0%nat arr dst src 0%nat 0 0 (-1).

(** The elements of the slice [s] of [arr]. *)
Definition view (arr : list Z) (s : slice) : list Z :=
  take (s_len s) (drop (s_off s) arr).

(** The slice lies within the array. *)
Definition in_array (arr : list Z) (s : slice) : Prop :=
  (s_off s + s_len s <= length arr)%nat.

(** The two slices share no element. *)
Definition no_overlap (a b : slice) : Prop :=
  (s_off a + s_len a <= s_off b)%nat \/ (s_off b + s_len b <= s_off a)%nat.

(** Number of bits of a positive integer. *)
Definition digits (p : positive) : Z := Zpos (digits2_pos p).

(** The last step of [binary_round_aux]: the rounded mantissa is
    normalised again and the exponent checked. *)
Definition round_finish (M e : Z) : spec_float :=
  let '(mrs, e') := shr_fexp 53 1024 M e loc_Exact in
  match shr_m mrs with
  | Z0 => S754_zero false
  | Zpos m => if e' <=? 1024 - 53 then S754_finite false m e' else S754_infinity false
  | Zneg _ => S754_nan
  end.

(** The values [numBits] may take. *)
Definition count_ok (x : Z) : Prop := 0 <= x <= 21.

(** ** Instrumented runs

    Copies of the loops of [Encode] and [Decode] that return, next to the
    result, the log of the values assigned to [numBits], in the order of
    the assignments.  On a panic the log holds the values assigned before
    it.  [Encode_log_result] and [Decode_log_result] show that the results
    are those of [Encode] and [Decode]. *)

Definition Encode_iter_log (enc : Encoding) (b : Z)
    (dst : list Z) (n : nat) (queue numBits : Z)
  : list Z * result (list Z * nat * Z * Z) :=
  let queue := Z.lor queue (wrap (Z.shiftl b numBits)) in
  let numBits := wrap (numBits + 8) in
  if 13 <? numBits then
    let v := Z.land queue 8191 in
    let '(v, queue, numBits') :=
      if 88 <? v then (v, Z.shiftr queue 13, wrap (numBits - 13))
      else (Z.land queue 16383, Z.shiftr queue 14, wrap (numBits - 14)) in
    ([numBits; numBits'],
     let! c0 := index (encode enc) (v mod 91) in
     let! dst := store dst n c0 in
     let! c1 := index (encode enc) (v / 91) in
     let! dst := store dst (S n) c1 in
     Ok (dst, S (S n), queue, numBits'))
  else ([numBits], Ok (dst, n, queue, numBits)).

Fixpoint Encode_loop_log (enc : Encoding) (src : list Z)
    (dst : list Z) (n : nat) (queue numBits : Z)
  : list Z * result (list Z * nat * Z * Z) :=
  match src with
  | [] => ([], Ok (dst, n, queue, numBits))
  | b :: src' =>
      match Encode_iter_log enc b dst n queue numBits with
      | (l1, Ok (dst, n, queue, numBits)) =>
          let '(l2, r) := Encode_loop_log enc src' dst n queue numBits in
          (l1 ++ l2, r)
      | (l1, Panic msg) => (l1, Panic msg)
      end
  end.

(** [Encode] with its log; the first entry is the initial value of [numBits]. *)
Definition Encode_log (enc : Encoding) (dst src : list Z)
  : list Z * result (list Z * nat) :=
  let '(l, r) := Encode_loop_log enc src dst 0%nat 0 0 in
  (0 :: l,
   let! (dst, n, queue, numBits) := r in
   Encode_flush enc dst n queue numBits).

Fixpoint Decode_drain_log (fuel : nat) (dst : list Z) (n : nat) (queue numBits : Z)
  : list Z * result (list Z * nat * Z * Z) :=
  match fuel with
  | O => ([], Panic index_out_of_range)
  | S fuel =>
      match store dst n (to_byte queue) with
      | Ok dst =>
          let n := S n in
          let queue := Z.shiftr queue 8 in
          let numBits := wrap (numBits - 8) in
          if 7 <? numBits then
            let '(l, r) := Decode_drain_log fuel dst n queue numBits in
            (numBits :: l, r)
          else ([numBits], Ok (dst, n, queue, numBits))
      | Panic msg => ([], Panic msg)
      end
  end.

Fixpoint Decode_loop_log (enc : Encoding) (src : list Z) (i : nat)
    (dst : list Z) (n : nat) (queue numBits v : Z)
  : list Z * result (list Z * nat * option error) :=
  match src with
  | [] =>
      ([],
       if negb (v =? -1) then
         let! dst := store dst n (to_byte (Z.lor queue (wrap (Z.shiftl (wrap v) numBits)))) in
         Ok (dst, S n, None)
       else Ok (dst, n, None))
  | c :: src' =>
      match index (decodeMap enc) c with
      | Ok d =>
          if d =? 255 then ([], Ok (dst, n, Some (CorruptInputError (Z.of_nat i))))
          else if v =? -1 then
            Decode_loop_log enc src' (S i) dst n queue numBits d
          else
            let v := wrap_int (v + wrap_int (d * 91)) in
            let queue := Z.lor queue (wrap (Z.shiftl (wrap v) numBits)) in
            let numBits :=
              if 88 <? Z.land v 8191 then wrap (numBits + 13)
              else wrap (numBits + 14) in
            match Decode_drain_log (S (length dst - n)) dst n queue numBits with
            | (l1, Ok (dst, n, queue, numBits')) =>
                let '(l2, r) := Decode_loop_log enc src' (S i) dst n queue numBits' (-1) in
                (numBits :: l1 ++ l2, r)
            | (l1, Panic msg) => (numBits :: l1, Panic msg)
            end
      | Panic msg => ([], Panic msg)
      end
  end.

(** [Decode] with its log; the first entry is the initial value of [numBits]. *)
Definition Decode_log (enc : Encoding) (dst src : list Z)
  : list Z * result (list Z * nat * option error) :=
  let '(l, r) := Decode_loop_log enc src 0%nat dst 0%nat 0 0 (-1) in
  (0 :: l, r).

(** ** The arithmetic of the two loops

    The functions of this section describe what the loops compute on
    base-91 digits (the indices into [encode], the values read from
    [decodeMap]) with unbounded integers.  They are the specification the
    embedded code is shown to meet ([Encode_run],
    [Decode_run]); every property of the codec is then derived for
    the embedded code from them. *)

(** Number of bits carried by a digit pair whose value has [q] as its low bits. *)
Definition width (q : Z) : Z := if 88 <? q mod 8192 then 13 else 14.

(** Digits emitted by the statements after the loop of [Encode]. *)
Definition flush_digits (q nb : Z) : list Z :=
  if 0 <? nb then
    q mod 91 :: (if (7 <? nb) || (90 <? q) then [q / 91] else [])
  else [].

(** Digits emitted by the loop of [Encode] from the state [(q, nb)] on [src]. *)
Fixpoint enc_loop_digits (src : list Z) (q nb : Z) : list Z :=
  match src with
  | [] => []
  | b :: src' =>
      let q1 := q + b * 2 ^ nb in
      if 13 <? nb + 8 then
        let k := width q1 in
        let v := q1 mod 2 ^ k in
        v mod 91 :: v / 91 :: enc_loop_digits src' (q1 / 2 ^ k) (nb + 8 - k)
      else enc_loop_digits src' q1 (nb + 8)
  end.

(** State of the bit queue when the loop of [Encode] ends. *)
Fixpoint enc_final (src : list Z) (q nb : Z) : Z * Z :=
  match src with
  | [] => (q, nb)
  | b :: src' =>
      let q1 := q + b * 2 ^ nb in
      if 13 <? nb + 8 then
        let k := width q1 in enc_final src' (q1 / 2 ^ k) (nb + 8 - k)
      else enc_final src' q1 (nb + 8)
  end.

(** Digits emitted by [Encode] from the state [(q, nb)] on [src]. *)
Definition enc_digits (src : list Z) (q nb : Z) : list Z :=
  enc_loop_digits src q nb ++
  flush_digits (enc_final src q nb).1 (enc_final src q nb).2.

(** The [j] low bytes of [x], least significant first. *)
Fixpoint le_split (j : nat) (x : Z) : list Z :=
  match j with
  | O => []
  | S j => x mod 256 :: le_split j (x / 256)
  end.

(** The integer whose little-endian bytes are [l]. *)
Fixpoint le_combine (l : list Z) : Z :=
  match l with
  | [] => 0
  | b :: l => b + 256 * le_combine l
  end.

(** Bytes written and error returned by [Decode] from the state
    [(q, nb, v)] at index [i], on the digits [ds] read from [decodeMap]
    (255 for a byte that is not in the alphabet). *)
Fixpoint dec_out (ds : list Z) (i : nat) (q nb v : Z) : list Z * option error :=
  match ds with
  | [] => (if v =? -1 then [] else [(q + v * 2 ^ nb) mod 256], None)
  | d :: ds' =>
      if d =? 255 then ([], Some (CorruptInputError (Z.of_nat i)))
      else if v =? -1 then dec_out ds' (S i) q nb d
      else
        let v := v + d * 91 in
        let q1 := q + v * 2 ^ nb in
        let nb1 := nb + width v in
        let j := nb1 / 8 in
        let r := dec_out ds' (S i) (q1 / 2 ^ (8 * j)) (nb1 - 8 * j) (-1) in
        (le_split (Z.to_nat j) q1 ++ r.1, r.2)
  end.

(** The symbol of a digit and the digit of a symbol, by table lookup. *)
Definition sym (enc : Encoding) (d : Z) : Z := default 0 (encode enc !! Z.to_nat d).
Definition digit (enc : Encoding) (c : Z) : Z := default 255 (decodeMap enc !! Z.to_nat c).

(** The buffer [dst] after the bytes [out] were stored from index [n] on. *)
Definition written (dst : list Z) (n : nat) (out : list Z) : list Z :=
  take n dst ++ out ++ drop (n + length out)%nat dst.

(** What [NewEncoding] guarantees of every table it returns. *)
Record table_ok (enc : Encoding) : Prop := mk_table_ok {
  encode_len : length (encode enc) = 91%nat;
  decodeMap_len : length (decodeMap enc) = 256%nat;
  decodeMap_range : forall c, 0 <= digit enc c <= 90 \/ digit enc c = 255
}.

(** The table inverts itself on the 91 digits. *)
Definition table_inverse (enc : Encoding) : Prop :=
  forall d, 0 <= d <= 90 -> is_byte (sym enc d) /\ digit enc (sym enc d) = d.

(** The loop invariant of [Encode]: at most 13 pending bits, and no bit of
    the queue above them. *)
Definition enc_inv (q nb : Z) : Prop := 0 <= nb <= 13 /\ 0 <= q < 2 ^ nb.

(** The loop invariant of [Decode]: fewer than 8 pending bits, no bit of
    the queue above them, and a pending digit or none. *)
Definition dec_inv (q nb v : Z) : Prop :=
  0 <= nb <= 7 /\ 0 <= q < 2 ^ nb /\ (v = -1 \/ 0 <= v <= 90).

(** One byte of room for a pending digit. *)
Definition pending (v : Z) : nat := if v =? -1 then 0%nat else 1%nat.

Definition digit_or_invalid (d : Z) : Prop := 0 <= d <= 90 \/ d = 255.

(** What the two bit queues hold together: the bytes [pend] the encoder
    has read and the decoder has not written yet. *)
Record coupled (q nb dq dnb : Z) (pend : list Z) : Prop := mk_coupled {
  c_enc : enc_inv q nb;
  c_dec : dec_inv dq dnb (-1);
  c_bytes : Forall is_byte pend;
  c_bits : 8 * Z.of_nat (length pend) = nb + dnb;
  c_value : le_combine pend = dq + q * 2 ^ dnb
}.

(** The integer [ceil (a / b)] for positive [b]. *)
Definition ceil_div (a b : Z) : Z := (a + b - 1) / b.

(** ** Integer and bit-level facts *)

(** Closes a goal that bounds a [uint] value below [2^64]. *)
Ltac no_wrap := change (2 ^ 64) with 18446744073709551616; first [lia | nia].

Lemma wrap_small x : 0 <= x < 2 ^ 64 -> wrap x = x.
Proof. intros H. unfold wrap, uint_bits. apply Z.mod_small. exact H. Qed.

Lemma wrap_int_small x : - 2 ^ 63 <= x < 2 ^ 63 -> wrap_int x = x.
Proof.
  intros H. unfold wrap_int, uint_bits.
  rewrite Z.mod_small; lia.
Qed.

Lemma pow2_pos n : 0 <= n -> 0 < 2 ^ n.
Proof. intros H. apply Z.pow_pos_nonneg; lia. Qed.

Lemma pow2_le_mono a b : 0 <= a <= b -> 2 ^ a <= 2 ^ b.
Proof. intros H. apply Z.pow_le_mono_r; lia. Qed.

Lemma pow2_split a b : 0 <= a -> 0 <= b -> 2 ^ (a + b) = 2 ^ a * 2 ^ b.
Proof. intros. apply Z.pow_add_r; lia. Qed.

Lemma land_disjoint q x nb :
  0 <= nb -> 0 <= q < 2 ^ nb -> Z.land q (x * 2 ^ nb) = 0.
Proof.
  intros Hnb Hq. apply Z.bits_inj'. intros i Hi.
  rewrite Z.land_spec, Z.bits_0.
  destruct (Z.lt_ge_cases i nb) as [Hlt | Hge].
  - rewrite Z.mul_pow2_bits_low by lia. apply andb_false_r.
  - replace (Z.testbit q i) with false; [reflexivity |].
    symmetry. rewrite <- (Z.mod_small q (2 ^ nb)) by lia.
    apply Z.mod_pow2_bits_high. lia.
Qed.

Lemma lor_shiftl_add q x nb :
  0 <= nb -> 0 <= q < 2 ^ nb -> Z.lor q (Z.shiftl x nb) = q + x * 2 ^ nb.
Proof.
  intros Hnb Hq. rewrite Z.shiftl_mul_pow2 by lia.
  rewrite <- Z.lxor_lor by (apply land_disjoint; lia).
  symmetry. apply Z.add_nocarry_lxor. apply land_disjoint; lia.
Qed.

Lemma lor_wrap_shiftl q x nb :
  0 <= nb -> 0 <= q < 2 ^ nb -> 0 <= x * 2 ^ nb < 2 ^ 64 ->
  Z.lor q (wrap (Z.shiftl x nb)) = q + x * 2 ^ nb.
Proof.
  intros Hnb Hq Hx. rewrite <- lor_shiftl_add by assumption.
  f_equal. rewrite Z.shiftl_mul_pow2 by lia. apply wrap_small. exact Hx.
Qed.

Lemma land_8191 q : 0 <= q -> Z.land q 8191 = q mod 2 ^ 13.
Proof. intros _. change 8191 with (Z.ones 13). apply Z.land_ones. lia. Qed.

Lemma land_16383 q : 0 <= q -> Z.land q 16383 = q mod 2 ^ 14.
Proof. intros _. change 16383 with (Z.ones 14). apply Z.land_ones. lia. Qed.

Lemma shiftr_div q k : 0 <= k -> Z.shiftr q k = q / 2 ^ k.
Proof. intros H. apply Z.shiftr_div_pow2. exact H. Qed.

Lemma width_cases q : width q = 13 \/ width q = 14.
Proof. unfold width. destruct (88 <? q mod 8192); auto. Qed.

Lemma width_mod q k : 13 <= k -> width (q mod 2 ^ k) = width q.
Proof.
  intros Hk. unfold width. change 8192 with (2 ^ 13).
  replace (2 ^ k) with (2 ^ 13 * 2 ^ (k - 13)).
  - rewrite Z.rem_mul_r by (try apply Z.pow_nonzero; try apply pow2_pos; lia).
    rewrite Z.mul_comm, Z.mod_add by lia.
    rewrite Z.mod_mod by lia. reflexivity.
  - rewrite <- pow2_split by lia. f_equal. lia.
Qed.
(** ** Buffer facts *)

Lemma written_nil dst n : written dst n [] = dst.
Proof. unfold written. simpl. rewrite Nat.add_0_r. apply take_drop. Qed.

Lemma length_written dst n out :
  (n + length out <= length dst)%nat -> length (written dst n out) = length dst.
Proof.
  intros H. unfold written.
  rewrite !length_app, length_take, length_drop. lia.
Qed.

Lemma written_app dst n a b :
  (n + length a + length b <= length dst)%nat ->
  written (written dst n a) (n + length a) b = written dst n (a ++ b).
Proof.
  intros H. unfold written.
  assert (Hl : length (take n dst ++ a) = (n + length a)%nat).
  { rewrite length_app, length_take. lia. }
  rewrite (app_assoc (take n dst) a).
  rewrite take_app_length' by (symmetry; exact Hl).
  rewrite (drop_app_add' (take n dst ++ a)) by (symmetry; exact Hl).
  rewrite drop_drop, length_app, <- !app_assoc.
  rewrite Nat.add_assoc. reflexivity.
Qed.

Lemma store_run dst n x :
  store dst n x =
  if decide (n < length dst)%nat then Ok (written dst n [x])
  else Panic index_out_of_range.
Proof.
  unfold store. destruct (decide (n < length dst)%nat) as [H | H]; [| reflexivity].
  f_equal. unfold written. simpl. rewrite Nat.add_1_r.
  apply insert_take_drop. exact H.
Qed.

Lemma store2_run {A : Type} dst n x y (f : list Z -> A) :
  (let! dst1 := store dst n x in
   let! dst2 := store dst1 (S n) y in Ok (f dst2)) =
  if decide (S n < length dst)%nat then Ok (f (written dst n [x; y]))
  else Panic index_out_of_range.
Proof.
  rewrite store_run. destruct (decide (n < length dst)%nat) as [H | H].
  - cbn [bind]. rewrite store_run.
    rewrite length_written by (simpl; lia).
    destruct (decide (S n < length dst)%nat) as [H' | H']; [| reflexivity].
    cbn [bind]. do 2 f_equal.
    replace (S n) with (n + length [x])%nat by (simpl; lia).
    apply (written_app dst n [x] [y]). simpl. lia.
  - cbn [bind]. rewrite decide_False by lia. reflexivity.
Qed.

Lemma take_written dst n out :
  (n + length out <= length dst)%nat ->
  take (n + length out) (written dst n out) = take n dst ++ out.
Proof.
  intros H. unfold written. rewrite app_assoc.
  apply take_app_length'. rewrite length_app, length_take. lia.
Qed.

Lemma drop_written dst n out :
  (n + length out <= length dst)%nat ->
  drop (n + length out) (written dst n out) = drop (n + length out) dst.
Proof.
  intros H. unfold written. rewrite app_assoc.
  apply drop_app_length'. rewrite length_app, length_take. lia.
Qed.

Lemma Forall_is_byte_cons b l :
  Forall is_byte (b :: l) -> is_byte b /\ Forall is_byte l.
Proof. intros H. inversion H; subst. split; assumption. Qed.

(** ** Digit pairs *)

(** The value extracted by the encoder is a pair of digits, and the decoder
    reads its width back from it. *)
Lemma pair_value q1 :
  0 <= q1 ->
  let k := width q1 in
  let v := q1 mod 2 ^ k in
  0 <= v < 2 ^ k /\ 0 <= v mod 91 <= 90 /\ 0 <= v / 91 <= 90 /\
  v mod 91 + v / 91 * 91 = v /\ width v = k.
Proof.
  intros Hq k v.
  assert (Hk : k = 13 \/ k = 14) by apply width_cases.
  assert (Hv : 0 <= v < 2 ^ k).
  { apply Z.mod_pos_bound. apply pow2_pos. lia. }
  assert (Hw : width v = k).
  { unfold v. rewrite width_mod by lia. reflexivity. }
  split; [exact Hv |].
  split; [pose proof (Z.mod_pos_bound v 91); lia |].
  split.
  - split; [apply Z.div_pos; lia |].
    assert (v < 91 * 91); [| apply Z.div_lt_upper_bound in H; lia].
    destruct Hk as [Hk | Hk].
    + rewrite Hk in Hv. change (2 ^ 13) with 8192 in Hv. lia.
    + unfold width in Hw. rewrite Hk in Hw, Hv.
      destruct (88 <? v mod 8192) eqn:E; [discriminate |].
      apply Z.ltb_ge in E. change (2 ^ 14) with 16384 in Hv.
      pose proof (Z.div_mod v 8192).
      assert (v / 8192 < 2) by (apply Z.div_lt_upper_bound; lia).
      lia.
  - split; [| exact Hw].
    pose proof (Z.div_mod v 91). lia.
Qed.

(** ** The embedded encoder meets its arithmetic *)

Lemma index_sym enc d :
  table_ok enc -> 0 <= d <= 90 -> index (encode enc) d = Ok (sym enc d).
Proof.
  intros Ht Hd. unfold index, sym.
  destruct (encode enc !! Z.to_nat d) as [x |] eqn:E; [reflexivity |].
  apply lookup_ge_None in E. rewrite (encode_len _ Ht) in E. lia.
Qed.

(** An iteration that leaves at most 13 bits in the queue writes nothing. *)
Lemma Encode_iter_keep enc b dst n q nb :
  is_byte b -> 0 <= nb -> nb + 8 <= 13 -> 0 <= q < 2 ^ nb ->
  Encode_iter enc b dst n q nb = Ok (dst, n, q + b * 2 ^ nb, nb + 8).
Proof.
  intros Hb Hnb Hle Hq. unfold Encode_iter.
  assert (Hp : 2 ^ nb <= 2 ^ 5) by (apply pow2_le_mono; lia).
  change (2 ^ 5) with 32 in Hp.
  rewrite lor_wrap_shiftl
    by (unfold is_byte in Hb; no_wrap).
  rewrite (wrap_small (nb + 8)) by no_wrap.
  destruct (13 <? nb + 8) eqn:E; [apply Z.ltb_lt in E; lia | reflexivity].
Qed.

(** An iteration that finds more than 13 bits in the queue writes the two
    symbols of the digit pair it extracts, when [dst] has room for them. *)
Lemma Encode_iter_emit enc b dst n q nb :
  table_ok enc ->
  is_byte b -> 0 <= nb <= 13 -> 13 < nb + 8 -> 0 <= q < 2 ^ nb ->
  let q1 := q + b * 2 ^ nb in
  let k := width q1 in
  let v := q1 mod 2 ^ k in
  Encode_iter enc b dst n q nb =
  if decide (S n < length dst)%nat then
    Ok (written dst n [sym enc (v mod 91); sym enc (v / 91)], S (S n),
        q1 / 2 ^ k, nb + 8 - k)
  else Panic index_out_of_range.
Proof.
  intros Ht Hb Hnb Hgt Hq q1 k v. unfold Encode_iter.
  assert (Hp : 2 ^ nb <= 2 ^ 13) by (apply pow2_le_mono; lia).
  change (2 ^ 13) with 8192 in Hp.
  assert (Hq1 : 0 <= q1) by (unfold q1, is_byte in *; nia).
  rewrite lor_wrap_shiftl
    by (unfold is_byte in Hb; no_wrap).
  fold q1.
  rewrite (wrap_small (nb + 8)) by no_wrap.
  destruct (13 <? nb + 8) eqn:E; [| apply Z.ltb_ge in E; lia].
  rewrite land_8191, land_16383, !shiftr_div by lia.
  destruct (pair_value q1 Hq1) as (Hv & Hlo & Hhi & _ & _).
  fold k v in Hv, Hlo, Hhi.
  assert (Hk : (88 <? q1 mod 2 ^ 13) = true /\ k = 13 \/
               (88 <? q1 mod 2 ^ 13) = false /\ k = 14).
  { unfold k, width. change 8192 with (2 ^ 13).
    destruct (88 <? q1 mod 2 ^ 13); auto. }
  destruct Hk as [[Hc Hk] | [Hc Hk]]; rewrite Hc.
  - rewrite (wrap_small (nb + 8 - 13)) by no_wrap.
    replace (q1 mod 2 ^ 13) with v by (unfold v; rewrite Hk; reflexivity).
    rewrite !index_sym by assumption. cbn [bind]. rewrite Hk.
    apply (store2_run dst n _ _ (fun d => (d, S (S n), q1 / 2 ^ 13, nb + 8 - 13))).
  - rewrite (wrap_small (nb + 8 - 14)) by no_wrap.
    replace (q1 mod 2 ^ 14) with v by (unfold v; rewrite Hk; reflexivity).
    rewrite !index_sym by assumption. cbn [bind]. rewrite Hk.
    apply (store2_run dst n _ _ (fun d => (d, S (S n), q1 / 2 ^ 14, nb + 8 - 14))).
Qed.

(** The queue holds [nb + 8] bits once a byte is merged into it. *)
Lemma enc_merge_bound q nb b :
  is_byte b -> 0 <= nb -> 0 <= q < 2 ^ nb ->
  0 <= q + b * 2 ^ nb < 2 ^ (nb + 8).
Proof.
  intros Hb Hnb Hq. unfold is_byte in Hb.
  rewrite pow2_split by lia. change (2 ^ 8) with 256. nia.
Qed.

Lemma div_pow2_bound x a k :
  0 <= k <= a -> 0 <= x < 2 ^ a -> 0 <= x / 2 ^ k < 2 ^ (a - k).
Proof.
  intros Hk Hx. pose proof (pow2_pos k ltac:(lia)) as Hp. split.
  - apply Z.div_pos; lia.
  - apply Z.div_lt_upper_bound; [lia |].
    rewrite <- pow2_split by lia. replace (k + (a - k)) with a by lia. lia.
Qed.

Lemma enc_inv_init : enc_inv 0 0.
Proof. unfold enc_inv. simpl. lia. Qed.

Lemma enc_inv_keep q nb b :
  is_byte b -> enc_inv q nb -> nb + 8 <= 13 -> enc_inv (q + b * 2 ^ nb) (nb + 8).
Proof.
  intros Hb [Hnb Hq] Hle. split; [lia |]. apply enc_merge_bound; [assumption | lia | assumption].
Qed.

Lemma enc_inv_emit q nb b :
  is_byte b -> enc_inv q nb -> 13 < nb + 8 ->
  let q1 := q + b * 2 ^ nb in
  enc_inv (q1 / 2 ^ width q1) (nb + 8 - width q1) /\ 0 <= nb + 8 - width q1 <= 8.
Proof.
  intros Hb [Hnb Hq] Hgt q1.
  pose proof (width_cases q1) as Hk.
  pose proof (enc_merge_bound q nb b Hb ltac:(lia) Hq) as Hq1. fold q1 in Hq1.
  split; [split |]; try lia.
  apply div_pow2_bound; lia.
Qed.

Lemma enc_final_inv src :
  Forall is_byte src -> forall q nb,
  enc_inv q nb -> enc_inv (enc_final src q nb).1 (enc_final src q nb).2.
Proof.
  induction src as [| b src IH]; intros Hsrc q nb Hinv; [exact Hinv |].
  apply Forall_is_byte_cons in Hsrc as [Hb Hsrc]. simpl.
  destruct (13 <? nb + 8) eqn:E.
  - apply Z.ltb_lt in E. apply IH; [assumption |].
    apply (enc_inv_emit q nb b); assumption.
  - apply Z.ltb_ge in E. apply IH; [assumption |].
    apply enc_inv_keep; assumption.
Qed.

Lemma Encode_loop_run enc src :
  table_ok enc -> Forall is_byte src ->
  forall dst n q nb,
  enc_inv q nb -> (n <= length dst)%nat ->
  Encode_loop enc src dst n q nb =
  if decide (n + length (enc_loop_digits src q nb) <= length dst)%nat then
    Ok (written dst n (map (sym enc) (enc_loop_digits src q nb)),
        (n + length (enc_loop_digits src q nb))%nat,
        (enc_final src q nb).1, (enc_final src q nb).2)
  else Panic index_out_of_range.
Proof.
  intros Ht. induction src as [| b src IH]; intros Hsrc dst n q nb Hinv Hn.
  - simpl. rewrite decide_True by lia.
    rewrite written_nil, Nat.add_0_r. reflexivity.
  - apply Forall_is_byte_cons in Hsrc as [Hb Hsrc].
    cbn [Encode_loop enc_loop_digits enc_final]. destruct (13 <? nb + 8) eqn:E.
    + apply Z.ltb_lt in E. destruct Hinv as [Hnb Hq].
      rewrite Encode_iter_emit by (assumption || lia).
      set (q1 := q + b * 2 ^ nb) in *. set (k := width q1) in *.
      set (v := q1 mod 2 ^ k).
      set (ds := enc_loop_digits src (q1 / 2 ^ k) (nb + 8 - k)) in *.
      cbn [length].
      destruct (decide (S n < length dst)%nat) as [Hroom | Hroom];
        [| cbn [bind]; rewrite decide_False by lia; reflexivity].
      cbn [bind].
      assert (Hl : length (written dst n [sym enc (v mod 91); sym enc (v / 91)])
                   = length dst) by (apply length_written; simpl; lia).
      rewrite IH;
        [| assumption
         | apply (enc_inv_emit q nb b); [assumption | split; assumption | assumption]
         | lia].
      fold ds. rewrite Hl.
      destruct (decide (S (S n) + length ds <= length dst)%nat) as [H2 | H2];
        [rewrite decide_True by lia | rewrite decide_False by lia; reflexivity].
      replace (S (S n)) with (n + length [sym enc (v mod 91); sym enc (v / 91)])%nat
        by (simpl; lia).
      rewrite written_app by (rewrite length_map; simpl; lia).
      simpl. replace (n + 2 + length ds)%nat with (n + S (S (length ds)))%nat by lia.
      reflexivity.
    + apply Z.ltb_ge in E. destruct Hinv as [Hnb Hq].
      rewrite Encode_iter_keep by (assumption || lia). cbn [bind].
      apply IH; [assumption | | assumption].
      apply enc_inv_keep; [assumption | split; assumption | assumption].
Qed.

Lemma flush_digits_range q nb :
  enc_inv q nb -> Forall (fun d => 0 <= d <= 90) (flush_digits q nb).
Proof.
  intros [Hnb Hq]. unfold flush_digits.
  assert (Hp : 2 ^ nb <= 2 ^ 13) by (apply pow2_le_mono; lia).
  change (2 ^ 13) with 8192 in Hp.
  destruct (0 <? nb); [| constructor].
  constructor; [pose proof (Z.mod_pos_bound q 91); lia |].
  destruct ((7 <? nb) || (90 <? q)); [| constructor].
  constructor; [| constructor].
  split; [apply Z.div_pos; lia |].
  assert (q / 91 < 91) by (apply Z.div_lt_upper_bound; lia). lia.
Qed.

Lemma Encode_flush_run enc dst n q nb :
  table_ok enc -> enc_inv q nb -> (n <= length dst)%nat ->
  Encode_flush enc dst n q nb =
  if decide (n + length (flush_digits q nb) <= length dst)%nat then
    Ok (written dst n (map (sym enc) (flush_digits q nb)),
        (n + length (flush_digits q nb))%nat)
  else Panic index_out_of_range.
Proof.
  intros Ht Hinv Hn. pose proof (flush_digits_range q nb Hinv) as Hr.
  unfold Encode_flush, flush_digits in *.
  destruct (0 <? nb).
  - apply Forall_cons in Hr as [H0 Hr]. rewrite index_sym by assumption.
    cbn [bind]. destruct ((7 <? nb) || (90 <? q)).
    + apply Forall_cons in Hr as [H1 _].
      rewrite store_run.
      destruct (decide (n < length dst)%nat) as [Hroom | Hroom];
        [| cbn [bind]; rewrite decide_False by (simpl; lia); reflexivity].
      cbn [bind]. rewrite (index_sym enc (q / 91)) by assumption. cbn [bind].
      rewrite store_run, length_written by (simpl; lia).
      destruct (decide (S n < length dst)%nat) as [H2 | H2];
        [| cbn [bind]; rewrite decide_False by (simpl; lia); reflexivity].
      cbn [bind]. rewrite decide_True by (simpl; lia).
      replace (S n) with (n + length [sym enc (q mod 91)])%nat at 1 by (simpl; lia).
      rewrite written_app by (simpl; lia). simpl. do 2 f_equal. lia.
    + rewrite store_run.
      destruct (decide (n < length dst)%nat) as [Hroom | Hroom];
        [| cbn [bind]; rewrite decide_False by (simpl; lia); reflexivity].
      cbn [bind]. rewrite decide_True by (simpl; lia).
      simpl. do 2 f_equal. lia.
  - simpl. rewrite decide_True by lia.
    rewrite written_nil, Nat.add_0_r. reflexivity.
Qed.

(** [Encode] returns when, and only when, [dst] has room for the symbols;
    it stores the symbols of the digits from index 0 on and returns
    their number. *)
Lemma Encode_run enc dst src :
  table_ok enc -> Forall is_byte src ->
  Encode enc dst src =
  if decide (length (enc_digits src 0 0) <= length dst)%nat then
    Ok (written dst 0 (map (sym enc) (enc_digits src 0 0)),
        length (enc_digits src 0 0))
  else Panic index_out_of_range.
Proof.
  intros Ht Hsrc. unfold Encode, enc_digits.
  rewrite length_app.
  rewrite (Encode_loop_run enc src Ht Hsrc dst 0 0 0 enc_inv_init) by lia.
  simpl (0 + _)%nat.
  destruct (decide (length (enc_loop_digits src 0 0) <= length dst)%nat) as [H1 | H1];
    [| cbn [bind]; rewrite decide_False by lia; reflexivity].
  cbn [bind].
  rewrite Encode_flush_run;
    [| assumption
     | apply enc_final_inv; [assumption | apply enc_inv_init]
     | rewrite length_written by (rewrite length_map; simpl; lia); lia].
  rewrite length_written by (rewrite length_map; simpl; lia).
  destruct (decide (length (enc_loop_digits src 0 0) +
                    length (flush_digits (enc_final src 0 0).1 (enc_final src 0 0).2)
                    <= length dst)%nat) as [H2 | H2]; [| reflexivity].
  rewrite map_app.
  rewrite <- (written_app dst 0) by (rewrite !length_map; simpl; lia).
  rewrite length_map. reflexivity.
Qed.

(** ** The embedded decoder meets its arithmetic *)

Lemma length_le_split j x : length (le_split j x) = j.
Proof. revert x. induction j as [| j IH]; intros x; simpl; [| rewrite IH]; reflexivity. Qed.

Lemma index_digit enc c :
  table_ok enc -> is_byte c -> index (decodeMap enc) c = Ok (digit enc c).
Proof.
  intros Ht Hc. unfold index, digit.
  destruct (decodeMap enc !! Z.to_nat c) as [x |] eqn:E; [reflexivity |].
  apply lookup_ge_None in E. rewrite (decodeMap_len _ Ht) in E.
  unfold is_byte in Hc. lia.
Qed.

(** The [do]-[while] loop stores the [j] low bytes of a queue of
    [8 j .. 8 j + 7] bits, [j >= 1], when [dst] has room for them, with
    any fuel above [length dst - n]. *)
Lemma Decode_drain_run j :
  forall fuel dst n q nb,
  (1 <= j)%nat -> (n <= length dst)%nat -> (length dst - n < fuel)%nat ->
  8 * Z.of_nat j <= nb < 8 * Z.of_nat j + 8 -> nb < 2 ^ 64 ->
  Decode_drain fuel dst n q nb =
  if decide (n + j <= length dst)%nat then
    Ok (written dst n (le_split j q), (n + j)%nat,
        q / 2 ^ (8 * Z.of_nat j), nb - 8 * Z.of_nat j)
  else Panic index_out_of_range.
Proof.
  induction j as [| j IH]; intros fuel dst n q nb Hj Hn Hfuel Hnb Hlt; [lia |].
  destruct fuel as [| fuel]; [lia |].
  cbn [Decode_drain]. rewrite store_run.
  destruct (decide (n < length dst)%nat) as [Hroom | Hroom];
    [| cbn [bind]; rewrite decide_False by lia; reflexivity].
  cbn [bind].
  rewrite (wrap_small (nb - 8)) by lia.
  unfold to_byte. rewrite shiftr_div by lia. change (2 ^ 8) with 256.
  assert (Hl : length (written dst n [q mod 256]) = length dst)
    by (apply length_written; simpl; lia).
  destruct (Nat.eq_dec j 0%nat) as [-> | Hne].
  - destruct (7 <? nb - 8) eqn:E; [apply Z.ltb_lt in E; lia |].
    rewrite decide_True by lia.
    simpl. rewrite Nat.add_1_r. reflexivity.
  - destruct (7 <? nb - 8) eqn:E; [| apply Z.ltb_ge in E; lia].
    rewrite IH by lia. rewrite Hl.
    destruct (decide (S n + j <= length dst)%nat) as [H2 | H2];
      [rewrite decide_True by lia | rewrite decide_False by lia; reflexivity].
    replace (S n) with (n + length [(q mod 256)%Z])%nat by (simpl; lia).
    rewrite written_app by (rewrite length_le_split; simpl; lia).
    cbn [le_split app length].
    rewrite Z.div_div by (try apply Z.pow_nonzero; try apply pow2_pos; lia).
    replace (256 * 2 ^ (8 * Z.of_nat j)) with (2 ^ (8 * Z.of_nat (S j))).
    + replace (n + 1 + j)%nat with (n + S j)%nat by lia.
      replace (nb - 8 - 8 * Z.of_nat j) with (nb - 8 * Z.of_nat (S j)) by lia.
      reflexivity.
    + replace (8 * Z.of_nat (S j)) with (8 + 8 * Z.of_nat j) by lia.
      rewrite pow2_split by lia. reflexivity.
Qed.

Lemma dec_inv_init : dec_inv 0 0 (-1).
Proof. unfold dec_inv. simpl. lia. Qed.

(** A pair of digits fits in the bits its width announces. *)
Lemma pair_fits v d :
  0 <= v <= 90 -> 0 <= d <= 90 ->
  0 <= v + d * 91 < 2 ^ width (v + d * 91).
Proof.
  intros Hv Hd. set (x := v + d * 91). assert (Hx : 0 <= x <= 8280) by (unfold x; lia).
  unfold width. destruct (88 <? x mod 8192) eqn:E.
  - apply Z.ltb_lt in E. change (2 ^ 13) with 8192.
    destruct (Z_lt_le_dec x 8192) as [Hlt | Hge]; [lia |].
    replace x with ((x - 8192) + 1 * 8192) in E by lia.
    rewrite Z.mod_add, Z.mod_small in E by lia. lia.
  - change (2 ^ 14) with 16384. lia.
Qed.

(** The queue after a pair of digits is merged, and what the drain leaves. *)
Lemma dec_pair_step q nb v d :
  dec_inv q nb v -> 0 <= v <= 90 -> 0 <= d <= 90 ->
  let x := v + d * 91 in
  let q1 := q + x * 2 ^ nb in
  let nb1 := nb + width x in
  let j := nb1 / 8 in
  0 <= q1 < 2 ^ nb1 /\ 13 <= nb1 <= 21 /\ 1 <= j <= 2 /\
  8 * j <= nb1 < 8 * j + 8 /\
  dec_inv (q1 / 2 ^ (8 * j)) (nb1 - 8 * j) (-1).
Proof.
  intros (Hnb & Hq & _) Hv Hd x q1 nb1 j.
  pose proof (pair_fits v d Hv Hd) as Hx. fold x in Hx.
  pose proof (width_cases x) as Hw.
  assert (H1 : 0 <= q1 < 2 ^ nb1).
  { unfold q1, nb1. rewrite pow2_split by lia.
    pose proof (pow2_pos nb ltac:(lia)). nia. }
  assert (Hnb1 : 13 <= nb1 <= 21) by (unfold nb1; lia).
  assert (Hj : 8 * j <= nb1 < 8 * j + 8).
  { unfold j. pose proof (Z.div_mod nb1 8 ltac:(lia)).
    pose proof (Z.mod_pos_bound nb1 8 ltac:(lia)). lia. }
  assert (Hj2 : 1 <= j <= 2) by lia.
  repeat split; try lia.
  - apply Z.div_pos; [lia | apply pow2_pos; lia].
  - apply div_pow2_bound; lia.
Qed.

Lemma digits_of_table enc src :
  table_ok enc -> Forall digit_or_invalid (map (digit enc) src).
Proof.
  intros Ht. induction src as [| c src IH]; simpl; constructor; [| exact IH].
  apply (decodeMap_range _ Ht).
Qed.

(** [Decode] writes at most one byte per symbol read. *)
Lemma dec_out_length ds :
  Forall digit_or_invalid ds ->
  forall i q nb v, dec_inv q nb v ->
  (length (dec_out ds i q nb v).1 <= length ds + pending v)%nat.
Proof.
  induction ds as [| d ds IH]; intros Hds i q nb v Hinv.
  - simpl. unfold pending. destruct (v =? -1); simpl; lia.
  - inversion Hds as [| ? ? Hd Hds']; subst. cbn [dec_out].
    destruct (d =? 255) eqn:E255; [simpl; lia |].
    apply Z.eqb_neq in E255.
    assert (Hd' : 0 <= d <= 90) by (destruct Hd; [assumption | contradiction]).
    unfold pending at 1. destruct (v =? -1) eqn:Ev.
    + specialize (IH Hds' (S i) q nb d).
      assert (Hp : pending d = 1%nat).
      { unfold pending. destruct (d =? -1) eqn:E; [apply Z.eqb_eq in E; lia | reflexivity]. }
      rewrite Hp in IH. simpl. rewrite Nat.add_0_r.
      etransitivity; [apply IH | lia].
      destruct Hinv as (? & ? & ?). repeat split; try lia.
    + apply Z.eqb_neq in Ev.
      assert (Hv : 0 <= v <= 90) by (destruct Hinv as (_ & _ & [? | ?]); [contradiction | assumption]).
      destruct (dec_pair_step q nb v d Hinv Hv Hd') as (_ & _ & Hj & _ & Hinv').
      cbn zeta. cbn [fst]. rewrite length_app, length_le_split.
      specialize (IH Hds' (S i) _ _ _ Hinv'). unfold pending in IH. simpl in IH.
      simpl. lia.
Qed.

(** [Decode_loop] returns when, and only when, [dst] has room for the
    bytes; it stores them from index [n] on. *)
Lemma Decode_loop_run enc src :
  table_ok enc -> Forall is_byte src ->
  forall i dst n q nb v,
  dec_inv q nb v -> (n <= length dst)%nat ->
  let r := dec_out (map (digit enc) src) i q nb v in
  Decode_loop enc src i dst n q nb v =
  if decide (n + length r.1 <= length dst)%nat then
    Ok (written dst n r.1, (n + length r.1)%nat, r.2)
  else Panic index_out_of_range.
Proof.
  intros Ht. induction src as [| c src IH]; intros Hsrc i dst n q nb v Hinv Hn.
  - cbn [map dec_out Decode_loop].
    destruct (v =? -1) eqn:Ev; cbn [negb fst snd length].
    + rewrite decide_True by lia. rewrite written_nil, Nat.add_0_r. reflexivity.
    + apply Z.eqb_neq in Ev. destruct Hinv as (Hnb & Hq & Hv).
      assert (Hv' : 0 <= v <= 90) by lia.
      assert (Hp : 2 ^ nb <= 2 ^ 7) by (apply pow2_le_mono; lia).
      change (2 ^ 7) with 128 in Hp.
      rewrite (wrap_small v) by lia.
      rewrite lor_wrap_shiftl by no_wrap.
      rewrite store_run.
      destruct (decide (n < length dst)%nat) as [Hroom | Hroom];
        [rewrite decide_True by lia | rewrite decide_False by lia; reflexivity].
      cbn [bind]. unfold to_byte. rewrite Nat.add_1_r. reflexivity.
  - apply Forall_is_byte_cons in Hsrc as [Hc Hsrc].
    cbn [map dec_out Decode_loop]. rewrite index_digit by assumption. cbn [bind].
    set (d := digit enc c).
    destruct (d =? 255) eqn:E255.
    { cbn [fst snd length]. rewrite decide_True by lia.
      rewrite written_nil, Nat.add_0_r. reflexivity. }
    apply Z.eqb_neq in E255.
    assert (Hd : 0 <= d <= 90).
    { destruct (decodeMap_range _ Ht c) as [H | H]; [exact H | contradiction]. }
    destruct (v =? -1) eqn:Ev.
    + apply IH; [assumption | | assumption].
      destruct Hinv as (? & ? & ?). repeat split; try lia.
    + apply Z.eqb_neq in Ev.
      assert (Hv : 0 <= v <= 90) by (destruct Hinv as (_ & _ & [? | ?]); [contradiction | assumption]).
      destruct (dec_pair_step q nb v d Hinv Hv Hd) as (Hq1 & Hnb1 & Hj & Hj8 & Hinv').
      destruct Hinv as (Hnb & Hq & _).
      rewrite (wrap_int_small (d * 91)) by lia.
      rewrite (wrap_int_small (v + d * 91)) by lia.
      set (x := v + d * 91) in *.
      assert (Hx : 0 <= x <= 8280) by (unfold x; lia).
      assert (Hp : 2 ^ nb <= 2 ^ 7) by (apply pow2_le_mono; lia).
      change (2 ^ 7) with 128 in Hp.
      rewrite (wrap_small x) by lia.
      rewrite lor_wrap_shiftl by no_wrap.
      rewrite land_8191 by lia.
      set (q1 := q + x * 2 ^ nb) in *. set (nb1 := nb + width x) in *.
      set (j := nb1 / 8) in *.
      assert (Hnum : (if 88 <? x mod 2 ^ 13 then wrap (nb + 13) else wrap (nb + 14)) = nb1).
      { unfold nb1, width. change 8192 with (2 ^ 13).
        destruct (88 <? x mod 2 ^ 13); apply wrap_small; lia. }
      rewrite Hnum.
      rewrite (Decode_drain_run (Z.to_nat j)) by lia.
      cbn zeta. cbn [fst snd].
      set (r := dec_out (map (digit enc) src) (S i) (q1 / 2 ^ (8 * j)) (nb1 - 8 * j) (-1)).
      rewrite length_app, length_le_split.
      destruct (decide (n + Z.to_nat j <= length dst)%nat) as [Hroom | Hroom];
        [| cbn [bind]; rewrite decide_False by lia; reflexivity].
      cbn [bind]. rewrite Z2Nat.id by lia.
      assert (Hl : length (written dst n (le_split (Z.to_nat j) q1)) = length dst).
      { apply length_written. rewrite length_le_split. lia. }
      rewrite IH; [| assumption | assumption | rewrite Hl; lia].
      cbn zeta. fold r. rewrite Hl.
      destruct (decide (n + Z.to_nat j + length r.1 <= length dst)%nat) as [H2 | H2];
        [rewrite decide_True by lia | rewrite decide_False by lia; reflexivity].
      rewrite <- (length_le_split (Z.to_nat j) q1) at 2 3.
      rewrite written_app by (rewrite length_le_split; lia).
      rewrite length_le_split, Nat.add_assoc. reflexivity.
Qed.

(** [Decode] returns when, and only when, [dst] has room for the bytes. *)
Lemma Decode_run enc dst src :
  table_ok enc -> Forall is_byte src ->
  let r := dec_out (map (digit enc) src) 0 0 0 (-1) in
  Decode enc dst src =
  if decide (length r.1 <= length dst)%nat then
    Ok (written dst 0 r.1, length r.1, r.2)
  else Panic index_out_of_range.
Proof.
  intros Ht Hsrc. unfold Decode.
  apply (Decode_loop_run enc src Ht Hsrc 0 dst 0 0 0 (-1) dec_inv_init). lia.
Qed.

(** ** The table built by [NewEncoding] *)

Lemma copy_full dst src : length src = length dst -> copy dst src = src.
Proof.
  intros H. unfold copy. rewrite <- H, firstn_all, H, drop_all. apply app_nil_r.
Qed.

Lemma NewEncoding_Ok encoder enc :
  NewEncoding encoder = Ok enc ->
  length encoder = 91%nat /\ existsb is_newline encoder = false /\
  encode enc = encoder /\
  decodeMap enc = fill_decodeMap encoder 0 (replicate 256 255).
Proof.
  unfold NewEncoding. intros H.
  destruct (length encoder =? 91)%nat eqn:El; [| discriminate].
  apply Nat.eqb_eq in El.
  destruct (existsb is_newline encoder) eqn:En; [discriminate |].
  inversion H; subst; clear H. cbn [encode decodeMap].
  rewrite copy_full by (rewrite El; reflexivity). auto.
Qed.

Lemma length_fill_decodeMap encoder :
  forall i m, length (fill_decodeMap encoder i m) = length m.
Proof.
  induction encoder as [| c rest IH]; intros i m; simpl; [reflexivity |].
  rewrite IH. apply length_insert.
Qed.

(** The entries of [decodeMap] are digits, or the marker of the initial value. *)
Lemma fill_decodeMap_range encoder :
  forall i m,
  (i + length encoder <= 91)%nat ->
  Forall digit_or_invalid m -> Forall digit_or_invalid (fill_decodeMap encoder i m).
Proof.
  induction encoder as [| c rest IH]; intros i m Hi Hm; simpl in *; [exact Hm |].
  apply IH; [lia |]. apply Forall_insert; [exact Hm |].
  left. unfold to_byte. rewrite Z.mod_small; lia.
Qed.

(** An entry whose index is not a symbol is left as it was. *)
Lemma fill_decodeMap_other encoder (x : nat) :
  forall i m,
  Forall (fun c => Z.to_nat c <> x) encoder ->
  fill_decodeMap encoder i m !! x = m !! x.
Proof.
  induction encoder as [| c rest IH]; intros i m Hx; simpl; [reflexivity |].
  inversion Hx as [| ? ? Hc Hrest]; subst.
  rewrite IH by exact Hrest. apply list_lookup_insert_ne. exact Hc.
Qed.

(** The entry of the symbol at position [k] of a duplicate-free alphabet is [k]. *)
Lemma fill_decodeMap_symbol encoder :
  NoDup encoder -> Forall is_byte encoder ->
  forall i m k c,
  length m = 256%nat -> encoder !! k = Some c ->
  fill_decodeMap encoder i m !! Z.to_nat c = Some (to_byte (Z.of_nat (i + k))).
Proof.
  induction encoder as [| c0 rest IH]; intros Hnd Hb i m k c Hm Hk; [discriminate |].
  apply NoDup_cons in Hnd as [Hnotin Hnd].
  apply Forall_is_byte_cons in Hb as [Hc0 Hb].
  destruct k as [| k]; simpl in *.
  - inversion Hk; subst c0; clear Hk.
    rewrite fill_decodeMap_other.
    + rewrite list_lookup_insert_eq by (unfold is_byte in Hc0; lia).
      rewrite Nat.add_0_r. reflexivity.
    + apply Forall_forall. intros c' Hin Heq.
      assert (Hc' : is_byte c') by (eapply Forall_forall in Hb; eauto).
      unfold is_byte in *. assert (c' = c) by lia. subst c'.
      apply Hnotin. exact Hin.
  - rewrite (IH Hnd Hb (S i) _ k c); [| rewrite length_insert; exact Hm | exact Hk].
    do 3 f_equal. lia.
Qed.

Lemma NewEncoding_table_ok encoder enc :
  NewEncoding encoder = Ok enc -> table_ok enc.
Proof.
  intros H. apply NewEncoding_Ok in H as (Hlen & _ & He & Hd).
  constructor.
  - rewrite He. exact Hlen.
  - rewrite Hd, length_fill_decodeMap. apply length_replicate.
  - intros c. unfold digit. rewrite Hd.
    destruct (fill_decodeMap encoder 0 (replicate 256 255) !! Z.to_nat c) as [d |] eqn:E;
      simpl; [| right; reflexivity].
    assert (Hall : Forall digit_or_invalid (fill_decodeMap encoder 0 (replicate 256 255))).
    { apply fill_decodeMap_range; [lia |].
      apply Forall_replicate. right. reflexivity. }
    eapply Forall_lookup_1 in Hall; eauto.
Qed.

Lemma NewEncoding_table_inverse encoder enc :
  NewEncoding encoder = Ok enc -> NoDup encoder -> Forall is_byte encoder ->
  table_inverse enc.
Proof.
  intros H Hnd Hb d Hd. apply NewEncoding_Ok in H as (Hlen & _ & He & Hdm).
  unfold sym, digit. rewrite He, Hdm.
  destruct (encoder !! Z.to_nat d) as [c |] eqn:E.
  - cbn [from_option id]. split; [eapply Forall_lookup_1 in Hb; eauto |].
    rewrite (fill_decodeMap_symbol encoder Hnd Hb 0 _ (Z.to_nat d) c);
      [| apply length_replicate | exact E].
    cbn [from_option id Nat.add]. unfold to_byte. rewrite Z2Nat.id by lia. apply Z.mod_small. lia.
  - apply lookup_ge_None in E. lia.
Qed.

(** ** Little-endian bytes *)

Lemma le_combine_app l1 l2 :
  le_combine (l1 ++ l2) = le_combine l1 + 2 ^ (8 * Z.of_nat (length l1)) * le_combine l2.
Proof.
  induction l1 as [| b l1 IH]; [simpl; lia |].
  cbn [app le_combine length]. rewrite IH.
  replace (8 * Z.of_nat (S (length l1))) with (8 + 8 * Z.of_nat (length l1)) by lia.
  rewrite pow2_split by lia. change (2 ^ 8) with 256. ring.
Qed.

(** The first [j] bytes of a list are the [j] low bytes of any integer
    that agrees with the value of the list on its [8 j] low bits; the other
    bytes are the value of what is above. *)
Lemma le_split_prefix j :
  forall l x y,
  Forall is_byte l -> (j <= length l)%nat ->
  x + y * 2 ^ (8 * Z.of_nat j) = le_combine l ->
  le_split j x = take j l /\ le_combine (drop j l) = x / 2 ^ (8 * Z.of_nat j) + y.
Proof.
  induction j as [| j IH]; intros l x y Hl Hj Hx.
  - change (2 ^ (8 * Z.of_nat 0)) with 1 in *. rewrite Z.div_1_r.
    rewrite drop_0. split; [reflexivity | lia].
  - destruct l as [| b l]; [simpl in Hj; lia |].
    apply Forall_is_byte_cons in Hl as [Hb Hl]. cbn [length] in Hj.
    replace (8 * Z.of_nat (S j)) with (8 + 8 * Z.of_nat j) in * by lia.
    rewrite pow2_split in * by lia. change (2 ^ 8) with 256 in *.
    cbn [le_combine] in Hx. cbn [le_split take drop].
    set (p := 2 ^ (8 * Z.of_nat j)) in *.
    assert (Hp : 0 < p) by (apply pow2_pos; lia).
    assert (Hx' : x = b + (le_combine l - y * p) * 256) by lia.
    assert (Hmod : x mod 256 = b).
    { rewrite Hx', Z.mod_add by lia. apply Z.mod_small. exact Hb. }
    assert (Hdiv : x / 256 = le_combine l - y * p).
    { rewrite Hx', Z.div_add by lia. rewrite Z.div_small by exact Hb. lia. }
    destruct (IH l (x / 256) y Hl ltac:(lia) ltac:(fold p; lia)) as [H1 H2].
    rewrite Hmod, H1, H2. split; [reflexivity |].
    fold p. rewrite Z.div_div by lia. reflexivity.
Qed.

Lemma le_split_combine l :
  Forall is_byte l -> le_split (length l) (le_combine l) = l.
Proof.
  intros Hl.
  destruct (le_split_prefix (length l) l (le_combine l) 0 Hl ltac:(lia) ltac:(lia)) as [H _].
  rewrite H. apply firstn_all.
Qed.

(** ** The round trip on digits *)

Lemma enc_digits_nil q nb : enc_digits [] q nb = flush_digits q nb.
Proof. reflexivity. Qed.

Lemma enc_digits_keep b src q nb :
  nb + 8 <= 13 ->
  enc_digits (b :: src) q nb = enc_digits src (q + b * 2 ^ nb) (nb + 8).
Proof.
  intros H. unfold enc_digits. simpl.
  destruct (13 <? nb + 8) eqn:E; [apply Z.ltb_lt in E; lia | reflexivity].
Qed.

Lemma enc_digits_emit b src q nb :
  13 < nb + 8 ->
  let q1 := q + b * 2 ^ nb in
  let k := width q1 in
  let v := q1 mod 2 ^ k in
  enc_digits (b :: src) q nb =
  v mod 91 :: v / 91 :: enc_digits src (q1 / 2 ^ k) (nb + 8 - k).
Proof.
  intros H. unfold enc_digits. simpl.
  destruct (13 <? nb + 8) eqn:E; [reflexivity | apply Z.ltb_ge in E; lia].
Qed.

Lemma div8_unique x j : 8 * j <= x < 8 * j + 8 -> x / 8 = j.
Proof. intros H. symmetry. apply (Z.div_unique x 8 j (x - 8 * j)); lia. Qed.

Lemma coupled_init : coupled 0 0 0 0 [].
Proof.
  constructor; [apply enc_inv_init | apply dec_inv_init | constructor | reflexivity | reflexivity].
Qed.

(** The flush of the encoder makes the decoder write the pending bytes. *)
Lemma roundtrip_flush i q nb dq dnb pend :
  coupled q nb dq dnb pend ->
  dec_out (flush_digits q nb) i dq dnb (-1) = (pend, None).
Proof.
  intros [[Hnb Hq] (Hdnb & Hdq & _) Hb Hbits Hval].
  pose proof (flush_digits_range q nb (conj Hnb Hq)) as Hr.
  unfold flush_digits in *. destruct (0 <? nb) eqn:E0.
  - apply Z.ltb_lt in E0. apply Forall_cons in Hr as [H0 Hr].
    destruct ((7 <? nb) || (90 <? q)) eqn:E1.
    + apply Forall_cons in Hr as [H1 _].
      cbn [dec_out].
      replace (q mod 91 =? 255) with false by (symmetry; apply Z.eqb_neq; lia).
      replace (q / 91 =? 255) with false by (symmetry; apply Z.eqb_neq; lia).
      replace (q mod 91 =? -1) with false by (symmetry; apply Z.eqb_neq; lia).
      cbn [Z.eqb fst snd]. rewrite app_nil_r.
      replace (q mod 91 + q / 91 * 91) with q by (pose proof (Z.div_mod q 91); lia).
      rewrite <- Hval.
      assert (Hj : (dnb + width q) / 8 = Z.of_nat (length pend)).
      { apply div8_unique.
        assert (Hnb7 : 7 <= nb).
        { apply orb_true_iff in E1 as [E1 | E1]; apply Z.ltb_lt in E1; [lia |].
          destruct (Z_lt_le_dec nb 7) as [Hlt | ?]; [| lia].
          assert (2 ^ nb <= 2 ^ 6) by (apply pow2_le_mono; lia).
          change (2 ^ 6) with 64 in *. lia. }
        pose proof (width_cases q). lia. }
      rewrite Hj, Nat2Z.id, le_split_combine by exact Hb. reflexivity.
    + apply orb_false_iff in E1 as [E7 E90].
      apply Z.ltb_ge in E7. apply Z.ltb_ge in E90.
      rewrite Z.mod_small by lia. cbn [dec_out].
      replace (q =? 255) with false by (symmetry; apply Z.eqb_neq; lia).
      replace (q =? -1) with false by (symmetry; apply Z.eqb_neq; lia).
      cbn [Z.eqb]. rewrite <- Hval.
      destruct pend as [| x [| y pend]]; cbn [length] in Hbits; try lia.
      apply Forall_is_byte_cons in Hb as [Hx _].
      cbn [le_combine]. rewrite Z.mul_0_r, Z.add_0_r, Z.mod_small by exact Hx.
      reflexivity.
  - apply Z.ltb_ge in E0. cbn [dec_out Z.eqb].
    destruct pend as [| x pend]; [reflexivity | cbn [length] in Hbits; lia].
Qed.

(** A byte that stays in the queue of the encoder joins the pending bytes. *)
Lemma coupled_keep q nb dq dnb pend b :
  is_byte b -> nb + 8 <= 13 -> coupled q nb dq dnb pend ->
  coupled (q + b * 2 ^ nb) (nb + 8) dq dnb (pend ++ [b]).
Proof.
  intros Hb Hle [Henc Hdec Hbytes Hbits Hval]. constructor.
  - apply enc_inv_keep; assumption.
  - exact Hdec.
  - apply Forall_app. split; [exact Hbytes | constructor; [exact Hb | constructor]].
  - rewrite length_app. simpl. lia.
  - rewrite le_combine_app, Hval, Hbits. cbn [le_combine].
    destruct Henc as [Hnb _]. destruct Hdec as (Hdnb & _).
    rewrite pow2_split by lia. ring.
Qed.

(** A digit pair moves its bytes from the pending bytes to the output. *)
Lemma coupled_emit q nb dq dnb pend b :
  is_byte b -> 13 < nb + 8 -> coupled q nb dq dnb pend ->
  let q1 := q + b * 2 ^ nb in
  let k := width q1 in
  let v := q1 mod 2 ^ k in
  let dq1 := dq + v * 2 ^ dnb in
  let j := (dnb + k) / 8 in
  le_split (Z.to_nat j) dq1 = take (Z.to_nat j) (pend ++ [b]) /\
  coupled (q1 / 2 ^ k) (nb + 8 - k) (dq1 / 2 ^ (8 * j)) (dnb + k - 8 * j)
          (drop (Z.to_nat j) (pend ++ [b])).
Proof.
  intros Hb Hgt Hc q1 k v dq1 j.
  destruct Hc as [Henc Hdec Hbytes Hbits Hval].
  destruct (enc_inv_emit q nb b Hb Henc Hgt) as [Henc' Hnb'].
  fold q1 k in Henc', Hnb'.
  destruct Henc as [Hnb Hq]. pose proof Hdec as (Hdnb & Hdq & _).
  assert (Hq1 : 0 <= q1) by (unfold q1, is_byte in *; pose proof (pow2_pos nb); nia).
  destruct (pair_value q1 Hq1) as (Hv & Hlo & Hhi & Hsum & Hw). fold k v in Hv, Hlo, Hhi, Hsum, Hw.
  assert (Hk : k = 13 \/ k = 14) by apply width_cases.
  assert (Hstep := dec_pair_step dq dnb (v mod 91) (v / 91)
                      (conj Hdnb (conj Hdq (or_intror Hlo))) Hlo Hhi).
  cbv zeta in Hstep. rewrite Hsum, Hw in Hstep. fold dq1 j in Hstep.
  destruct Hstep as (Hdq1 & Hnb1 & Hj & Hj8 & Hdec').
  assert (HL : Forall is_byte (pend ++ [b])).
  { apply Forall_app. split; [exact Hbytes | constructor; [exact Hb | constructor]]. }
  assert (Hlen : length (pend ++ [b]) = S (length pend)) by (rewrite length_app; simpl; lia).
  assert (HjL : (Z.to_nat j <= length (pend ++ [b]))%nat) by lia.
  assert (Hsplit : dq1 + (q1 / 2 ^ k * 2 ^ (dnb + k - 8 * j)) * 2 ^ (8 * Z.of_nat (Z.to_nat j))
                   = le_combine (pend ++ [b])).
  { rewrite Z2Nat.id by lia. rewrite le_combine_app, Hval, Hbits. cbn [le_combine].
    rewrite <- Z.mul_assoc, <- pow2_split by lia.
    replace (dnb + k - 8 * j + 8 * j) with (k + dnb) by lia.
    rewrite !pow2_split by lia.
    unfold dq1. pose proof (Z.div_mod q1 (2 ^ k) ltac:(pose proof (pow2_pos k); lia)) as Hdm.
    fold v in Hdm. unfold q1 in Hdm at 1.
    set (pk := 2 ^ k) in *. set (pd := 2 ^ dnb). set (pn := 2 ^ nb) in *.
    set (qq := q1 / pk) in *.
    replace (b + 256 * 0) with b by lia.
    transitivity (dq + (pk * qq + v) * pd); [ring |]. rewrite <- Hdm. ring. }
  destruct (le_split_prefix (Z.to_nat j) (pend ++ [b]) dq1 _ HL HjL Hsplit) as [H1 H2].
  split; [exact H1 |]. constructor.
  - exact Henc'.
  - exact Hdec'.
  - apply Forall_drop. exact HL.
  - rewrite length_drop, Hlen. lia.
  - rewrite H2, Z2Nat.id by lia. reflexivity.
Qed.

(** Decoding the digits of [src] writes the pending bytes, then [src]. *)
Lemma roundtrip_digits src :
  Forall is_byte src ->
  forall i q nb dq dnb pend,
  coupled q nb dq dnb pend ->
  dec_out (enc_digits src q nb) i dq dnb (-1) = (pend ++ src, None).
Proof.
  induction src as [| b src IH]; intros Hsrc i q nb dq dnb pend Hc.
  - rewrite enc_digits_nil, app_nil_r. apply roundtrip_flush. exact Hc.
  - apply Forall_is_byte_cons in Hsrc as [Hb Hsrc].
    destruct (Z_lt_le_dec 13 (nb + 8)) as [Hgt | Hle].
    + rewrite enc_digits_emit by exact Hgt.
      destruct (coupled_emit q nb dq dnb pend b Hb Hgt Hc) as [Hout Hc'].
      set (q1 := q + b * 2 ^ nb) in *. set (k := width q1) in *.
      set (v := q1 mod 2 ^ k) in *.
      assert (Hq1 : 0 <= q1).
      { destruct Hc as [[Hnb Hq] _ _ _ _]. unfold q1, is_byte in *.
        pose proof (pow2_pos nb). nia. }
      destruct (pair_value q1 Hq1) as (_ & Hlo & Hhi & Hsum & Hw).
      fold k v in Hlo, Hhi, Hsum, Hw.
      cbn [dec_out].
      replace (v mod 91 =? 255) with false by (symmetry; apply Z.eqb_neq; lia).
      replace (v / 91 =? 255) with false by (symmetry; apply Z.eqb_neq; lia).
      replace (v mod 91 =? -1) with false by (symmetry; apply Z.eqb_neq; lia).
      cbn [Z.eqb]. rewrite Hsum, Hw.
      rewrite (IH Hsrc (S (S i)) _ _ _ _ _ Hc'). cbn [fst snd].
      rewrite Hout, app_assoc, take_drop, <- app_assoc. reflexivity.
    + rewrite enc_digits_keep by exact Hle.
      rewrite (IH Hsrc i _ _ _ _ _ (coupled_keep q nb dq dnb pend b Hb Hle Hc)).
      rewrite <- app_assoc. reflexivity.
Qed.

(** ** How many digits the encoder emits *)

Lemma enc_loop_digits_range src :
  Forall is_byte src -> forall q nb, enc_inv q nb ->
  Forall (fun d => 0 <= d <= 90) (enc_loop_digits src q nb).
Proof.
  induction src as [| b src IH]; intros Hsrc q nb Hinv; [constructor |].
  apply Forall_is_byte_cons in Hsrc as [Hb Hsrc]. simpl.
  destruct (13 <? nb + 8) eqn:E.
  - apply Z.ltb_lt in E.
    assert (Hq1 : 0 <= q + b * 2 ^ nb).
    { destruct Hinv as [Hnb Hq]. unfold is_byte in *. pose proof (pow2_pos nb). nia. }
    destruct (pair_value _ Hq1) as (_ & Hlo & Hhi & _).
    constructor; [exact Hlo |]. constructor; [exact Hhi |].
    apply IH; [assumption |]. apply (enc_inv_emit q nb b); assumption.
  - apply Z.ltb_ge in E. apply IH; [assumption |]. apply enc_inv_keep; assumption.
Qed.

Lemma enc_digits_range src :
  Forall is_byte src -> Forall (fun d => 0 <= d <= 90) (enc_digits src 0 0).
Proof.
  intros Hsrc. unfold enc_digits. apply Forall_app. split.
  - apply enc_loop_digits_range; [assumption | apply enc_inv_init].
  - apply flush_digits_range. apply enc_final_inv; [assumption | apply enc_inv_init].
Qed.

(** Every pair of digits of the loop takes at least 13 bits out of the queue. *)
Lemma enc_loop_digits_count src :
  Forall is_byte src -> forall q nb, enc_inv q nb ->
  13 * Z.of_nat (length (enc_loop_digits src q nb)) + 2 * (enc_final src q nb).2
  <= 2 * (8 * Z.of_nat (length src) + nb).
Proof.
  induction src as [| b src IH]; intros Hsrc q nb Hinv; [simpl; lia |].
  apply Forall_is_byte_cons in Hsrc as [Hb Hsrc]. cbn [enc_loop_digits enc_final length].
  destruct (13 <? nb + 8) eqn:E.
  - apply Z.ltb_lt in E. cbn [length].
    destruct (enc_inv_emit q nb b Hb Hinv E) as [Hinv' _].
    specialize (IH Hsrc _ _ Hinv').
    pose proof (width_cases (q + b * 2 ^ nb)). lia.
  - apply Z.ltb_ge in E.
    specialize (IH Hsrc _ _ (enc_inv_keep q nb b Hb Hinv E)). lia.
Qed.

Lemma flush_digits_count q nb :
  enc_inv q nb -> 13 * Z.of_nat (length (flush_digits q nb)) <= 2 * nb + 12.
Proof.
  intros [Hnb Hq]. unfold flush_digits.
  destruct (0 <? nb) eqn:E0; [apply Z.ltb_lt in E0 | simpl; lia].
  destruct ((7 <? nb) || (90 <? q)) eqn:E1; [| simpl; lia].
  apply orb_true_iff in E1 as [E1 | E1]; apply Z.ltb_lt in E1; [simpl; lia |].
  destruct (Z_lt_le_dec nb 7) as [Hlt | ?]; [| simpl; lia].
  assert (2 ^ nb <= 2 ^ 6) by (apply pow2_le_mono; lia).
  change (2 ^ 6) with 64 in *. lia.
Qed.

Lemma enc_digits_count src :
  Forall is_byte src ->
  Z.of_nat (length (enc_digits src 0 0)) <= ceil_div (16 * Z.of_nat (length src)) 13.
Proof.
  intros Hsrc. unfold enc_digits, ceil_div. rewrite length_app.
  pose proof (enc_loop_digits_count src Hsrc 0 0 enc_inv_init) as H1.
  pose proof (flush_digits_count _ _ (enc_final_inv src Hsrc 0 0 enc_inv_init)) as H2.
  apply Z.div_le_lower_bound; lia.
Qed.

(** The encoder never emits exactly one digit. *)
Lemma enc_digits_not_one src :
  Forall is_byte src -> length (enc_digits src 0 0) <> 1%nat.
Proof.
  intros Hsrc. destruct src as [| b src].
  - simpl. lia.
  - apply Forall_is_byte_cons in Hsrc as [Hb Hsrc].
    rewrite enc_digits_keep by lia. destruct src as [| b' src].
    + rewrite enc_digits_nil. simpl. lia.
    + rewrite enc_digits_emit by lia. simpl. lia.
Qed.

(** ** Symbols and digits *)

Lemma syms_of_digits enc ds :
  table_inverse enc -> Forall (fun d => 0 <= d <= 90) ds ->
  Forall is_byte (map (sym enc) ds) /\ map (digit enc) (map (sym enc) ds) = ds.
Proof.
  intros Hinv Hds. induction Hds as [| d ds Hd Hds [IH1 IH2]]; simpl.
  - split; [constructor | reflexivity].
  - destruct (Hinv d Hd) as [Hb Hdig]. split.
    + constructor; assumption.
    + rewrite Hdig, IH2. reflexivity.
Qed.

Lemma take_written_0 dst out :
  (length out <= length dst)%nat -> take (length out) (written dst 0 out) = out.
Proof.
  intros H. apply (take_written dst 0 out). simpl. exact H.
Qed.

Lemma written_0_one dst x :
  (1 <= length dst)%nat -> written dst 0 [x] = <[0%nat := x]> dst.
Proof.
  intros H. unfold written. simpl. destruct dst; [simpl in H; lia | reflexivity].
Qed.

(** The entry of a symbol of the alphabet, duplicate or not, is the index
    of one of its occurrences. *)
Lemma fill_decodeMap_in encoder :
  Forall is_byte encoder ->
  forall i m c,
  length m = 256%nat -> In c encoder ->
  exists k, (i <= k < i + length encoder)%nat /\
    fill_decodeMap encoder i m !! Z.to_nat c = Some (to_byte (Z.of_nat k)).
Proof.
  induction encoder as [| c0 rest IH]; intros Hb i m c Hm Hin; [destruct Hin |].
  apply Forall_is_byte_cons in Hb as [Hc0 Hb]. cbn [fill_decodeMap length].
  destruct (in_dec Z.eq_dec c rest) as [Hrest | Hrest].
  - destruct (IH Hb (S i) (<[Z.to_nat c0 := to_byte (Z.of_nat i)]> m) c
                ltac:(rewrite length_insert; exact Hm) Hrest) as (k & Hk & Hlook).
    exists k. split; [lia | exact Hlook].
  - destruct Hin as [-> | Hin]; [| contradiction].
    exists i. split; [lia |].
    rewrite fill_decodeMap_other.
    + apply list_lookup_insert_eq. unfold is_byte in Hc0. lia.
    + apply Forall_forall. intros c' Hin Heq.
      assert (Hc' : is_byte c') by (eapply Forall_forall in Hb; eauto).
      unfold is_byte in *. assert (c' = c) by lia. subst c'.
      apply list_elem_of_In in Hin. contradiction.
Qed.

Lemma digit_in_alphabet encoder enc c :
  NewEncoding encoder = Ok enc -> Forall is_byte encoder -> In c encoder ->
  exists d, decodeMap enc !! Z.to_nat c = Some d /\ 0 <= d <= 90.
Proof.
  intros H Hb Hin. apply NewEncoding_Ok in H as (Hlen & _ & _ & Hdm).
  destruct (fill_decodeMap_in encoder Hb 0 (replicate 256 255) c
              (length_replicate _ _) Hin) as (k & Hk & Hlook).
  exists (to_byte (Z.of_nat k)). rewrite Hdm. split; [exact Hlook |].
  unfold to_byte. rewrite Z.mod_small; lia.
Qed.

Lemma digit_not_in_alphabet encoder enc c :
  NewEncoding encoder = Ok enc -> Forall is_byte encoder ->
  is_byte c -> ~ In c encoder ->
  decodeMap enc !! Z.to_nat c = Some 255.
Proof.
  intros H Hb Hc Hin. apply NewEncoding_Ok in H as (Hlen & _ & _ & Hdm).
  rewrite Hdm, fill_decodeMap_other.
  - apply lookup_replicate_2. unfold is_byte in Hc. lia.
  - apply Forall_forall. intros c' Hin' Heq.
    assert (Hc' : is_byte c') by (eapply Forall_forall in Hb; eauto).
    unfold is_byte in *. assert (c' = c) by lia. subst c'.
    apply list_elem_of_In in Hin'. contradiction.
Qed.

Lemma dec_out_single d i q nb :
  0 <= d <= 90 -> dec_out [d] i q nb (-1) = ([(q + d * 2 ^ nb) mod 256], None).
Proof.
  intros Hd. cbn [dec_out].
  rewrite (proj2 (Z.eqb_neq d 255)) by lia.
  change (-1 =? -1) with true. cbv iota.
  rewrite (proj2 (Z.eqb_neq d (-1))) by lia. reflexivity.
Qed.

(** ** The standard encoding *)

Lemma StdEncoding_std : StdEncoding = Ok std.
Proof. vm_compute. reflexivity. Qed.

Lemma encodeStd_bytes : Forall is_byte encodeStd.
Proof.
  apply Forall_forall. intros c Hin. apply list_elem_of_In in Hin.
  unfold is_byte. vm_compute in Hin.
  repeat (destruct Hin as [<- | Hin]; [lia |]). destruct Hin.
Qed.

Lemma encodeStd_NoDup : NoDup encodeStd.
Proof. apply (bool_decide_unpack _). vm_compute. reflexivity. Qed.

(** ** The round trip *)

(** C1. For every byte sequence [src], the empty one included, and every
    table built by [NewEncoding] from 91 distinct bytes (the standard
    alphabet is one): [Encode] into a buffer of at least
    [ceil (16 * len src / 13)] bytes returns, and [Decode] of the symbols
    it wrote, into a buffer of at least [DecodedLen] bytes, returns no
    error and exactly the bytes of [src]. *)
Theorem Decode_Encode_roundtrip encoder enc src dst :
  NewEncoding encoder = Ok enc -> NoDup encoder -> Forall is_byte encoder ->
  Forall is_byte src ->
  ceil_div (16 * Z.of_nat (length src)) 13 <= Z.of_nat (length dst) ->
  exists dst' n,
    Encode enc dst src = Ok (dst', n) /\
    forall ddst,
      DecodedLen (Z.of_nat n) <= Z.of_nat (length ddst) ->
      exists ddst',
        Decode enc ddst (take n dst') = Ok (ddst', length src, None) /\
        take (length src) ddst' = src.
Proof.
  intros Hnew Hnd Hb Hsrc Hroom.
  pose proof (NewEncoding_table_ok _ _ Hnew) as Ht.
  pose proof (NewEncoding_table_inverse _ _ Hnew Hnd Hb) as Hinv.
  pose proof (enc_digits_count src Hsrc) as Hcount.
  pose proof (enc_digits_range src Hsrc) as Hrange.
  destruct (syms_of_digits enc _ Hinv Hrange) as [Hsyms Hdigits].
  set (ds := enc_digits src 0 0) in *.
  exists (written dst 0 (map (sym enc) ds)), (length ds). split.
  - rewrite Encode_run by assumption. fold ds.
    rewrite decide_True by lia. reflexivity.
  - intros ddst Hd. unfold DecodedLen in Hd.
    assert (Htake : take (length ds) (written dst 0 (map (sym enc) ds))
                    = map (sym enc) ds).
    { rewrite <- (length_map (sym enc) ds).
      apply take_written_0. rewrite length_map. lia. }
    rewrite Htake.
    pose proof (roundtrip_digits src Hsrc 0 0 0 0 0 [] coupled_init) as Hrt.
    fold ds in Hrt. cbn [app] in Hrt.
    exists (written ddst 0 src).
    rewrite Decode_run by assumption. cbn zeta.
    rewrite Hdigits, Hrt. cbn [fst snd].
    assert (Hlen : (length src <= length ddst)%nat).
    { pose proof (dec_out_length ds (Forall_impl _ _ _ Hrange
                   (fun d H => or_introl H)) 0 0 0 (-1) dec_inv_init) as Hl.
      rewrite Hrt in Hl. unfold pending in Hl. simpl in Hl. lia. }
    rewrite decide_True by exact Hlen. split; [reflexivity |].
    apply take_written_0. exact Hlen.
Qed.

Lemma Decode_Encode_roundtrip_witness :
  exists dst' n,
    Encode std (replicate 4 0) [116; 101; 115] = Ok (dst', n) /\
    forall ddst,
      DecodedLen (Z.of_nat n) <= Z.of_nat (length ddst) ->
      exists ddst',
        Decode std ddst (take n dst') = Ok (ddst', 3%nat, None) /\
        take 3 ddst' = [116; 101; 115].
Proof.
  apply (Decode_Encode_roundtrip encodeStd std [116; 101; 115] (replicate 4 0)).
  - vm_compute. reflexivity.
  - exact encodeStd_NoDup.
  - exact encodeStd_bytes.
  - repeat constructor; unfold is_byte; lia.
  - vm_compute. discriminate.
Defined.

(** ** Length of the decoded output *)

(** C4. For every symbol sequence [src]: [Decode] into a buffer of at
    least [DecodedLen (len src)] bytes returns; whenever [Decode] returns,
    the count of bytes written is at most [DecodedLen (len src)]; and
    [DecodedLen n] is [n]. *)
Theorem Decode_length_bound encoder enc src :
  NewEncoding encoder = Ok enc -> Forall is_byte src ->
  (forall dst,
     DecodedLen (Z.of_nat (length src)) <= Z.of_nat (length dst) ->
     exists dst' n err, Decode enc dst src = Ok (dst', n, err)) /\
  (forall dst dst' n err,
     Decode enc dst src = Ok (dst', n, err) ->
     Z.of_nat n <= DecodedLen (Z.of_nat (length src))) /\
  (forall m, DecodedLen m = m).
Proof.
  intros Hnew Hsrc. pose proof (NewEncoding_table_ok _ _ Hnew) as Ht.
  pose proof (dec_out_length _ (digits_of_table enc src Ht) 0 0 0 (-1) dec_inv_init) as Hlen.
  rewrite length_map in Hlen. unfold pending in Hlen. simpl in Hlen.
  unfold DecodedLen. split; [| split].
  - intros dst Hroom. rewrite Decode_run by assumption. cbn zeta.
    rewrite decide_True by lia. eauto.
  - intros dst dst' n err. rewrite Decode_run by assumption. cbn zeta.
    destruct (decide _); [| discriminate].
    intros H. inversion H; subst. lia.
  - reflexivity.
Qed.

Lemma Decode_length_bound_witness :
  (forall dst,
     DecodedLen 5 <= Z.of_nat (length dst) ->
     exists dst' n err, Decode std dst [102; 80; 78; 75; 100] = Ok (dst', n, err)) /\
  (forall dst dst' n err,
     Decode std dst [102; 80; 78; 75; 100] = Ok (dst', n, err) ->
     Z.of_nat n <= DecodedLen 5) /\
  (forall m, DecodedLen m = m).
Proof.
  apply (Decode_length_bound encodeStd std [102; 80; 78; 75; 100]).
  - vm_compute. reflexivity.
  - repeat constructor; unfold is_byte; lia.
Defined.

(** ** A lone symbol *)

(** C10. For every symbol [s] of the alphabet, [Decode] of the one-symbol
    sequence [[s]] returns no error and one byte, the code [decodeMap[s]];
    yet [Encode] never returns the count 1, so no encoding is one symbol
    long. *)
Theorem Decode_single_symbol encoder enc s :
  NewEncoding encoder = Ok enc -> Forall is_byte encoder -> In s encoder ->
  exists d,
    decodeMap enc !! Z.to_nat s = Some d /\
    (forall dst, (1 <= length dst)%nat ->
       Decode enc dst [s] = Ok (<[0%nat := d]> dst, 1%nat, None)) /\
    (forall src dst dst' n,
       Forall is_byte src -> Encode enc dst src = Ok (dst', n) -> n <> 1%nat).
Proof.
  intros Hnew Hb Hin. pose proof (NewEncoding_table_ok _ _ Hnew) as Ht.
  destruct (digit_in_alphabet _ _ s Hnew Hb Hin) as (d & Hd & Hrange).
  assert (Hs : is_byte s).
  { apply list_elem_of_In in Hin. eapply Forall_forall in Hb; eauto. }
  exists d. split; [exact Hd |]. split.
  - intros dst Hroom.
    assert (Hss : Forall is_byte [s]) by (constructor; [exact Hs | constructor]).
    rewrite Decode_run by assumption.
    cbn zeta. cbn [map]. unfold digit. rewrite Hd. cbn [from_option id].
    rewrite dec_out_single by exact Hrange. cbn [fst snd length].
    rewrite decide_True by lia.
    change (2 ^ 0) with 1. rewrite Z.mul_1_r, Z.add_0_l, Z.mod_small by lia.
    rewrite written_0_one by exact Hroom. reflexivity.
  - intros src dst dst' n Hsrc. rewrite Encode_run by assumption.
    destruct (decide _); [| discriminate].
    intros H. inversion H; subst. apply enc_digits_not_one. exact Hsrc.
Qed.

Lemma Decode_single_symbol_witness :
  exists d,
    decodeMap std !! Z.to_nat 66 = Some d /\
    (forall dst, (1 <= length dst)%nat ->
       Decode std dst [66] = Ok (<[0%nat := d]> dst, 1%nat, None)) /\
    (forall src dst dst' n,
       Forall is_byte src -> Encode std dst src = Ok (dst', n) -> n <> 1%nat).
Proof.
  apply (Decode_single_symbol encodeStd std 66).
  - vm_compute. reflexivity.
  - exact encodeStd_bytes.
  - vm_compute. right. left. reflexivity.
Defined.

(** ** Corrupt input *)

Lemma list_pair_ind {A : Type} (P : list A -> Prop) :
  P [] -> (forall a, P [a]) -> (forall a b l, P l -> P (a :: b :: l)) ->
  forall l, P l.
Proof.
  intros Hnil Hone Hstep l.
  assert (H : P l /\ forall a, P (a :: l)); [| exact (proj1 H)].
  induction l as [| b l [IH1 IH2]]; split; auto.
Qed.

Lemma even_prefix_cons2 {A : Type} (a b : A) l :
  take (2 * (length (a :: b :: l) / 2)) (a :: b :: l) =
  a :: b :: take (2 * (length l / 2)) l.
Proof.
  cbn [length]. replace (S (S (length l))) with (1 * 2 + length l)%nat by lia.
  rewrite Nat.div_add_l by lia.
  replace (2 * (1 + length l / 2))%nat with (S (S (2 * (length l / 2)))) by lia.
  reflexivity.
Qed.

Lemma dec_out_pair d0 d1 ds i q nb :
  0 <= d0 <= 90 -> 0 <= d1 <= 90 ->
  dec_out (d0 :: d1 :: ds) i q nb (-1) =
  let x := d0 + d1 * 91 in
  let q1 := q + x * 2 ^ nb in
  let nb1 := nb + width x in
  let j := nb1 / 8 in
  let r := dec_out ds (S (S i)) (q1 / 2 ^ (8 * j)) (nb1 - 8 * j) (-1) in
  (le_split (Z.to_nat j) q1 ++ r.1, r.2).
Proof.
  intros H0 H1. cbn [dec_out].
  rewrite (proj2 (Z.eqb_neq d0 255)) by lia.
  change (-1 =? -1) with true. cbv iota.
  rewrite (proj2 (Z.eqb_neq d1 255)) by lia.
  rewrite (proj2 (Z.eqb_neq d0 (-1))) by lia. reflexivity.
Qed.

(** At an invalid digit after the valid digits [pre], the bytes written
    are those of the complete pairs of [pre]; a pending first digit of a
    pair is dropped. *)
Lemma dec_out_corrupt post pre :
  Forall (fun d => 0 <= d <= 90) pre ->
  forall i q nb,
  let stop := dec_out (pre ++ 255 :: post) i q nb (-1) in
  let pairs := dec_out (take (2 * (length pre / 2)) pre) i q nb (-1) in
  stop = (pairs.1, Some (CorruptInputError (Z.of_nat (i + length pre)))) /\
  pairs.2 = None.
Proof.
  induction pre as [| a | a b pre IH] using list_pair_ind; intros Hpre i q nb.
  - cbn. rewrite Nat.add_0_r. split; reflexivity.
  - apply Forall_cons in Hpre as [Ha _].
    change (take (2 * (length [a] / 2)) [a]) with (@nil Z).
    cbn [app dec_out length].
    rewrite (proj2 (Z.eqb_neq a 255)) by lia.
    change (-1 =? -1) with true. change (255 =? 255) with true. cbv iota zeta.
    cbn [fst snd]. rewrite Nat.add_1_r. split; reflexivity.
  - apply Forall_cons in Hpre as [Ha Hpre]. apply Forall_cons in Hpre as [Hb Hpre].
    rewrite even_prefix_cons2. cbn [app].
    rewrite !dec_out_pair by assumption. cbv zeta. cbn [fst snd].
    edestruct (IH Hpre (S (S i))) as [H1 H2].
    rewrite H1, H2. cbn [fst snd length]. split; [| reflexivity].
    do 4 f_equal. lia.
Qed.

(** C2, as stated, fails when [p] is odd: the symbol at [p - 1] is a
    pending first digit; [Decode] of the prefix [[0, p)] writes a byte for
    it, [Decode] of the whole input stops before writing it.  Here the
    input is "A" followed by a space, with [p = 1]. *)
Lemma Decode_corrupt_odd_counterexample :
  exists dst1 n1 dst2 n2,
    Decode std (replicate 2 0) [65; 32]
      = Ok (dst1, n1, Some (CorruptInputError 1)) /\
    Decode std (replicate 2 0) (take 1 [65; 32]) = Ok (dst2, n2, None) /\
    take n1 dst1 <> take n2 dst2.
Proof.
  do 4 eexists. split; [vm_compute; reflexivity |].
  split; [vm_compute; reflexivity |]. vm_compute. discriminate.
Qed.

(** C2, amended.  For every symbol sequence whose first symbol outside the
    alphabet is at position [p]: [Decode] returns [CorruptInputError p]
    and the bytes of the complete symbol pairs before [p], that is the
    buffer and the count that [Decode] returns on the symbols at positions
    [[0, 2 * (p / 2))]; nothing is written from that count on, whatever
    follows position [p]. *)
Theorem Decode_corrupt_input encoder enc pre c post dst :
  NewEncoding encoder = Ok enc -> Forall is_byte encoder ->
  Forall (fun x => In x encoder) pre ->
  is_byte c -> ~ In c encoder -> Forall is_byte post ->
  DecodedLen (Z.of_nat (length (pre ++ c :: post))) <= Z.of_nat (length dst) ->
  let p := length pre in
  exists dst' n,
    Decode enc dst (pre ++ c :: post)
      = Ok (dst', n, Some (CorruptInputError (Z.of_nat p))) /\
    Decode enc dst (take (2 * (p / 2)) (pre ++ c :: post)) = Ok (dst', n, None) /\
    drop n dst' = drop n dst.
Proof.
  intros Hnew Hb Hpre Hc Hnotin Hpost Hroom p.
  pose proof (NewEncoding_table_ok _ _ Hnew) as Ht.
  assert (Hpre_b : Forall is_byte pre).
  { eapply Forall_impl; [exact Hpre |]. intros x Hx. simpl in Hx.
    apply list_elem_of_In in Hx. eapply Forall_forall in Hb; eauto. }
  assert (Hpre_d : Forall (fun d => 0 <= d <= 90) (map (digit enc) pre)).
  { apply Forall_map. eapply Forall_impl; [exact Hpre |]. intros x Hx. simpl in *.
    destruct (digit_in_alphabet _ _ x Hnew Hb Hx) as (d & Hd & Hr).
    unfold digit. rewrite Hd. exact Hr. }
  assert (Hc_d : digit enc c = 255).
  { unfold digit. rewrite (digit_not_in_alphabet _ _ c Hnew Hb Hc Hnotin). reflexivity. }
  assert (Hsrc : Forall is_byte (pre ++ c :: post)).
  { apply Forall_app. split; [exact Hpre_b | constructor; assumption]. }
  assert (Hk : (2 * (p / 2) <= p)%nat) by apply Nat.Div0.mul_div_le.
  rewrite take_app_le by exact Hk.
  assert (Hpref : Forall is_byte (take (2 * (p / 2)) pre)) by (apply Forall_take; exact Hpre_b).
  destruct (dec_out_corrupt (map (digit enc) post) (map (digit enc) pre) Hpre_d 0 0 0)
    as [Hstop Hpairs].
  cbv zeta in Hstop, Hpairs.
  rewrite length_map in Hstop, Hpairs. fold p in Hstop, Hpairs.
  rewrite firstn_map in Hstop, Hpairs. simpl (0 + p)%nat in Hstop.
  set (r := dec_out (map (digit enc) (take (2 * (p / 2)) pre)) 0 0 0 (-1)) in *.
  pose proof (dec_out_length _ (digits_of_table enc (take (2 * (p / 2)) pre) Ht)
                0 0 0 (-1) dec_inv_init) as Hlen.
  fold r in Hlen. rewrite length_map, length_take in Hlen.
  unfold pending in Hlen. simpl in Hlen.
  unfold DecodedLen in Hroom. rewrite length_app in Hroom. cbn [length] in Hroom.
  exists (written dst 0 r.1), (length r.1).
  rewrite !Decode_run by assumption. cbv zeta.
  rewrite map_app. cbn [map]. rewrite Hc_d, Hstop. fold r. cbn [fst snd].
  rewrite decide_True by lia.
  split; [reflexivity |]. split.
  - destruct r as [out e]. cbn [fst snd] in *. rewrite Hpairs.
    rewrite decide_True by lia. reflexivity.
  - apply (drop_written dst 0). simpl. lia.
Qed.

Lemma Decode_corrupt_input_witness :
  exists dst' n,
    Decode std (replicate 6 0) ([102; 80; 78] ++ 32 :: [75; 100])
      = Ok (dst', n, Some (CorruptInputError 3)) /\
    Decode std (replicate 6 0) (take 2 ([102; 80; 78] ++ 32 :: [75; 100]))
      = Ok (dst', n, None) /\
    drop n dst' = drop n (replicate 6 0).
Proof.
  apply (Decode_corrupt_input encodeStd std [102; 80; 78] 32 [75; 100] (replicate 6 0)).
  - vm_compute. reflexivity.
  - exact encodeStd_bytes.
  - repeat (constructor; [vm_compute; tauto |]). constructor.
  - unfold is_byte. lia.
  - vm_compute. intuition discriminate.
  - repeat (constructor; [unfold is_byte; lia |]). constructor.
  - vm_compute. discriminate.
Defined.

(** ** Construction of the table *)

Lemma existsb_is_newline encoder :
  existsb is_newline encoder = true <-> In 10 encoder \/ In 13 encoder.
Proof.
  rewrite existsb_exists. unfold is_newline. split.
  - intros (c & Hin & Hc). apply orb_true_iff in Hc as [Hc | Hc];
      apply Z.eqb_eq in Hc; subst; auto.
  - intros [H | H]; [exists 10 | exists 13]; split; auto.
Qed.

(** C5. For every alphabet definition whose length is not 91, or that
    holds a carriage return (13) or a line feed (10), [NewEncoding] panics:
    it returns no table. *)
Theorem NewEncoding_rejects encoder :
  length encoder <> 91%nat \/ In 13 encoder \/ In 10 encoder ->
  NewEncoding encoder = Panic "encoding alphabet is not 91 bytes long" \/
  NewEncoding encoder = Panic "encoding alphabet contains newline character".
Proof.
  intros H. unfold NewEncoding.
  destruct (length encoder =? 91)%nat eqn:El; [| left; reflexivity].
  apply Nat.eqb_eq in El. right.
  destruct H as [H | H]; [contradiction |].
  replace (existsb is_newline encoder) with true; [reflexivity |].
  symmetry. apply existsb_is_newline. tauto.
Qed.

Lemma NewEncoding_rejects_witness :
  NewEncoding [65; 13; 66] = Panic "encoding alphabet is not 91 bytes long" \/
  NewEncoding [65; 13; 66] = Panic "encoding alphabet contains newline character".
Proof.
  apply (NewEncoding_rejects [65; 13; 66]).
  left. simpl. lia.
Defined.



(** The alphabet "BBCD...": the standard one with its first symbol
    replaced by its second. *)
Lemma duplicate_table :
  NewEncoding (66 :: drop 1 encodeStd)
  = Ok {| encode := 66 :: drop 1 encodeStd;
          decodeMap := fill_decodeMap (66 :: drop 1 encodeStd) 0 (replicate 256 255) |}.
Proof. vm_compute. reflexivity. Qed.

(** C9. [NewEncoding] accepts an alphabet with a duplicate: there is a
    definition of 91 bytes, without carriage return and line feed, in
    which the positions [i < j] hold the same byte [c], for which
    [NewEncoding] returns a table.  The table holds the definition as it
    was given, and its [decodeMap] does not invert [encode]: the byte
    [c] maps to [j], one of its two positions, and not to [i]; no byte
    maps to [i], so the code [i] is unreachable; at every other position
    the table inverts itself. *)
Theorem NewEncoding_accepts_duplicates :
  exists encoder enc i j c,
    length encoder = 91%nat /\ ~ In 13 encoder /\ ~ In 10 encoder /\
    (i < j)%nat /\ encoder !! i = Some c /\ encoder !! j = Some c /\
    ~ NoDup encoder /\
    NewEncoding encoder = Ok enc /\
    encode enc = encoder /\
    decodeMap enc !! Z.to_nat c = Some (Z.of_nat j) /\
    decodeMap enc !! Z.to_nat c <> Some (Z.of_nat i) /\
    (forall x : nat, decodeMap enc !! x <> Some (Z.of_nat i)) /\
    (forall k c', k <> i -> encode enc !! k = Some c' ->
       decodeMap enc !! Z.to_nat c' = Some (Z.of_nat k)).
Proof.
  exists (66 :: drop 1 encodeStd).
  exists {| encode := 66 :: drop 1 encodeStd;
            decodeMap := fill_decodeMap (66 :: drop 1 encodeStd) 0 (replicate 256 255) |}.
  exists 0%nat, 1%nat, 66.
  split; [reflexivity |].
  split; [vm_compute; intuition discriminate |].
  split; [vm_compute; intuition discriminate |].
  split; [lia |]. split; [reflexivity |]. split; [reflexivity |].
  split.
  { intros Hnd. apply (bool_decide_pack _) in Hnd. vm_compute in Hnd. exact Hnd. }
  split; [exact duplicate_table |]. split; [reflexivity |].
  split; [vm_compute; reflexivity |].
  split; [vm_compute; discriminate |].
  cbn [encode decodeMap]. split.
  - intros x Hx.
    assert (Hall : Forall (fun d => d <> 0)
              (fill_decodeMap (66 :: drop 1 encodeStd) 0 (replicate 256 255))).
    { apply (bool_decide_unpack _). vm_compute. reflexivity. }
    eapply Forall_lookup_1 in Hall; [| exact Hx]. apply Hall. reflexivity.
  - intros k c' Hk Hc'.
    assert (Hall : Forall (fun k =>
                k = 0%nat \/
                fill_decodeMap (66 :: drop 1 encodeStd) 0 (replicate 256 255)
                  !! Z.to_nat (default 0 ((66 :: drop 1 encodeStd) !! k))
                = Some (Z.of_nat k)) (seq 0 91)).
    { apply (bool_decide_unpack _). vm_compute. reflexivity. }
    pose proof (lookup_lt_Some _ _ _ Hc') as Hlt.
    change (length (66 :: drop 1 encodeStd)) with 91%nat in Hlt.
    eapply Forall_forall in Hall; [| apply elem_of_seq; split; [lia | exact Hlt]].
    destruct Hall as [-> | Hall]; [contradiction |].
    rewrite Hc' in Hall. exact Hall.
Qed.

(** ** One digit pair of the encoder *)

Lemma written_two dst n x y :
  (S n < length dst)%nat -> written dst n [x; y] = <[S n := y]> (<[n := x]> dst).
Proof.
  intros H. pose proof (store2_run dst n x y (fun d => d)) as Hs.
  unfold store in Hs. rewrite decide_True in Hs by lia. cbn [bind] in Hs.
  rewrite decide_True in Hs by (rewrite length_insert; lia). cbn [bind] in Hs.
  rewrite decide_True in Hs by lia. inversion Hs. reflexivity.
Qed.

Lemma lookup_sym enc d :
  table_ok enc -> 0 <= d <= 90 -> encode enc !! Z.to_nat d = Some (sym enc d).
Proof.
  intros Ht Hd. unfold sym.
  destruct (encode enc !! Z.to_nat d) as [x |] eqn:E; [reflexivity |].
  apply lookup_ge_None in E. rewrite (encode_len _ Ht) in E. lia.
Qed.

(** The state in which the loop of [Encode] leaves the queue. *)
Lemma Encode_loop_inv enc pre dst0 n0 dst n queue numBits :
  table_ok enc -> Forall is_byte pre -> (n0 <= length dst0)%nat ->
  Encode_loop enc pre dst0 n0 0 0 = Ok (dst, n, queue, numBits) ->
  enc_inv queue numBits.
Proof.
  intros Ht Hpre Hn0. rewrite Encode_loop_run by (try assumption; apply enc_inv_init).
  destruct (decide _); [| discriminate].
  intros H. inversion H; subst.
  apply enc_final_inv; [assumption | apply enc_inv_init].
Qed.

(** C7. In the iteration of [Encode] on a byte [b], reached from the
    start of [Encode] on any bytes [pre]: when the count passes 13 once
    the byte is in the queue, the low 13 bits of the queue are [v]; if
    [v > 88] the iteration takes 13 bits out of the queue (shift right by
    13, count minus 13), else [v] is the low 14 bits and it takes 14; it
    stores [encode[v % 91]] at [dst[n]], then [encode[v / 91]] at
    [dst[n + 1]].  When the count does not pass 13 it stores nothing. *)
Theorem Encode_digit_pair encoder enc pre b dst0 dst n queue numBits :
  NewEncoding encoder = Ok enc -> Forall is_byte pre -> is_byte b ->
  Encode_loop enc pre dst0 0%nat 0 0 = Ok (dst, n, queue, numBits) ->
  let queue1 := Z.lor queue (Z.shiftl b numBits) in
  let count1 := numBits + 8 in
  (count1 <= 13 ->
     Encode_iter enc b dst n queue numBits = Ok (dst, n, queue1, count1)) /\
  (13 < count1 ->
     let k := if 88 <? queue1 mod 2 ^ 13 then 13 else 14 in
     let v := queue1 mod 2 ^ k in
     exists c0 c1,
       encode enc !! Z.to_nat (v mod 91) = Some c0 /\
       encode enc !! Z.to_nat (v / 91) = Some c1 /\
       ((S n < length dst)%nat ->
        Encode_iter enc b dst n queue numBits =
        Ok (<[S n := c1]> (<[n := c0]> dst), S (S n),
            Z.shiftr queue1 k, count1 - k))).
Proof.
  intros Hnew Hpre Hb Hloop queue1 count1.
  pose proof (NewEncoding_table_ok _ _ Hnew) as Ht.
  pose proof (Encode_loop_inv enc pre dst0 0 dst n queue numBits Ht Hpre
                ltac:(lia) Hloop) as [Hnb Hq].
  assert (Hq1 : queue1 = queue + b * 2 ^ numBits)
    by (unfold queue1; apply lor_shiftl_add; lia).
  split.
  - intros Hle. rewrite Hq1. apply Encode_iter_keep; (assumption || lia).
  - intros Hgt k v.
    assert (Hk : k = width queue1) by reflexivity.
    assert (Hq1pos : 0 <= queue1).
    { rewrite Hq1. pose proof (pow2_pos numBits). unfold is_byte in Hb. nia. }
    destruct (pair_value queue1 Hq1pos) as (_ & Hlo & Hhi & _ & _).
    rewrite <- Hk in Hlo, Hhi. fold v in Hlo, Hhi.
    exists (sym enc (v mod 91)), (sym enc (v / 91)).
    split; [apply lookup_sym; assumption |].
    split; [apply lookup_sym; assumption |].
    intros Hroom.
    pose proof (Encode_iter_emit enc b dst n queue numBits Ht Hb Hnb Hgt Hq) as He.
    cbv zeta in He. rewrite <- Hq1, <- Hk in He. fold v in He.
    rewrite decide_True in He by exact Hroom.
    rewrite written_two in He by exact Hroom.
    rewrite shiftr_div by (destruct (width_cases queue1); lia).
    exact He.
Qed.

Lemma Encode_digit_pair_witness :
  let queue1 := Z.lor 116 (Z.shiftl 101 8) in
  let count1 := 8 + 8 in
  (count1 <= 13 ->
     Encode_iter std 101 (replicate 5 0) 0 116 8
     = Ok (replicate 5 0, 0%nat, queue1, count1)) /\
  (13 < count1 ->
     let k := if 88 <? queue1 mod 2 ^ 13 then 13 else 14 in
     let v := queue1 mod 2 ^ k in
     exists c0 c1,
       encode std !! Z.to_nat (v mod 91) = Some c0 /\
       encode std !! Z.to_nat (v / 91) = Some c1 /\
       ((1 < length (replicate 5 0))%nat ->
        Encode_iter std 101 (replicate 5 0) 0 116 8 =
        Ok (<[1%nat := c1]> (<[0%nat := c0]> (replicate 5 0)), 2%nat,
            Z.shiftr queue1 k, count1 - k))).
Proof.
  apply (Encode_digit_pair encodeStd std [116] 101 (replicate 5 0) (replicate 5 0) 0 116 8).
  - vm_compute. reflexivity.
  - repeat (constructor; [unfold is_byte; lia |]). constructor.
  - unfold is_byte. lia.
  - vm_compute. reflexivity.
Defined.

(** ** The count of pending bits *)

Lemma Encode_iter_log_result enc b dst n queue numBits :
  (Encode_iter_log enc b dst n queue numBits).2 = Encode_iter enc b dst n queue numBits.
Proof.
  unfold Encode_iter_log, Encode_iter.
  destruct (13 <? wrap (numBits + 8)); [| reflexivity].
  destruct (88 <? Z.land _ 8191); reflexivity.
Qed.

Lemma Encode_loop_log_result enc src :
  forall dst n queue numBits,
  (Encode_loop_log enc src dst n queue numBits).2 = Encode_loop enc src dst n queue numBits.
Proof.
  induction src as [| b src IH]; intros dst n queue numBits; [reflexivity |].
  cbn [Encode_loop_log Encode_loop].
  rewrite <- Encode_iter_log_result.
  destruct (Encode_iter_log enc b dst n queue numBits) as [l1 [[[[dst1 n1] q1] nb1] | msg]];
    cbn [snd bind]; [| reflexivity].
  rewrite <- IH. destruct (Encode_loop_log enc src dst1 n1 q1 nb1). reflexivity.
Qed.

Lemma Encode_log_result enc dst src :
  (Encode_log enc dst src).2 = Encode enc dst src.
Proof.
  unfold Encode_log, Encode. rewrite <- Encode_loop_log_result.
  destruct (Encode_loop_log enc src dst 0 0 0). reflexivity.
Qed.

Lemma Decode_drain_log_result fuel :
  forall dst n queue numBits,
  (Decode_drain_log fuel dst n queue numBits).2 = Decode_drain fuel dst n queue numBits.
Proof.
  induction fuel as [| fuel IH]; intros dst n queue numBits; [reflexivity |].
  cbn [Decode_drain_log Decode_drain].
  destruct (store dst n (to_byte queue)) as [dst1 | msg]; cbn [bind snd]; [| reflexivity].
  destruct (7 <? wrap (numBits - 8)); [| reflexivity].
  rewrite <- IH. destruct (Decode_drain_log fuel dst1 _ _ _). reflexivity.
Qed.

Lemma Decode_loop_log_result enc src :
  forall i dst n queue numBits v,
  (Decode_loop_log enc src i dst n queue numBits v).2
  = Decode_loop enc src i dst n queue numBits v.
Proof.
  induction src as [| c src IH]; intros i dst n queue numBits v; [reflexivity |].
  cbn [Decode_loop_log Decode_loop].
  destruct (index (decodeMap enc) c) as [d | msg]; cbn [bind snd]; [| reflexivity].
  destruct (d =? 255); [reflexivity |].
  destruct (v =? -1); [apply IH |].
  rewrite <- Decode_drain_log_result.
  destruct (Decode_drain_log _ dst n _ _) as [l1 [[[[dst1 n1] q1] nb1] | msg]];
    cbn [snd bind]; [| reflexivity].
  rewrite <- IH. destruct (Decode_loop_log enc src (S i) dst1 n1 q1 nb1 (-1)). reflexivity.
Qed.

Lemma Decode_log_result enc dst src :
  (Decode_log enc dst src).2 = Decode enc dst src.
Proof.
  unfold Decode_log, Decode. rewrite <- Decode_loop_log_result.
  destruct (Decode_loop_log enc src 0 dst 0 0 0 (-1)). reflexivity.
Qed.

Lemma Encode_iter_log_bound enc b dst n q nb :
  is_byte b -> enc_inv q nb ->
  Forall count_ok (Encode_iter_log enc b dst n q nb).1.
Proof.
  intros Hb [Hnb Hq]. unfold Encode_iter_log, count_ok.
  rewrite (wrap_small (nb + 8)) by no_wrap.
  destruct (13 <? nb + 8) eqn:E.
  - apply Z.ltb_lt in E.
    destruct (88 <? Z.land _ 8191); cbn [fst];
      rewrite wrap_small by no_wrap;
      repeat constructor; lia.
  - cbn [fst]. repeat constructor; lia.
Qed.

Lemma Encode_iter_Ok_inv enc b dst n q nb dst' n' q' nb' :
  table_ok enc -> is_byte b -> enc_inv q nb ->
  Encode_iter enc b dst n q nb = Ok (dst', n', q', nb') -> enc_inv q' nb'.
Proof.
  intros Ht Hb Hinv H. destruct (Z_lt_le_dec 13 (nb + 8)) as [Hgt | Hle].
  - destruct Hinv as [Hnb Hq].
    rewrite Encode_iter_emit in H by assumption.
    destruct (decide _); [| discriminate]. inversion H; subst.
    apply (enc_inv_emit q nb b); [assumption | split; assumption | assumption].
  - destruct Hinv as [Hnb Hq].
    rewrite Encode_iter_keep in H by (assumption || lia). inversion H; subst.
    apply enc_inv_keep; [assumption | split; assumption | assumption].
Qed.

Lemma Encode_loop_log_bound enc src :
  table_ok enc -> Forall is_byte src ->
  forall dst n q nb, enc_inv q nb ->
  Forall count_ok (Encode_loop_log enc src dst n q nb).1.
Proof.
  intros Ht. induction src as [| b src IH]; intros Hsrc dst n q nb Hinv; [constructor |].
  apply Forall_is_byte_cons in Hsrc as [Hb Hsrc]. cbn [Encode_loop_log].
  pose proof (Encode_iter_log_bound enc b dst n q nb Hb Hinv) as Hl.
  pose proof (Encode_iter_log_result enc b dst n q nb) as Hr.
  destruct (Encode_iter_log enc b dst n q nb) as [l1 [[[[dst1 n1] q1] nb1] | msg]];
    cbn [fst snd] in *; [| exact Hl].
  symmetry in Hr. apply (Encode_iter_Ok_inv enc b dst n q nb _ _ _ _ Ht Hb Hinv) in Hr.
  specialize (IH Hsrc dst1 n1 q1 nb1 Hr).
  destruct (Encode_loop_log enc src dst1 n1 q1 nb1) as [l2 r]. cbn [fst] in *.
  apply Forall_app. split; assumption.
Qed.

Lemma Decode_drain_log_bound fuel :
  forall dst n q nb, 8 <= nb <= 21 ->
  Forall count_ok (Decode_drain_log fuel dst n q nb).1.
Proof.
  induction fuel as [| fuel IH]; intros dst n q nb Hnb; [constructor |].
  cbn [Decode_drain_log].
  destruct (store dst n (to_byte q)) as [dst1 | msg]; [| constructor].
  rewrite (wrap_small (nb - 8)) by no_wrap.
  destruct (7 <? nb - 8) eqn:E.
  - apply Z.ltb_lt in E. specialize (IH dst1 (S n) (Z.shiftr q 8) (nb - 8) ltac:(lia)).
    destruct (Decode_drain_log fuel dst1 (S n) (Z.shiftr q 8) (nb - 8)) as [l r].
    cbn [fst] in *. constructor; [unfold count_ok; lia | exact IH].
  - cbn [fst]. repeat constructor; unfold count_ok; lia.
Qed.

(** What the statements of [Decode] before the drain compute for a pair. *)
Lemma dec_pair_code q nb v d :
  0 <= nb <= 7 -> 0 <= q < 2 ^ nb -> 0 <= v <= 90 -> 0 <= d <= 90 ->
  let x := v + d * 91 in
  wrap_int (v + wrap_int (d * 91)) = x /\
  Z.lor q (wrap (Z.shiftl (wrap x) nb)) = q + x * 2 ^ nb /\
  (if 88 <? Z.land x 8191 then wrap (nb + 13) else wrap (nb + 14)) = nb + width x.
Proof.
  intros Hnb Hq Hv Hd x.
  assert (Hx : 0 <= x <= 8280) by (unfold x; lia).
  assert (Hp : 2 ^ nb <= 2 ^ 7) by (apply pow2_le_mono; lia).
  change (2 ^ 7) with 128 in Hp.
  split; [| split].
  - rewrite (wrap_int_small (d * 91)) by lia. apply wrap_int_small. fold x. lia.
  - rewrite (wrap_small x) by lia.
    apply lor_wrap_shiftl; [lia | lia |].
    no_wrap.
  - rewrite land_8191 by lia. unfold width. change 8192 with (2 ^ 13).
    destruct (88 <? x mod 2 ^ 13); apply wrap_small; lia.
Qed.

Lemma Decode_loop_log_bound enc src :
  table_ok enc -> Forall is_byte src ->
  forall i dst n q nb v, dec_inv q nb v -> (n <= length dst)%nat ->
  Forall count_ok (Decode_loop_log enc src i dst n q nb v).1.
Proof.
  intros Ht. induction src as [| c src IH]; intros Hsrc i dst n q nb v Hinv Hn;
    [constructor |].
  apply Forall_is_byte_cons in Hsrc as [Hc Hsrc]. cbn [Decode_loop_log].
  rewrite index_digit by assumption. set (d := digit enc c).
  destruct (d =? 255) eqn:E255; [constructor |]. apply Z.eqb_neq in E255.
  assert (Hd : 0 <= d <= 90).
  { destruct (decodeMap_range _ Ht c) as [H | H]; [exact H | contradiction]. }
  destruct (v =? -1) eqn:Ev.
  - apply IH; [assumption | | assumption].
    destruct Hinv as (? & ? & ?). repeat split; try lia.
  - apply Z.eqb_neq in Ev.
    assert (Hv : 0 <= v <= 90) by (destruct Hinv as (_ & _ & [? | ?]); [contradiction | assumption]).
    destruct (dec_pair_step q nb v d Hinv Hv Hd) as (Hq1 & Hnb1 & Hj & Hj8 & Hinv').
    destruct Hinv as (Hnb & Hq & _).
    destruct (dec_pair_code q nb v d Hnb Hq Hv Hd) as (Hx & Hqueue & Hnum).
    cbv zeta in Hx, Hqueue, Hnum. rewrite Hx, Hqueue, Hnum.
    set (x := v + d * 91) in *. set (q1 := q + x * 2 ^ nb) in *.
    set (nb1 := nb + width x) in *. set (j := nb1 / 8) in *.
    pose proof (Decode_drain_log_bound (S (length dst - n)) dst n q1 nb1 ltac:(lia)) as Hl.
    pose proof (Decode_drain_log_result (S (length dst - n)) dst n q1 nb1) as Hr.
    rewrite (Decode_drain_run (Z.to_nat j)) in Hr by lia.
    destruct (Decode_drain_log (S (length dst - n)) dst n q1 nb1)
      as [l1 [[[[dst1 n1] q2] nb2] | msg]]; cbn [fst snd] in *.
    + destruct (decide _) as [Hroom |]; [| discriminate].
      inversion Hr; subst dst1 n1 q2 nb2. rewrite Z2Nat.id by lia.
      assert (Hl1 : length (written dst n (le_split (Z.to_nat j) q1)) = length dst).
      { apply length_written. rewrite length_le_split. lia. }
      specialize (IH Hsrc (S i) (written dst n (le_split (Z.to_nat j) q1))
                    (n + Z.to_nat j)%nat _ _ _ Hinv' ltac:(lia)).
      destruct (Decode_loop_log enc src (S i) _ _ _ _ (-1)) as [l2 r]. cbn [fst] in *.
      constructor; [unfold count_ok; lia |]. apply Forall_app. split; assumption.
    + constructor; [unfold count_ok; lia | exact Hl].
Qed.

(** C8. In every call of [Encode] and of [Decode], on a table built by
    [NewEncoding], every value assigned to the count of pending bits
    [numBits] is in [0, 23] (in [0, 21] in fact), so no bit is shifted out
    of the 64-bit queue. *)
Theorem numBits_bounded encoder enc dst src :
  NewEncoding encoder = Ok enc -> Forall is_byte src ->
  (Encode_log enc dst src).2 = Encode enc dst src /\
  Forall (fun x => 0 <= x <= 23) (Encode_log enc dst src).1 /\
  (Decode_log enc dst src).2 = Decode enc dst src /\
  Forall (fun x => 0 <= x <= 23) (Decode_log enc dst src).1.
Proof.
  intros Hnew Hsrc. pose proof (NewEncoding_table_ok _ _ Hnew) as Ht.
  split; [apply Encode_log_result |]. split; [| split; [apply Decode_log_result |]].
  - unfold Encode_log.
    pose proof (Encode_loop_log_bound enc src Ht Hsrc dst 0 0 0 enc_inv_init) as H.
    destruct (Encode_loop_log enc src dst 0 0 0) as [l r]. cbn [fst] in *.
    constructor; [lia |].
    eapply Forall_impl; [exact H |]. unfold count_ok. intros x Hx. simpl. lia.
  - unfold Decode_log.
    pose proof (Decode_loop_log_bound enc src Ht Hsrc 0 dst 0 0 0 (-1) dec_inv_init
                  ltac:(lia)) as H.
    destruct (Decode_loop_log enc src 0 dst 0 0 0 (-1)) as [l r]. cbn [fst] in *.
    constructor; [lia |].
    eapply Forall_impl; [exact H |]. unfold count_ok. intros x Hx. simpl. lia.
Qed.

Lemma numBits_bounded_witness :
  (Encode_log std (replicate 8 0) [116; 101; 115; 116]).2
    = Encode std (replicate 8 0) [116; 101; 115; 116] /\
  Forall (fun x => 0 <= x <= 23) (Encode_log std (replicate 8 0) [116; 101; 115; 116]).1 /\
  (Decode_log std (replicate 8 0) [116; 101; 115; 116]).2
    = Decode std (replicate 8 0) [116; 101; 115; 116] /\
  Forall (fun x => 0 <= x <= 23) (Decode_log std (replicate 8 0) [116; 101; 115; 116]).1.
Proof.
  apply (numBits_bounded encodeStd std (replicate 8 0) [116; 101; 115; 116]).
  - vm_compute. reflexivity.
  - repeat (constructor; [unfold is_byte; lia |]). constructor.
Defined.

(** ** binary64 arithmetic of [EncodedLen] *)

Lemma digits_bounds p : 2 ^ (digits p - 1) <= Zpos p < 2 ^ digits p.
Proof.
  unfold digits. induction p as [p IH | p IH |]; cbn [digits2_pos].
  - rewrite Pos2Z.inj_succ, Pos2Z.inj_xI.
    set (d := Z.pos (digits2_pos p)) in *. assert (0 < d) by (unfold d; lia).
    replace (Z.succ d - 1) with (1 + (d - 1)) by lia.
    replace (Z.succ d) with (1 + d) by lia.
    rewrite !pow2_split by lia. change (2 ^ 1) with 2. lia.
  - rewrite Pos2Z.inj_succ, Pos2Z.inj_xO.
    set (d := Z.pos (digits2_pos p)) in *. assert (0 < d) by (unfold d; lia).
    replace (Z.succ d - 1) with (1 + (d - 1)) by lia.
    replace (Z.succ d) with (1 + d) by lia.
    rewrite !pow2_split by lia. change (2 ^ 1) with 2. lia.
  - simpl. lia.
Qed.

Lemma digits_unique p d : 2 ^ (d - 1) <= Zpos p < 2 ^ d -> digits p = d.
Proof.
  intros H. pose proof (digits_bounds p) as Hb.
  assert (Hd : 0 < digits p) by (unfold digits; lia).
  destruct (Z_lt_le_dec d 1) as [Hlt | Hge].
  { assert (2 ^ d <= 2 ^ 0) by (destruct (Z_lt_le_dec d 0);
      [rewrite Z.pow_neg_r by lia; simpl; lia | apply pow2_le_mono; lia]).
    simpl in *. lia. }
  destruct (Z.lt_trichotomy (digits p) d) as [Hlt | [Heq | Hgt]]; [| exact Heq |].
  - assert (2 ^ digits p <= 2 ^ (d - 1)) by (apply pow2_le_mono; lia). lia.
  - assert (2 ^ d <= 2 ^ (digits p - 1)) by (apply pow2_le_mono; lia). lia.
Qed.

Lemma shr_fexp_53 m e l :
  digits m = 53 -> -1074 <= e ->
  shr_fexp 53 1024 (Zpos m) e l = (shr_record_of_loc (Zpos m) l, e).
Proof.
  intros Hd He. unfold shr_fexp, fexp, emin. cbn [Zdigits2].
  fold (digits m). rewrite Hd.
  replace (Z.max (53 + e - 53) (3 - 1024 - 53) - e) with 0 by lia.
  reflexivity.
Qed.

Lemma shr_fexp_54 m e l :
  digits m = 54 -> -1075 <= e ->
  shr_fexp 53 1024 (Zpos m) e l = (shr_1 (shr_record_of_loc (Zpos m) l), e + 1).
Proof.
  intros Hd He. unfold shr_fexp, fexp, emin. cbn [Zdigits2].
  fold (digits m). rewrite Hd.
  replace (Z.max (54 + e - 53) (3 - 1024 - 53) - e) with 1 by lia.
  reflexivity.
Qed.

Lemma round_finish_value M e :
  2 ^ 52 <= M <= 2 ^ 53 -> -1074 <= e <= 970 ->
  exists m' e',
    round_finish M e = S754_finite false m' e' /\
    digits m' = 53 /\ e <= e' <= e + 1 /\ Zpos m' * 2 ^ (e' - e) = M.
Proof.
  intros HM He. unfold round_finish.
  destruct (Z.eq_dec M (2 ^ 53)) as [-> | Hne].
  - change (2 ^ 53) with (Zpos 9007199254740992).
    rewrite shr_fexp_54 by (try reflexivity; lia).
    cbn [shr_record_of_loc shr_1 shr_m].
    replace (e + 1 <=? 1024 - 53) with true by (symmetry; apply Z.leb_le; lia).
    exists 4503599627370496%positive, (e + 1).
    split; [reflexivity |]. split; [reflexivity |]. split; [lia |].
    replace (e + 1 - e) with 1 by lia. reflexivity.
  - destruct M as [| p | p]; try (change (2 ^ 52) with 4503599627370496 in HM; lia).
    assert (Hd : digits p = 53).
    { apply digits_unique. change (53 - 1) with 52. lia. }
    rewrite shr_fexp_53 by (assumption || lia).
    cbn [shr_record_of_loc shr_m].
    replace (e <=? 1024 - 53) with true by (symmetry; apply Z.leb_le; lia).
    exists p, e. split; [reflexivity |]. split; [exact Hd |]. split; [lia |].
    rewrite Z.sub_diag. lia.
Qed.

Lemma binary_round_aux_eq mx ex lx :
  binary_round_aux 53 1024 false mx ex lx =
  let '(mrs', e') := shr_fexp 53 1024 mx ex lx in
  round_finish (round_nearest_even (shr_m mrs') (loc_of_shr_record mrs')) e'.
Proof. reflexivity. Qed.

Lemma loc_of_shr_record_of_loc m l :
  loc_of_shr_record (shr_record_of_loc m l) = l /\ shr_m (shr_record_of_loc m l) = m.
Proof. destruct l as [| []]; split; reflexivity. Qed.

Lemma round_nearest_even_range m l :
  m <= round_nearest_even m l <= m + 1 /\ (l = loc_Exact -> round_nearest_even m l = m).
Proof.
  destruct l as [| []]; cbn [round_nearest_even]; try (split; [lia | try reflexivity; discriminate]).
  destruct (Z.even m); split; try lia; discriminate.
Qed.

(** What [binary_round_aux] returns on a mantissa of 53 or 54 bits: a
    normal number whose mantissa, brought back to the exponent [e], is
    the rounded input mantissa; a mantissa of 54 bits is halved first,
    and its low bit and the location decide the rounding. *)
Lemma binary_round_aux_value q e l :
  (digits q = 53 \/ digits q = 54) -> -1074 <= e <= 969 ->
  exists m' e',
    binary_round_aux 53 1024 false (Zpos q) e l = S754_finite false m' e' /\
    digits m' = 53 /\ e <= e' <= e + 2 /\
    let V := Zpos m' * 2 ^ (e' - e) in
    (digits q = 53 -> V = round_nearest_even (Zpos q) l) /\
    (digits q = 54 ->
     exists l',
       V = 2 * round_nearest_even (Zpos q / 2) l' /\
       (l = loc_Exact -> Z.even (Zpos q) = true -> l' = loc_Exact) /\
       (l <> loc_Exact -> Z.even (Zpos q) = false -> l' = loc_Inexact Gt)).
Proof.
  intros Hd He. rewrite binary_round_aux_eq.
  pose proof (digits_bounds q) as Hb.
  destruct Hd as [Hd | Hd]; rewrite Hd in Hb.
  - rewrite shr_fexp_53 by (assumption || lia).
    destruct (loc_of_shr_record_of_loc (Zpos q) l) as [-> ->].
    destruct (round_nearest_even_range (Zpos q) l) as [Hr Hex].
    set (M := round_nearest_even (Zpos q) l) in *.
    change (53 - 1) with 52 in Hb.
    destruct (round_finish_value M e ltac:(lia) ltac:(lia)) as (m' & e' & Hf & Hd' & He' & HV).
    exists m', e'. split; [exact Hf |]. split; [exact Hd' |]. split; [lia |].
    cbv zeta. rewrite HV. split; [intros _; reflexivity |].
    intros H54; rewrite Hd in H54; discriminate.
  - rewrite shr_fexp_54 by (assumption || lia).
    change (54 - 1) with 53 in Hb.
    assert (Hhalf : exists p, Zpos q / 2 = Zpos p /\
              shr_m (shr_1 (shr_record_of_loc (Zpos q) l)) = Zpos p /\
              (l = loc_Exact -> Z.even (Zpos q) = true ->
               loc_of_shr_record (shr_1 (shr_record_of_loc (Zpos q) l)) = loc_Exact) /\
              (l <> loc_Exact -> Z.even (Zpos q) = false ->
               loc_of_shr_record (shr_1 (shr_record_of_loc (Zpos q) l)) = loc_Inexact Gt)).
    { destruct q as [p | p |].
      - exists p. split; [rewrite Pos2Z.inj_xI; symmetry; apply (Z.div_unique _ 2 _ 1); lia |].
        split; [destruct l as [| []]; reflexivity |].
        split; [intros _ Hev; discriminate |].
        intros Hl _. destruct l as [| []]; try reflexivity. contradiction.
      - exists p. split; [rewrite Pos2Z.inj_xO; symmetry; apply (Z.div_unique _ 2 _ 0); lia |].
        split; [destruct l as [| []]; reflexivity |].
        split; [intros -> _; reflexivity | intros _ Hev; discriminate].
      - change (2 ^ 53) with 9007199254740992 in Hb. lia. }
    destruct Hhalf as (p & Hp & Hm & Hex & Hup). rewrite Hm.
    set (l' := loc_of_shr_record (shr_1 (shr_record_of_loc (Zpos q) l))) in *.
    destruct (round_nearest_even_range (Zpos p) l') as [Hr _].
    set (M := round_nearest_even (Zpos p) l') in *.
    assert (HpB : 2 ^ 52 <= Zpos p < 2 ^ 53).
    { rewrite <- Hp. change (2 ^ 53) with (2 * 2 ^ 52) in Hb. change (2 ^ 54) with (2 * 2 ^ 53) in Hb.
      split; [apply Z.div_le_lower_bound; lia | apply Z.div_lt_upper_bound; lia]. }
    destruct (round_finish_value M (e + 1) ltac:(lia) ltac:(lia)) as (m' & e' & Hf & Hd' & He' & HV).
    exists m', e'. split; [exact Hf |]. split; [exact Hd' |]. split; [lia |].
    cbv zeta.
    assert (HV2 : Zpos m' * 2 ^ (e' - e) = 2 * M).
    { replace (e' - e) with (1 + (e' - (e + 1))) by lia.
      rewrite pow2_split by lia. change (2 ^ 1) with 2. lia. }
    rewrite HV2, Hp.
    split; [intros H53; rewrite Hd in H53; discriminate |].
    intros _. exists l'. split; [reflexivity |]. split; assumption.
Qed.

Lemma binary_round_aux_exact m e :
  digits m = 53 -> -1074 <= e <= 971 ->
  binary_round_aux 53 1024 false (Zpos m) e loc_Exact = S754_finite false m e.
Proof.
  intros Hd He. rewrite binary_round_aux_eq.
  rewrite shr_fexp_53 by (assumption || lia).
  cbn [shr_record_of_loc shr_m loc_of_shr_record round_nearest_even].
  unfold round_finish. rewrite shr_fexp_53 by (assumption || lia).
  cbn [shr_record_of_loc shr_m].
  replace (e <=? 1024 - 53) with true by (symmetry; apply Z.leb_le; lia).
  reflexivity.
Qed.

Lemma pos_iter_xO p k : Zpos (Pos.iter xO p k) = Zpos p * 2 ^ Zpos k.
Proof.
  induction k as [| k IH] using Pos.peano_ind.
  - cbn [Pos.iter]. rewrite Pos2Z.inj_xO. change (2 ^ 1) with 2. lia.
  - rewrite Pos.iter_succ, Pos2Z.inj_xO, IH, Pos2Z.inj_succ.
    replace (Z.succ (Z.pos k)) with (1 + Z.pos k) by lia.
    rewrite pow2_split by lia. change (2 ^ 1) with 2. lia.
Qed.

(** [float64(n)] of a positive integer below [2^53] is exact: the
    mantissa is [n] shifted to 53 bits. *)
Lemma float64_of_int_pos n :
  0 < n < 2 ^ 53 ->
  exists m d,
    float64_of_int n = S754_finite false m (d - 53) /\
    digits m = 53 /\ 1 <= d <= 53 /\ 2 ^ (d - 1) <= n < 2 ^ d /\
    Zpos m = n * 2 ^ (53 - d).
Proof.
  intros Hn. destruct n as [| p | p]; try lia.
  pose proof (digits_bounds p) as Hb. set (d := digits p) in *.
  assert (Hd1 : 1 <= d) by (unfold d, digits; lia).
  assert (Hd : d <= 53).
  { destruct (Z_lt_le_dec 53 d) as [Hgt | ]; [| lia].
    assert (2 ^ 53 <= 2 ^ (d - 1)) by (apply pow2_le_mono; lia). lia. }
  unfold float64_of_int, binary_normalize, binary_round, shl_align, fexp, emin.
  fold (digits p). fold d.
  replace (Z.max (d + 0 - 53) (3 - 1024 - 53) - 0) with (d - 53) by lia.
  replace (Z.max (d + 0 - 53) (3 - 1024 - 53)) with (d - 53) by lia.
  destruct (d - 53) as [| k | k] eqn:E; try lia.
  - exists p, d. rewrite binary_round_aux_exact by (try lia; fold d; lia).
    replace (d - 53) with 0 by lia. replace (53 - d) with 0 by lia.
    repeat split; lia.
  - assert (Hm : Zpos (Pos.iter xO p k) = Zpos p * 2 ^ (53 - d)).
    { rewrite pos_iter_xO.
      replace (53 - d) with (Zpos k) by (clear - E; lia). reflexivity. }
    assert (Hdm : digits (Pos.iter xO p k) = 53).
    { apply digits_unique. rewrite Hm. change (53 - 1) with 52.
      assert (H52 : 2 ^ 52 = 2 ^ (d - 1) * 2 ^ (53 - d))
        by (rewrite <- pow2_split by lia; f_equal; lia).
      assert (H53 : 2 ^ 53 = 2 ^ d * 2 ^ (53 - d))
        by (rewrite <- pow2_split by lia; f_equal; lia).
      rewrite H52, H53.
      pose proof (pow2_pos (53 - d) ltac:(lia)) as Hc.
      split; [apply Z.mul_le_mono_nonneg_r; lia | apply Z.mul_lt_mono_pos_r; lia]. }
    exists (Pos.iter xO p k), d.
    rewrite binary_round_aux_exact by (try assumption; lia).
    rewrite <- E. repeat split; (lia || exact Hm).
Qed.

Lemma shr_52 m :
  SpecFloat.iter_pos shr_1 52
    {| shr_m := Zpos (4503599627370496 * m); shr_r := false; shr_s := false |}
  = {| shr_m := Zpos m; shr_r := false; shr_s := false |}.
Proof. reflexivity. Qed.

(** Multiplication by [16.0] adds 4 to the exponent. *)
Lemma f64_mul_16 m e :
  digits m = 53 -> -1000 <= e <= 900 ->
  SFmul 53 1024 (S754_finite false m e) (float64_of_int 16)
  = S754_finite false m (e + 4).
Proof.
  intros Hd He.
  change (float64_of_int 16) with (S754_finite false 4503599627370496 (-48)).
  cbn [SFmul xorb]. rewrite binary_round_aux_eq.
  assert (Hd' : digits (m * 4503599627370496) = 105).
  { apply digits_unique. rewrite Pos2Z.inj_mul.
    pose proof (digits_bounds m) as Hb. rewrite Hd in Hb.
    change (53 - 1) with 52 in Hb.
    change (2 ^ (105 - 1)) with (2 ^ 52 * 2 ^ 52).
    change (2 ^ 105) with (2 ^ 53 * 2 ^ 52).
    change (Zpos 4503599627370496) with (2 ^ 52).
    split; [apply Z.mul_le_mono_nonneg_r; lia | apply Z.mul_lt_mono_pos_r; lia]. }
  unfold shr_fexp, fexp, emin. cbn [Zdigits2]. fold (digits (m * 4503599627370496)).
  rewrite Hd'.
  replace (Z.max (105 + (e + -48) - 53) (3 - 1024 - 53) - (e + -48)) with 52 by lia.
  rewrite Pos.mul_comm.
  cbn [shr shr_record_of_loc Pos.mul iter_pos shr_1 shr_m loc_of_shr_record round_nearest_even].
  rewrite shr_52. cbn [shr_m loc_of_shr_record round_nearest_even].
  unfold round_finish. rewrite shr_fexp_53 by (assumption || lia).
  cbn [shr_record_of_loc shr_m].
  replace (e + -48 + 52 <=? 1024 - 53) with true by (symmetry; apply Z.leb_le; lia).
  f_equal. lia.
Qed.

(** Division by [13.0]: the quotient mantissa is [16 m / 13] at the
    exponent [e - 4]; the location compares twice the remainder with 13. *)
Lemma f64_div_13 m e :
  digits m = 53 -> -1000 <= e <= 900 ->
  let rem := (16 * Zpos m) mod 13 in
  SFdiv 53 1024 (S754_finite false m e) (float64_of_int 13)
  = binary_round_aux 53 1024 false (16 * Zpos m / 13) (e - 4)
      (if rem =? 0 then loc_Exact else loc_Inexact (2 * rem ?= 13)).
Proof.
  intros Hd He rem.
  change (float64_of_int 13) with (S754_finite false 7318349394477056 (-49)).
  cbn [SFdiv xorb]. unfold SFdiv_core_binary.
  cbn [Zdigits2]. fold (digits m). rewrite Hd.
  change (Z.pos (digits2_pos 7318349394477056)) with 53.
  unfold fexp, emin.
  replace (Z.min (Z.max (53 + e - (53 + -49) - 53) (3 - 1024 - 53)) (e - -49))
    with (e - 4) by lia.
  replace (e - -49 - (e - 4)) with 53 by lia.
  cbv iota.
  assert (Hq : Z.shiftl (Zpos m) 53 / 7318349394477056 = 16 * Zpos m / 13).
  { rewrite Z.shiftl_mul_pow2 by lia.
    change (2 ^ 53) with (16 * 562949953421312).
    change 7318349394477056 with (13 * 562949953421312).
    rewrite Z.mul_assoc, (Z.mul_comm (Zpos m) 16).
    apply Z.div_mul_cancel_r; lia. }
  assert (Hr : Z.shiftl (Zpos m) 53 mod 7318349394477056
               = rem * 562949953421312).
  { rewrite Z.shiftl_mul_pow2 by lia.
    change (2 ^ 53) with (16 * 562949953421312).
    change 7318349394477056 with (13 * 562949953421312).
    rewrite Z.mul_assoc, (Z.mul_comm (Zpos m) 16).
    apply Z.mul_mod_distr_r; lia. }
  unfold Z.div in Hq at 1. unfold Z.modulo in Hr at 1.
  destruct (Z.div_eucl (Z.shiftl (Z.pos m) 53) 7318349394477056) as [q r].
  cbn [fst snd] in Hq, Hr. subst q r. f_equal.
  assert (Hrem : 0 <= rem < 13) by (apply Z.mod_pos_bound; lia).
  unfold new_location. change (Z.even 7318349394477056) with true. cbv iota.
  unfold new_location_even.
  destruct (rem =? 0) eqn:E.
  - apply Z.eqb_eq in E. rewrite E. reflexivity.
  - apply Z.eqb_neq in E.
    replace (rem * 562949953421312 =? 0) with false by (symmetry; apply Z.eqb_neq; lia).
    f_equal. change 7318349394477056 with (13 * 562949953421312).
    rewrite Z.mul_assoc. symmetry. apply Zmult_compare_compat_r. lia.
Qed.

(** [int(float64(c))] is [c] for a positive integer below [2^53]. *)
Lemma int_of_float64_of_int c :
  0 < c < 2 ^ 53 -> int_of_float64 (float64_of_int c) = c.
Proof.
  intros Hc. destruct (float64_of_int_pos c Hc) as (m & d & Hf & _ & Hd & _ & Hm).
  rewrite Hf. unfold int_of_float64.
  assert (Ha : (if 0 <=? d - 53 then Zpos m * 2 ^ (d - 53)
                else Zpos m / 2 ^ (- (d - 53))) = c).
  { destruct (0 <=? d - 53) eqn:E.
    - apply Z.leb_le in E. replace (d - 53) with 0 by lia.
      rewrite Hm. replace (53 - d) with 0 by lia. lia.
    - replace (- (d - 53)) with (53 - d) by lia. rewrite Hm.
      apply Z.div_mul. pose proof (pow2_pos (53 - d) ltac:(lia)). lia. }
  rewrite Ha.
  assert (H1 : (- 2 ^ 63 <=? c) = true) by (apply Z.leb_le; lia).
  assert (H2 : (c <? 2 ^ 63) = true) by (apply Z.ltb_lt; lia).
  rewrite H1, H2. reflexivity.
Qed.


(** 13 divides no [j * 2^x] with [j] in [1, 12]. *)
Lemma pow2_not_divisible j x :
  0 <= x -> 1 <= j <= 12 -> (j * 2 ^ x) mod 13 <> 0.
Proof.
  intros Hx Hj H.
  assert (Hdiv : forall y, 0 <= y -> forall i, (13 | i * 2 ^ y) -> (13 | i)).
  { apply (natlike_ind (fun y => forall i, (13 | i * 2 ^ y) -> (13 | i))).
    - intros i Hi. rewrite Z.pow_0_r, Z.mul_1_r in Hi. exact Hi.
    - intros y Hy IH i Hi. rewrite Z.pow_succ_r in Hi by lia.
      assert (H2 : (13 | 2 * i)).
      { apply IH. replace (2 * i * 2 ^ y) with (i * (2 * 2 ^ y)) by ring. exact Hi. }
      apply (Z.gauss 13 2 i H2). reflexivity. }
  apply Z.mod_divide in H; [| lia].
  apply Hdiv in H; [| exact Hx].
  destruct H as [c Hc]. lia.
Qed.

(** The ceiling of a mantissa [m'] over [w], known through [m' * t]. *)
Lemma ceil_of_scaled k m' w t :
  0 < w -> 0 < t -> k * (w * t) < m' * t <= (k + 1) * (w * t) ->
  - (- m' / w) = k + 1.
Proof.
  intros Hw Ht Hm.
  assert (H1 : k * w < m') by nia.
  assert (H2 : m' <= (k + 1) * w) by nia.
  assert (H : - m' / w = - (k + 1)); [| lia].
  symmetry. apply (Z.div_unique _ w _ ((k + 1) * w - m')); lia.
Qed.

(** The rounded quotient is above [k] and at most [k + 1] when 13 does
    not divide [16 n]: [q = k u + f] is the quotient mantissa, [g] the
    remainder, [V] the rounded mantissa at the exponent of [q]. *)
Lemma rounded_quotient_range k j u f g q l V (big : bool) :
  0 <= k -> 1 <= j <= 12 -> 8 <= u -> Z.even u = true ->
  j * u = 13 * f + g -> 0 < g < 13 ->
  q = k * u + f ->
  l = loc_Inexact (2 * g ?= 13) ->
  (f = 0 -> big = false) ->
  (big = false -> V = round_nearest_even q l) ->
  (big = true ->
   exists l', V = 2 * round_nearest_even (q / 2) l' /\
              (l <> loc_Exact -> Z.even q = false -> l' = loc_Inexact Gt)) ->
  k * u < V <= (k + 1) * u.
Proof.
  intros Hk Hj Hu Heven Hju Hg Hq Hl Hf0 H53 H54.
  assert (Hf : 0 <= f <= u - 1) by nia.
  pose proof (Z.div_mod u 2 ltac:(lia)) as Hu2.
  rewrite Zmod_even, Heven in Hu2.
  set (u2 := u / 2) in *.
  destruct big.
  - destruct (H54 eq_refl) as (l' & HV & Hup). clear H53 H54.
    destruct (round_nearest_even_range (q / 2) l') as [Hr _].
    pose proof (Z.div_mod q 2 ltac:(lia)) as Hdm.
    pose proof (Z.mod_pos_bound q 2 ltac:(lia)) as Hmod.
    assert (Hf1 : 1 <= f) by (destruct (Z.eq_dec f 0) as [H0 |]; [specialize (Hf0 H0); discriminate | lia]).
    assert (Hhi : q / 2 < (k + 1) * u2) by nia.
    destruct (Z.eq_dec f 1) as [-> | Hf2].
    + assert (Hodd : Z.even q = false).
      { rewrite Hq, Z.even_add, Z.even_mul, Heven, orb_true_r. reflexivity. }
      rewrite (Hup ltac:(rewrite Hl; discriminate) Hodd) in HV.
      cbn [round_nearest_even] in HV.
      assert (q / 2 = k * u2) by nia. nia.
    + assert (k * u2 < q / 2) by nia. nia.
  - specialize (H53 eq_refl). clear H54.
    destruct (round_nearest_even_range q l) as [Hr _]. rewrite <- H53 in Hr.
    destruct (Z.eq_dec f 0) as [-> | Hf1]; [| lia].
    assert (Hgt : (2 * g ?= 13) = Gt) by (apply Z.compare_gt_iff; lia).
    rewrite Hl, Hgt in H53. cbn [round_nearest_even] in H53. lia.
Qed.

(** [EncodedLen] is the exact ceiling for every length below
    [13 * 2^46 + 9]: the product [float64(n) * 16.0] is exact and the
    rounded quotient stays above the integer below it. *)
Lemma EncodedLen_exact n :
  0 <= n < 914793674309641 -> EncodedLen n = ceil_div (16 * n) 13.
Proof.
  intros Hn. destruct (Z.eq_dec n 0) as [-> | Hn0]; [vm_compute; reflexivity |].
  assert (Hn53 : 0 < n < 2 ^ 53) by (change (2 ^ 53) with 9007199254740992; lia).
  destruct (float64_of_int_pos n Hn53) as (m & d & Hf & Hdm & Hd & Hnd & Hm).
  assert (Hd50 : d <= 50).
  { destruct (Z_lt_le_dec 50 d) as [Hgt |]; [| lia].
    assert (2 ^ 50 <= 2 ^ (d - 1)) by (apply pow2_le_mono; lia).
    change (2 ^ 50) with 1125899906842624 in *. lia. }
  unfold EncodedLen. rewrite Hf, f64_mul_16 by (assumption || lia).
  rewrite (f64_div_13 m (d - 53 + 4) Hdm ltac:(lia)). clear Hf.
  replace (d - 53 + 4 - 4) with (d - 53) by lia.
  set (u := 2 ^ (53 - d)) in *.
  assert (Hu : 8 <= u) by (change 8 with (2 ^ 3); apply pow2_le_mono; lia).
  assert (Hu16 : u = 8 \/ 16 <= u).
  { destruct (Z.eq_dec d 50) as [-> | Hne]; [left; reflexivity | right].
    change 16 with (2 ^ 4). apply pow2_le_mono. lia. }
  assert (Hueven : Z.even u = true).
  { unfold u. rewrite Z.even_pow by lia. reflexivity. }
  set (k := 16 * n / 13). set (j := (16 * n) mod 13).
  assert (Hkj : 16 * n = 13 * k + j) by (apply Z.div_mod; lia).
  assert (Hj : 0 <= j < 13) by (apply Z.mod_pos_bound; lia).
  assert (Hk : 0 <= k) by (apply Z.div_pos; lia).
  assert (H16 : 16 * Zpos m = (13 * k + j) * u) by (rewrite Hm; lia).
  rewrite H16.
  set (f := j * u / 13). set (g := (j * u) mod 13).
  assert (Hfg : j * u = 13 * f + g) by (apply Z.div_mod; lia).
  assert (Hg : 0 <= g < 13) by (apply Z.mod_pos_bound; lia).
  assert (Hq : (13 * k + j) * u / 13 = k * u + f).
  { replace ((13 * k + j) * u) with (k * u * 13 + j * u) by ring.
    rewrite Z.div_add_l by lia. reflexivity. }
  assert (Hrem : ((13 * k + j) * u) mod 13 = g).
  { replace ((13 * k + j) * u) with (j * u + k * u * 13) by ring.
    apply Z.mod_add. lia. }
  rewrite Hq, Hrem.
  assert (Hmb : 2 ^ 52 <= Zpos m < 2 ^ 53).
  { pose proof (digits_bounds m) as Hb. rewrite Hdm in Hb. exact Hb. }
  assert (Hqb : 2 ^ 52 <= k * u + f < 2 ^ 54).
  { rewrite <- Hq, <- H16.
    change (2 ^ 52) with 4503599627370496 in *. change (2 ^ 53) with 9007199254740992 in *.
    change (2 ^ 54) with 18014398509481984.
    split; [apply Z.div_le_lower_bound; lia | apply Z.div_lt_upper_bound; lia]. }
  set (l := if g =? 0 then loc_Exact else loc_Inexact (2 * g ?= 13)).
  destruct (k * u + f) as [| qq | qq] eqn:Eq;
    try (change (2 ^ 52) with 4503599627370496 in Hqb; lia).
  assert (Hdq : digits qq = 53 \/ digits qq = 54).
  { destruct (Z_lt_le_dec (Zpos qq) (2 ^ 53)).
    - left. apply digits_unique. change (53 - 1) with 52. lia.
    - right. apply digits_unique. change (54 - 1) with 53. lia. }
  destruct (binary_round_aux_value qq (d - 53) l Hdq ltac:(lia))
    as (m' & e' & Hbra & _ & He' & H53 & H54).
  rewrite Hbra. cbv zeta in H53, H54.
  unfold Ceil. replace (0 <=? e') with false by (symmetry; apply Z.leb_gt; lia).
  set (w := 2 ^ (- e')). set (t := 2 ^ (e' - (d - 53))) in *.
  assert (Hw : 0 < w) by (apply pow2_pos; lia).
  assert (Ht : 0 < t) by (apply pow2_pos; lia).
  assert (Huwt : u = w * t).
  { unfold u, w, t. rewrite <- pow2_split by lia. f_equal. lia. }
  set (big := if Z.eq_dec (digits qq) 54 then true else false).
  assert (Hbig : (big = false -> digits qq = 53) /\ (big = true -> digits qq = 54)).
  { unfold big. destruct (Z.eq_dec (digits qq) 54) as [E | E];
      split; intros; (discriminate || destruct Hdq; (assumption || contradiction)). }
  destruct Hbig as [Hb53 Hb54].
  assert (Hc : - (- Zpos m' / w) = ceil_div (16 * n) 13).
  { unfold ceil_div. destruct (Z.eq_dec j 0) as [Hj0 | Hj0].
    - assert (Hf0 : f = 0 /\ g = 0) by (rewrite Hj0 in Hfg; lia).
      destruct Hf0 as [Hf0 Hg0].
      assert (Hl : l = loc_Exact) by (unfold l; rewrite Hg0; reflexivity).
      assert (Hqku : Zpos qq = k * u) by lia.
      assert (HV : Zpos m' * t = Zpos qq).
      { destruct Hdq as [Hq53 | Hq54].
        - rewrite (H53 Hq53), Hl. reflexivity.
        - destruct (H54 Hq54) as (l' & HV & Hex & _).
          assert (Hev : Z.even (Zpos qq) = true)
            by (rewrite Hqku, Z.even_mul, Hueven; apply orb_true_r).
          rewrite HV, (Hex Hl Hev). cbn [round_nearest_even].
          pose proof (Z.div_mod (Zpos qq) 2 ltac:(lia)) as Hdm2.
          rewrite Zmod_even, Hev in Hdm2. lia. }
      assert (Hm' : Zpos m' = k * w) by nia.
      rewrite Hm'. replace (- (k * w)) with ((- k) * w) by ring.
      rewrite Z.div_mul by lia.
      replace (16 * n + 13 - 1) with (12 + k * 13) by lia.
      rewrite Z.div_add by lia. change (12 / 13) with 0. lia.
    - replace ((16 * n + 13 - 1) / 13) with (k + 1).
      2:{ apply (Z.div_unique _ 13 _ (j - 1)); lia. }
      assert (Hg0 : g <> 0).
      { unfold g, u. apply pow2_not_divisible; lia. }
      assert (Hl : l = loc_Inexact (2 * g ?= 13)).
      { unfold l. rewrite (proj2 (Z.eqb_neq g 0) Hg0). reflexivity. }
      apply (ceil_of_scaled k (Zpos m') w t Hw Ht). rewrite <- Huwt.
      apply (rounded_quotient_range k j u f g (Zpos qq) l (Zpos m' * t) big);
        try assumption; try lia.
      + intros Hf0. destruct big eqn:Eb; [| reflexivity]. exfalso.
        specialize (Hb54 eq_refl).
        pose proof (digits_bounds qq) as Hbq. rewrite Hb54 in Hbq.
        change (2 ^ (54 - 1)) with 9007199254740992 in Hbq.
        destruct Hu16 as [Hu8 | Hu16]; [| nia].
        rewrite Hu8 in *. lia.
      + intros Eb. apply H53, Hb53, Eb.
      + intros Eb. destruct (H54 (Hb54 Eb)) as (l' & HV & _ & Hup).
        exists l'. split; assumption. }
  rewrite Hc.
  assert (Hcb : 0 < ceil_div (16 * n) 13 < 2 ^ 53).
  { unfold ceil_div. change (2 ^ 53) with 9007199254740992.
    split; [apply Z.div_str_pos; lia | apply Z.div_lt_upper_bound; lia]. }
  apply int_of_float64_of_int. exact Hcb.
Qed.

(** ** Length of the encoded output *)

(** [ceil_div a b] is the least integer [c] with [a <= b * c]. *)
Lemma ceil_div_spec a b :
  0 < b -> b * (ceil_div a b - 1) < a <= b * ceil_div a b.
Proof.
  intros Hb. unfold ceil_div.
  pose proof (Z.div_mod (a + b - 1) b ltac:(lia)) as Hdm.
  pose proof (Z.mod_pos_bound (a + b - 1) b Hb) as Hm. lia.
Qed.

(** C3, as stated, fails at the length [13 * 2^46 + 9]: the quotient
    [float64(n) * 16.0 / 13.0] is rounded to the integer below it, and
    [EncodedLen n] is one less than the ceiling of [16 n / 13]. *)
Lemma EncodedLen_rounding_counterexample :
  0 <= 914793674309641 /\
  EncodedLen 914793674309641 = 1125899906842635 /\
  ceil_div (16 * 914793674309641) 13 = 1125899906842636.
Proof. split; [lia |]. split; vm_compute; reflexivity. Qed.

(** C3, amended.  For every input [src] of fewer than
    [914793674309641 = 13 * 2^46 + 9] bytes (more than the Go runtime can
    allocate), [n = len src]: [Encode] into a buffer of at least
    [EncodedLen n] bytes returns; whenever [Encode] returns, the count of
    symbols written is at most [EncodedLen n]; and [EncodedLen m] is the
    ceiling of [16 m / 13] for every [m] in [0, 914793674309641). *)
Theorem Encode_length_bound encoder enc src :
  NewEncoding encoder = Ok enc -> Forall is_byte src ->
  Z.of_nat (length src) < 914793674309641 ->
  let n := Z.of_nat (length src) in
  (forall dst,
     EncodedLen n <= Z.of_nat (length dst) ->
     exists dst' k, Encode enc dst src = Ok (dst', k)) /\
  (forall dst dst' k,
     Encode enc dst src = Ok (dst', k) -> Z.of_nat k <= EncodedLen n) /\
  (forall m, 0 <= m < 914793674309641 -> EncodedLen m = ceil_div (16 * m) 13).
Proof.
  intros Hnew Hsrc Hlen n. pose proof (NewEncoding_table_ok _ _ Hnew) as Ht.
  pose proof (enc_digits_count src Hsrc) as Hcount. fold n in Hcount.
  assert (HE : EncodedLen n = ceil_div (16 * n) 13)
    by (apply EncodedLen_exact; unfold n; lia).
  split; [| split].
  - intros dst Hroom. rewrite Encode_run by assumption.
    rewrite decide_True by lia. eauto.
  - intros dst dst' k. rewrite Encode_run by assumption.
    destruct (decide _); [| discriminate].
    intros H. inversion H; subst. lia.
  - intros m Hm. apply EncodedLen_exact. exact Hm.
Qed.

Lemma Encode_length_bound_witness :
  (forall dst,
     EncodedLen 4 <= Z.of_nat (length dst) ->
     exists dst' k, Encode std dst [116; 101; 115; 116] = Ok (dst', k)) /\
  (forall dst dst' k,
     Encode std dst [116; 101; 115; 116] = Ok (dst', k) -> Z.of_nat k <= EncodedLen 4) /\
  (forall m, 0 <= m < 914793674309641 -> EncodedLen m = ceil_div (16 * m) 13).
Proof.
  apply (Encode_length_bound encodeStd std [116; 101; 115; 116]).
  - vm_compute. reflexivity.
  - repeat (constructor; [unfold is_byte; lia |]). constructor.
  - vm_compute. reflexivity.
Defined.

(** ** Slices of one array: the stores and the reads *)

Lemma length_view arr s : in_array arr s -> length (view arr s) = s_len s.
Proof. unfold in_array, view. intros H. rewrite length_take, length_drop. lia. Qed.

Lemma lookup_view arr s i :
  view arr s !! i = if decide (i < s_len s)%nat then arr !! (s_off s + i)%nat else None.
Proof. unfold view. rewrite lookup_take, lookup_drop. reflexivity. Qed.

Lemma written_view arr s :
  in_array arr s -> written arr (s_off s) (view arr s) = arr.
Proof.
  intros H. unfold written. rewrite length_view by exact H. unfold view.
  rewrite <- drop_drop, take_drop, take_drop. reflexivity.
Qed.

Lemma view_written arr s v :
  in_array arr s -> length v = s_len s -> view (written arr (s_off s) v) s = v.
Proof.
  unfold in_array, view, written. intros H Hv.
  rewrite drop_app_length' by (rewrite length_take; lia).
  apply take_app_length'. symmetry. exact Hv.
Qed.

Lemma lookup_written_outside arr off v j :
  (off + length v <= length arr)%nat ->
  (j < off)%nat \/ (off + length v <= j)%nat ->
  written arr off v !! j = arr !! j.
Proof.
  intros H Hj. unfold written.
  assert (Ht : length (take off arr) = off) by (rewrite length_take; lia).
  destruct Hj as [Hj | Hj].
  - rewrite lookup_app_l by lia. apply lookup_take_lt. exact Hj.
  - rewrite lookup_app_r by lia. rewrite lookup_app_r by lia.
    rewrite lookup_drop. f_equal. lia.
Qed.

(** A store to [dst] is not seen through a slice that shares nothing
    with [dst]. *)
Lemma view_written_apart arr dst src v :
  in_array arr dst -> no_overlap dst src -> length v = s_len dst ->
  view (written arr (s_off dst) v) src = view arr src.
Proof.
  unfold in_array, no_overlap. intros Hd Hno Hv. apply list_eq. intros i.
  rewrite !lookup_view. destruct (decide (i < s_len src)%nat); [| reflexivity].
  apply lookup_written_outside; lia.
Qed.

Lemma load_view arr s i :
  load arr s i =
  match view arr s !! i with Some x => Ok x | None => Panic index_out_of_range end.
Proof.
  unfold load. rewrite lookup_view.
  destruct (decide (i < s_len s)%nat); reflexivity.
Qed.

Lemma store_length v n x v' : store v n x = Ok v' -> length v' = length v.
Proof.
  unfold store. destruct (decide _); [| discriminate].
  intros H. injection H as <-. apply length_insert.
Qed.

(** A store through the slice is a store in the array at the offset of
    the slice. *)
Lemma store_at_written arr s v n x :
  in_array arr s -> length v = s_len s ->
  store_at (written arr (s_off s) v) s n x =
  let! v' := store v n x in Ok (written arr (s_off s) v').
Proof.
  unfold in_array. intros H Hv. unfold store_at, store.
  rewrite length_written by lia. rewrite Hv.
  destruct (decide (n < s_len s)%nat) as [Hn | Hn]; [| reflexivity].
  rewrite decide_True by lia. cbn [bind]. f_equal.
  unfold written. rewrite length_insert.
  assert (Ht : length (take (s_off s) arr) = s_off s) by (rewrite length_take; lia).
  rewrite insert_app_r_alt by lia. rewrite Ht.
  replace (s_off s + n - s_off s)%nat with n by lia.
  rewrite insert_app_l by lia. reflexivity.
Qed.

Lemma Encode_iter_length enc b v n q nb v' n' q' nb' :
  Encode_iter enc b v n q nb = Ok (v', n', q', nb') -> length v' = length v.
Proof.
  unfold Encode_iter. cbv zeta.
  destruct (13 <? _); [| intros H; injection H as <- _ _ _; reflexivity].
  destruct (88 <? _);
    (destruct (index _ _) as [c0 |]; [| discriminate]; cbn [bind];
     destruct (store v n c0) as [v1 |] eqn:E1; [| discriminate]; cbn [bind];
     destruct (index _ _) as [c1 |]; [| discriminate]; cbn [bind];
     destruct (store v1 (S n) c1) as [v2 |] eqn:E2; [| discriminate]; cbn [bind];
     intros H; injection H as <- _ _ _;
     rewrite (store_length _ _ _ _ E2); apply (store_length _ _ _ _ E1)).
Qed.

Lemma Encode_iter_at_written enc b arr dst v n q nb :
  in_array arr dst -> length v = s_len dst ->
  Encode_iter_at enc b (written arr (s_off dst) v) dst n q nb =
  let! (v', n', q', nb') := Encode_iter enc b v n q nb in
  Ok (written arr (s_off dst) v', n', q', nb').
Proof.
  intros H Hv. unfold Encode_iter_at, Encode_iter. cbv zeta.
  destruct (13 <? _); [| reflexivity].
  destruct (88 <? _);
    (destruct (index _ _) as [c0 |]; [| reflexivity]; cbn [bind];
     rewrite store_at_written by assumption;
     destruct (store v n c0) as [v1 |] eqn:E1; [| reflexivity]; cbn [bind];
     destruct (index _ _) as [c1 |]; [| reflexivity]; cbn [bind];
     rewrite store_at_written
       by (try assumption; rewrite (store_length _ _ _ _ E1); exact Hv);
     destruct (store v1 (S n) c1) as [v2 |]; reflexivity).
Qed.

Lemma Encode_loop_at_written enc arr dst src :
  in_array arr dst -> in_array arr src -> no_overlap dst src ->
  forall k i v n q nb,
  length v = s_len dst -> (i + k = s_len src)%nat ->
  Encode_loop_at enc k i (written arr (s_off dst) v) dst src n q nb =
  let! (v', n', q', nb') := Encode_loop enc (drop i (view arr src)) v n q nb in
  Ok (written arr (s_off dst) v', n', q', nb').
Proof.
  intros Hd Hs Hno. induction k as [| k IH]; intros i v n q nb Hv Hik.
  - rewrite drop_ge by (rewrite length_view by exact Hs; lia). reflexivity.
  - cbn [Encode_loop_at]. rewrite load_view, view_written_apart by assumption.
    destruct (view arr src !! i) as [b |] eqn:Eb.
    + rewrite (drop_S _ _ _ Eb). cbn [bind Encode_loop].
      rewrite Encode_iter_at_written by assumption.
      destruct (Encode_iter enc b v n q nb) as [[[[v1 n1] q1] nb1] |] eqn:E1;
        [| reflexivity].
      cbn [bind]. apply IH; [| lia].
      rewrite (Encode_iter_length _ _ _ _ _ _ _ _ _ _ E1). exact Hv.
    + apply lookup_ge_None in Eb. rewrite length_view in Eb by exact Hs. lia.
Qed.

Lemma Encode_flush_at_written enc arr dst v n q nb :
  in_array arr dst -> length v = s_len dst ->
  Encode_flush_at enc (written arr (s_off dst) v) dst n q nb =
  let! (v', k) := Encode_flush enc v n q nb in Ok (written arr (s_off dst) v', k).
Proof.
  intros H Hv. unfold Encode_flush_at, Encode_flush.
  destruct (0 <? nb); [| reflexivity].
  destruct (index _ _) as [c0 |]; [| reflexivity]. cbn [bind].
  rewrite store_at_written by assumption.
  destruct (store v n c0) as [v1 |] eqn:E1; [| reflexivity]. cbn [bind].
  destruct ((7 <? nb) || (90 <? q)); [| reflexivity].
  destruct (index _ _) as [c1 |]; [| reflexivity]. cbn [bind].
  rewrite store_at_written
    by (try assumption; rewrite (store_length _ _ _ _ E1); exact Hv).
  destruct (store v1 (S n) c1) as [v2 |]; reflexivity.
Qed.

Lemma Encode_loop_length enc src :
  forall v n q nb v' n' q' nb',
  Encode_loop enc src v n q nb = Ok (v', n', q', nb') -> length v' = length v.
Proof.
  induction src as [| b src IH]; intros v n q nb v' n' q' nb'; cbn [Encode_loop].
  - intros H. injection H as <- _ _ _. reflexivity.
  - destruct (Encode_iter enc b v n q nb) as [[[[v1 n1] q1] nb1] |] eqn:E1;
      [| discriminate].
    cbn [bind]. intros H. rewrite (IH _ _ _ _ _ _ _ _ H).
    apply (Encode_iter_length _ _ _ _ _ _ _ _ _ _ E1).
Qed.

(** On two slices of one array that share no element, [Encode] does what
    it does on two separate lists. *)
Lemma Encode_at_apart enc arr dst src :
  in_array arr dst -> in_array arr src -> no_overlap dst src ->
  Encode_at enc arr dst src =
  let! (v', k) := Encode enc (view arr dst) (view arr src) in
  Ok (written arr (s_off dst) v', k).
Proof.
  intros Hd Hs Hno. unfold Encode_at, Encode.
  rewrite <- (written_view arr dst Hd) at 1.
  rewrite (Encode_loop_at_written enc arr dst src Hd Hs Hno)
    by (try apply length_view; try assumption; lia).
  rewrite drop_0.
  destruct (Encode_loop enc (view arr src) (view arr dst) 0 0 0)
    as [[[[v1 n1] q1] nb1] |] eqn:E1; [| reflexivity].
  cbn [bind]. apply Encode_flush_at_written; [exact Hd |].
  rewrite (Encode_loop_length _ _ _ _ _ _ _ _ _ _ E1). apply length_view. exact Hd.
Qed.

Lemma Decode_drain_length fuel :
  forall v n q nb v' n' q' nb',
  Decode_drain fuel v n q nb = Ok (v', n', q', nb') -> length v' = length v.
Proof.
  induction fuel as [| fuel IH]; intros v n q nb v' n' q' nb'; cbn [Decode_drain];
    [discriminate |].
  destruct (store v n (to_byte q)) as [v1 |] eqn:E1; [| discriminate]. cbn [bind].
  cbv zeta. destruct (7 <? _).
  - intros H. rewrite (IH _ _ _ _ _ _ _ _ H). apply (store_length _ _ _ _ E1).
  - intros H. injection H as <- _ _ _. apply (store_length _ _ _ _ E1).
Qed.

Lemma Decode_drain_at_written arr dst fuel :
  in_array arr dst ->
  forall v n q nb, length v = s_len dst ->
  Decode_drain_at fuel (written arr (s_off dst) v) dst n q nb =
  let! (v', n', q', nb') := Decode_drain fuel v n q nb in
  Ok (written arr (s_off dst) v', n', q', nb').
Proof.
  intros Hd. induction fuel as [| fuel IH]; intros v n q nb Hv; [reflexivity |].
  cbn [Decode_drain_at Decode_drain]. rewrite store_at_written by assumption.
  destruct (store v n (to_byte q)) as [v1 |] eqn:E1; [| reflexivity]. cbn [bind].
  cbv zeta. destruct (7 <? _); [| reflexivity].
  apply IH. rewrite (store_length _ _ _ _ E1). exact Hv.
Qed.

Lemma Decode_loop_at_written enc arr dst src :
  in_array arr dst -> in_array arr src -> no_overlap dst src ->
  forall k i v n q nb x,
  length v = s_len dst -> (i + k = s_len src)%nat ->
  Decode_loop_at enc k i (written arr (s_off dst) v) dst src n q nb x =
  let! (v', n', err) := Decode_loop enc (drop i (view arr src)) i v n q nb x in
  Ok (written arr (s_off dst) v', n', err).
Proof.
  intros Hd Hs Hno. induction k as [| k IH]; intros i v n q nb x Hv Hik.
  - rewrite drop_ge by (rewrite length_view by exact Hs; lia).
    cbn [Decode_loop_at Decode_loop]. destruct (negb (x =? -1)); [| reflexivity].
    rewrite store_at_written by assumption.
    destruct (store v n _) as [v1 |]; reflexivity.
  - cbn [Decode_loop_at]. rewrite load_view, view_written_apart by assumption.
    destruct (view arr src !! i) as [c |] eqn:Ec.
    + rewrite (drop_S _ _ _ Ec). cbn [bind Decode_loop].
      destruct (index (decodeMap enc) c) as [d |]; [| reflexivity]. cbn [bind].
      destruct (d =? 255); [reflexivity |].
      destruct (x =? -1); [apply IH; [exact Hv | lia] |].
      cbv zeta. rewrite Decode_drain_at_written by assumption. rewrite Hv.
      destruct (Decode_drain _ v n _ _) as [[[[v1 n1] q1] nb1] |] eqn:E1;
        [| reflexivity].
      cbn [bind]. apply IH; [| lia].
      rewrite (Decode_drain_length _ _ _ _ _ _ _ _ _ E1). exact Hv.
    + apply lookup_ge_None in Ec. rewrite length_view in Ec by exact Hs. lia.
Qed.

(** The same for [Decode]. *)
Lemma Decode_at_apart enc arr dst src :
  in_array arr dst -> in_array arr src -> no_overlap dst src ->
  Decode_at enc arr dst src =
  let! (v', n, err) := Decode enc (view arr dst) (view arr src) in
  Ok (written arr (s_off dst) v', n, err).
Proof.
  intros Hd Hs Hno. unfold Decode_at, Decode.
  rewrite <- (written_view arr dst Hd) at 1.
  rewrite (Decode_loop_at_written enc arr dst src Hd Hs Hno)
    by (try apply length_view; try assumption; lia).
  rewrite drop_0. reflexivity.
Qed.

Lemma written_nested arr s out :
  in_array arr s -> (length out <= s_len s)%nat ->
  written arr (s_off s) (written (view arr s) 0 out) = written arr (s_off s) out.
Proof.
  intros H Hout. pose proof (length_view arr s H) as Hl. unfold in_array in H.
  unfold written at 1 3.
  rewrite (length_written (view arr s) 0 out) by (simpl; lia). rewrite Hl.
  unfold written. rewrite take_0. cbn [app Nat.add].
  rewrite <- !app_assoc. do 2 f_equal.
  rewrite <- (drop_drop arr (length out) (s_off s)).
  rewrite <- (take_drop (s_len s) (drop (s_off s) arr)) at 1.
  fold (view arr s). rewrite drop_app_le by lia.
  rewrite drop_drop. reflexivity.
Qed.

(** What [Encode] does on slices that share no element: it returns when
    [dst] has room for the symbols, and panics otherwise. *)
Lemma Encode_at_run enc arr dst src :
  table_ok enc -> Forall is_byte (view arr src) ->
  in_array arr dst -> in_array arr src -> no_overlap dst src ->
  let ds := enc_digits (view arr src) 0 0 in
  Encode_at enc arr dst src =
  if decide (length ds <= s_len dst)%nat then
    Ok (written arr (s_off dst) (map (sym enc) ds), length ds)
  else Panic index_out_of_range.
Proof.
  intros Ht Hb Hd Hs Hno ds. rewrite Encode_at_apart by assumption.
  rewrite Encode_run by assumption. fold ds. rewrite length_view by exact Hd.
  destruct (decide _) as [Hroom |]; [| reflexivity].
  cbn [bind]. rewrite written_nested by (try assumption; rewrite length_map; exact Hroom).
  reflexivity.
Qed.

Lemma Decode_at_run enc arr dst src :
  table_ok enc -> Forall is_byte (view arr src) ->
  in_array arr dst -> in_array arr src -> no_overlap dst src ->
  let r := dec_out (map (digit enc) (view arr src)) 0 0 0 (-1) in
  Decode_at enc arr dst src =
  if decide (length r.1 <= s_len dst)%nat then
    Ok (written arr (s_off dst) r.1, length r.1, r.2)
  else Panic index_out_of_range.
Proof.
  intros Ht Hb Hd Hs Hno r. rewrite Decode_at_apart by assumption.
  rewrite Decode_run by assumption. cbv zeta. fold r. rewrite length_view by exact Hd.
  destruct (decide _) as [Hroom |]; [| reflexivity].
  cbn [bind]. rewrite written_nested by assumption. reflexivity.
Qed.

(** The first bytes of a slice after a write at its start. *)
Lemma take_view_written arr s out :
  in_array arr s -> (length out <= s_len s)%nat ->
  take (length out) (view (written arr (s_off s) out) s) = out.
Proof.
  unfold in_array, view, written. intros H Hout.
  rewrite drop_app_length' by (rewrite length_take; lia).
  rewrite take_take, Nat.min_l by exact Hout.
  apply take_app_length'. reflexivity.
Qed.

(** ** The string wrappers meet [Encode] and [Decode] *)

(** The buffer of [EncodeToString] can be allocated for an input of at
    most [13 * 2^44] bytes. *)
Lemma EncodedLen_room n :
  0 <= n <= 228698418577408 ->
  EncodedLen n = ceil_div (16 * n) 13 /\ 0 <= EncodedLen n <= maxAlloc.
Proof.
  intros Hn. rewrite EncodedLen_exact by lia. split; [reflexivity |].
  unfold ceil_div, maxAlloc. change (2 ^ 48) with 281474976710656. split.
  - apply Z.div_pos; lia.
  - apply Z.lt_succ_r. apply Z.div_lt_upper_bound; lia.
Qed.

Lemma make_run n :
  0 <= n <= maxAlloc -> make n = Ok (replicate (Z.to_nat n) 0).
Proof.
  intros Hn. unfold make.
  replace (n <? 0) with false by (symmetry; apply Z.ltb_ge; lia).
  replace (maxAlloc <? n) with false by (symmetry; apply Z.ltb_ge; lia).
  reflexivity.
Qed.

Lemma EncodeToString_run enc src :
  table_ok enc -> Forall is_byte src ->
  Z.of_nat (length src) <= 228698418577408 ->
  EncodeToString enc src = Ok (map (sym enc) (enc_digits src 0 0)).
Proof.
  intros Ht Hsrc Hlen. unfold EncodeToString.
  pose proof (enc_digits_count src Hsrc) as Hcount.
  destruct (EncodedLen_room (Z.of_nat (length src)) ltac:(lia)) as [Hex Hroom].
  rewrite make_run by exact Hroom. rewrite Hex in *.
  set (c := ceil_div (16 * Z.of_nat (length src)) 13) in *.
  cbn [bind]. rewrite Encode_run by assumption.
  rewrite length_replicate, decide_True by lia. cbn [bind].
  unfold slice_to.
  rewrite length_written by (rewrite length_map, length_replicate; simpl; lia).
  rewrite length_replicate, decide_True by lia.
  f_equal. rewrite <- (length_map (sym enc) (enc_digits src 0 0)).
  apply take_written_0. rewrite length_map, length_replicate. lia.
Qed.

(** One byte more, and the buffer of [EncodeToString] is above
    [maxAlloc]: [make] panics. *)
Lemma EncodeToString_above_maxAlloc enc src :
  228698418577408 < Z.of_nat (length src) < 914793674309641 ->
  EncodeToString enc src = Panic "makeslice: len out of range".
Proof.
  intros Hlen. unfold EncodeToString, make. rewrite EncodedLen_exact by lia.
  replace (maxAlloc <? ceil_div (16 * Z.of_nat (length src)) 13) with true.
  - rewrite orb_true_r. reflexivity.
  - symmetry. apply Z.ltb_lt. unfold ceil_div, maxAlloc.
    change (2 ^ 48) with 281474976710656.
    apply Z.lt_le_trans with ((281474976710656 + 1) * 13 / 13).
    + rewrite Z.div_mul by lia. lia.
    + apply Z.div_le_mono; lia.
Qed.

Lemma DecodeString_above_maxAlloc enc s :
  maxAlloc < Z.of_nat (length s) ->
  DecodeString enc s = Panic "makeslice: len out of range".
Proof.
  intros Hlen. unfold DecodeString, make, DecodedLen.
  replace (maxAlloc <? Z.of_nat (length s)) with true
    by (symmetry; apply Z.ltb_lt; exact Hlen).
  rewrite orb_true_r. reflexivity.
Qed.

Lemma DecodeString_run enc s :
  table_ok enc -> Forall is_byte s -> Z.of_nat (length s) <= maxAlloc ->
  DecodeString enc s = Ok (dec_out (map (digit enc) s) 0 0 0 (-1)).
Proof.
  intros Ht Hs Hlen. unfold DecodeString, DecodedLen.
  rewrite make_run by lia.
  cbn [bind]. rewrite Nat2Z.id, Decode_run by assumption. cbv zeta.
  pose proof (dec_out_length _ (digits_of_table enc s Ht) 0 0 0 (-1) dec_inv_init) as Hl.
  rewrite length_map in Hl. unfold pending in Hl. simpl in Hl.
  set (r := dec_out (map (digit enc) s) 0 0 0 (-1)) in *.
  rewrite length_replicate, decide_True by lia. cbn [bind].
  unfold slice_to.
  rewrite length_written by (rewrite length_replicate; simpl; lia).
  rewrite length_replicate, decide_True by lia. cbn [bind].
  rewrite take_written_0 by (rewrite length_replicate; lia).
  destruct r. reflexivity.
Qed.

(** X1. [DecodeString (EncodeToString src)] is [src] with no error, for
    every table of 91 distinct bytes and every input of at most
    [13 * 2^44] bytes, the longest for which [EncodedLen] is within
    [maxAlloc]: the buffer of [EncodedLen] bytes that [EncodeToString]
    allocates is large enough, and neither wrapper panics. *)
Theorem DecodeString_EncodeToString encoder enc src :
  NewEncoding encoder = Ok enc -> NoDup encoder -> Forall is_byte encoder ->
  Forall is_byte src -> Z.of_nat (length src) <= 228698418577408 ->
  exists s, EncodeToString enc src = Ok s /\ DecodeString enc s = Ok (src, None).
Proof.
  intros Hnew Hnd Hb Hsrc Hlen.
  pose proof (NewEncoding_table_ok _ _ Hnew) as Ht.
  pose proof (NewEncoding_table_inverse _ _ Hnew Hnd Hb) as Hinv.
  destruct (syms_of_digits enc _ Hinv (enc_digits_range src Hsrc)) as [Hsyms Hdigits].
  exists (map (sym enc) (enc_digits src 0 0)). split.
  - apply EncodeToString_run; assumption.
  - rewrite DecodeString_run; try assumption.
    + rewrite Hdigits.
      rewrite (roundtrip_digits src Hsrc 0 0 0 0 0 [] coupled_init). reflexivity.
    + rewrite length_map. pose proof (enc_digits_count src Hsrc) as Hcount.
      destruct (EncodedLen_room (Z.of_nat (length src)) ltac:(lia)) as [Hex Hroom].
      lia.
Qed.

Lemma DecodeString_EncodeToString_witness :
  exists s, EncodeToString std [116; 101; 115; 116] = Ok s /\
            DecodeString std s = Ok ([116; 101; 115; 116], None).
Proof.
  apply (DecodeString_EncodeToString encodeStd std [116; 101; 115; 116]).
  - vm_compute. reflexivity.
  - exact encodeStd_NoDup.
  - exact encodeStd_bytes.
  - repeat (constructor; [unfold is_byte; lia |]). constructor.
  - vm_compute. discriminate.
Defined.

(** X2. [DecodeString] returns what [Decode] returns.  For a string of
    at most [maxAlloc] bytes, whatever bytes it holds and whatever
    alphabet the table was built from, [Decode] returns in the buffer of
    [DecodedLen (len s)] zero bytes that [DecodeString] allocates, and
    [DecodeString] returns the bytes [Decode] wrote there and the error
    [Decode] returned, no more bytes than [s] has symbols; they are also
    the count, the error and the bytes of [Decode] on any slices of an
    array that share no element, [src] holding [s]. *)
Theorem DecodeString_is_Decode encoder enc s :
  NewEncoding encoder = Ok enc -> Forall is_byte s ->
  Z.of_nat (length s) <= maxAlloc ->
  exists dbuf n err,
    Decode enc (replicate (length s) 0) s = Ok (dbuf, n, err) /\
    DecodeString enc s = Ok (take n dbuf, err) /\
    (n <= length s)%nat /\
    forall arr dst src arr' n' err',
      in_array arr dst -> in_array arr src -> no_overlap dst src ->
      view arr src = s ->
      Decode_at enc arr dst src = Ok (arr', n', err') ->
      n' = n /\ err' = err /\ take n' (view arr' dst) = take n dbuf.
Proof.
  intros Hnew Hs Hlen. pose proof (NewEncoding_table_ok _ _ Hnew) as Ht.
  rewrite DecodeString_run, Decode_run by assumption. cbv zeta.
  pose proof (dec_out_length _ (digits_of_table enc s Ht) 0 0 0 (-1) dec_inv_init) as Hl.
  rewrite length_map in Hl. unfold pending in Hl. simpl in Hl.
  destruct (dec_out (map (digit enc) s) 0 0 0 (-1)) as [out err] eqn:Er.
  cbn [fst snd] in *. rewrite length_replicate, decide_True by lia.
  assert (Htake : take (length out) (written (replicate (length s) 0) 0 out) = out)
    by (apply take_written_0; rewrite length_replicate; lia).
  eexists _, _, _. split; [reflexivity |]. rewrite Htake.
  split; [reflexivity |]. split; [lia |].
  intros arr dst src arr' n' err' Hd Hsrc Hno Hview.
  rewrite Decode_at_run by (try assumption; rewrite Hview; exact Hs).
  cbv zeta. rewrite Hview, Er. cbn [fst snd].
  destruct (decide _) as [Hroom |]; [| discriminate].
  intros H. injection H as <- <- <-.
  split; [reflexivity |]. split; [reflexivity |].
  apply take_view_written; assumption.
Qed.

Lemma DecodeString_is_Decode_witness :
  exists dbuf n err,
    Decode std (replicate (length [102; 80; 32; 0; 255]) 0) [102; 80; 32; 0; 255]
      = Ok (dbuf, n, err) /\
    DecodeString std [102; 80; 32; 0; 255] = Ok (take n dbuf, err) /\
    (n <= length [102; 80; 32; 0; 255])%nat /\
    forall arr dst src arr' n' err',
      in_array arr dst -> in_array arr src -> no_overlap dst src ->
      view arr src = [102; 80; 32; 0; 255] ->
      Decode_at std arr dst src = Ok (arr', n', err') ->
      n' = n /\ err' = err /\ take n' (view arr' dst) = take n dbuf.
Proof.
  apply (DecodeString_is_Decode encodeStd std [102; 80; 32; 0; 255]).
  - vm_compute. reflexivity.
  - repeat (constructor; [unfold is_byte; lia |]). constructor.
  - vm_compute. discriminate.
Defined.

(** X3. [EncodeToString] returns what [Encode] writes.  For an input of
    at most [13 * 2^44] bytes the buffer of [EncodedLen (len src)] bytes
    is within [maxAlloc], [Encode] returns in it, and [EncodeToString]
    returns the symbols [Encode] wrote there; they are also the count
    and the symbols of [Encode] on any slices of an array that share no
    element, [src] holding the input. *)
Theorem EncodeToString_is_Encode encoder enc src :
  NewEncoding encoder = Ok enc -> Forall is_byte src ->
  Z.of_nat (length src) <= 228698418577408 ->
  exists buf k,
    Encode enc (replicate (Z.to_nat (EncodedLen (Z.of_nat (length src)))) 0) src
      = Ok (buf, k) /\
    EncodeToString enc src = Ok (take k buf) /\
    Z.of_nat k <= EncodedLen (Z.of_nat (length src)) <= maxAlloc /\
    forall arr dst srcs arr' k',
      in_array arr dst -> in_array arr srcs -> no_overlap dst srcs ->
      view arr srcs = src ->
      Encode_at enc arr dst srcs = Ok (arr', k') ->
      k' = k /\ take k' (view arr' dst) = take k buf.
Proof.
  intros Hnew Hsrc Hlen. pose proof (NewEncoding_table_ok _ _ Hnew) as Ht.
  pose proof (enc_digits_count src Hsrc) as Hcount.
  destruct (EncodedLen_room (Z.of_nat (length src)) ltac:(lia)) as [Hex Hroom].
  rewrite EncodeToString_run, Encode_run by assumption.
  set (out := map (sym enc) (enc_digits src 0 0)).
  assert (Hout : length out = length (enc_digits src 0 0)) by apply length_map.
  rewrite <- Hout in *.
  rewrite length_replicate, decide_True by lia.
  assert (Htake : take (length out)
            (written (replicate (Z.to_nat (EncodedLen (Z.of_nat (length src)))) 0) 0 out)
            = out)
    by (apply take_written_0; rewrite length_replicate; lia).
  eexists _, _. split; [reflexivity |]. rewrite Htake.
  split; [reflexivity |]. split; [lia |].
  intros arr dst srcs arr' k' Hd Hs Hno Hview.
  rewrite Encode_at_run by (try assumption; rewrite Hview; exact Hsrc).
  cbv zeta. rewrite Hview. fold out. rewrite <- Hout.
  destruct (decide _) as [Hr |]; [| discriminate].
  intros H. injection H as <- <-.
  split; [reflexivity |]. apply take_view_written; assumption.
Qed.

Lemma EncodeToString_is_Encode_witness :
  exists buf k,
    Encode std (replicate (Z.to_nat (EncodedLen (Z.of_nat (length [116; 101; 115; 116])))) 0)
           [116; 101; 115; 116] = Ok (buf, k) /\
    EncodeToString std [116; 101; 115; 116] = Ok (take k buf) /\
    Z.of_nat k <= EncodedLen (Z.of_nat (length [116; 101; 115; 116])) <= maxAlloc /\
    forall arr dst srcs arr' k',
      in_array arr dst -> in_array arr srcs -> no_overlap dst srcs ->
      view arr srcs = [116; 101; 115; 116] ->
      Encode_at std arr dst srcs = Ok (arr', k') ->
      k' = k /\ take k' (view arr' dst) = take k buf.
Proof.
  apply (EncodeToString_is_Encode encodeStd std [116; 101; 115; 116]).
  - vm_compute. reflexivity.
  - repeat (constructor; [unfold is_byte; lia |]). constructor.
  - vm_compute. discriminate.
Defined.

(** ** What [Encode] writes *)

(** X4. Every byte [Encode] writes is a symbol of the alphabet the table
    was built from, for any alphabet [NewEncoding] accepts, also one with
    repeated symbols. *)
Theorem Encode_writes_alphabet encoder enc src dst dst' k :
  NewEncoding encoder = Ok enc -> Forall is_byte src ->
  Encode enc dst src = Ok (dst', k) ->
  Forall (fun c => In c encoder) (take k dst').
Proof.
  intros Hnew Hsrc. pose proof (NewEncoding_table_ok _ _ Hnew) as Ht.
  destruct (NewEncoding_Ok _ _ Hnew) as (_ & _ & He & _).
  rewrite Encode_run by assumption.
  destruct (decide _) as [Hroom |]; [| discriminate].
  intros H. inversion H; subst.
  rewrite <- (length_map (sym enc) (enc_digits src 0 0)).
  rewrite take_written_0 by (rewrite length_map; exact Hroom).
  apply Forall_map.
  eapply Forall_impl; [apply (enc_digits_range src Hsrc) |].
  intros d Hd. simpl. apply list_elem_of_In.
  apply list_elem_of_lookup. exists (Z.to_nat d). apply lookup_sym; assumption.
Qed.

Lemma Encode_writes_alphabet_witness :
  Forall (fun c => In c encodeStd) (take 5 [102; 80; 78; 75; 100; 0]).
Proof.
  apply (Encode_writes_alphabet encodeStd std [116; 101; 115; 116]
           (replicate 6 0) [102; 80; 78; 75; 100; 0] 5).
  - vm_compute. reflexivity.
  - repeat (constructor; [unfold is_byte; lia |]). constructor.
  - vm_compute. reflexivity.
Defined.

(** Every pair of digits of the loop takes at most 14 bits out of the queue. *)
Lemma enc_loop_digits_count_lower src :
  Forall is_byte src -> forall q nb, enc_inv q nb ->
  8 * Z.of_nat (length src) + nb
  <= 7 * Z.of_nat (length (enc_loop_digits src q nb)) + (enc_final src q nb).2.
Proof.
  induction src as [| b src IH]; intros Hsrc q nb Hinv; [simpl; lia |].
  apply Forall_is_byte_cons in Hsrc as [Hb Hsrc]. cbn [enc_loop_digits enc_final length].
  destruct (13 <? nb + 8) eqn:E.
  - apply Z.ltb_lt in E. cbn [length].
    destruct (enc_inv_emit q nb b Hb Hinv E) as [Hinv' _].
    specialize (IH Hsrc _ _ Hinv').
    pose proof (width_cases (q + b * 2 ^ nb)). lia.
  - apply Z.ltb_ge in E.
    specialize (IH Hsrc _ _ (enc_inv_keep q nb b Hb Hinv E)). lia.
Qed.

Lemma flush_digits_count_lower q nb :
  enc_inv q nb -> nb <= 7 * Z.of_nat (length (flush_digits q nb)).
Proof.
  intros [Hnb Hq]. unfold flush_digits.
  destruct (0 <? nb) eqn:E0; [apply Z.ltb_lt in E0 | apply Z.ltb_ge in E0; simpl; lia].
  destruct ((7 <? nb) || (90 <? q)) eqn:E1; [simpl; lia |].
  apply orb_false_iff in E1 as [E1 _]. apply Z.ltb_ge in E1. simpl. lia.
Qed.

(** X5. The encoding is never shorter than [8/7] of the input: a pair of
    symbols carries at most 14 bits, so the count [k] that [Encode]
    returns satisfies [8 * len src <= 7 * k]. *)
Theorem Encode_length_lower_bound encoder enc src dst dst' k :
  NewEncoding encoder = Ok enc -> Forall is_byte src ->
  Encode enc dst src = Ok (dst', k) ->
  8 * Z.of_nat (length src) <= 7 * Z.of_nat k.
Proof.
  intros Hnew Hsrc. pose proof (NewEncoding_table_ok _ _ Hnew) as Ht.
  rewrite Encode_run by assumption.
  destruct (decide _); [| discriminate].
  intros H. inversion H; subst. unfold enc_digits. rewrite length_app.
  pose proof (enc_loop_digits_count_lower src Hsrc 0 0 enc_inv_init) as H1.
  pose proof (flush_digits_count_lower _ _ (enc_final_inv src Hsrc 0 0 enc_inv_init)) as H2.
  lia.
Qed.

Lemma Encode_length_lower_bound_witness : 8 * Z.of_nat 4 <= 7 * Z.of_nat 5.
Proof.
  apply (Encode_length_lower_bound encodeStd std [116; 101; 115; 116]
           (replicate 6 0) [102; 80; 78; 75; 100; 0] 5).
  - vm_compute. reflexivity.
  - repeat (constructor; [unfold is_byte; lia |]). constructor.
  - vm_compute. reflexivity.
Defined.

(** X6. What [Encode] writes does not depend on the buffer, for a [dst]
    that shares no element with [src]: when it returns the count [k], it
    returns [k] and the same [k] symbols for the same input in every
    array and every [dst] of at least [k] bytes apart from [src], leaves
    the length of the array and every element outside the first [k] of
    [dst] as they were, and panics with an index out of range in every
    shorter [dst]. *)
Theorem Encode_buffer_independent encoder enc arr1 dst1 src1 arr1' k arr2 dst2 src2 :
  NewEncoding encoder = Ok enc -> Forall is_byte (view arr1 src1) ->
  in_array arr1 dst1 -> in_array arr1 src1 -> no_overlap dst1 src1 ->
  Encode_at enc arr1 dst1 src1 = Ok (arr1', k) ->
  in_array arr2 dst2 -> in_array arr2 src2 -> no_overlap dst2 src2 ->
  view arr2 src2 = view arr1 src1 ->
  ((k <= s_len dst2)%nat ->
   exists arr2',
     Encode_at enc arr2 dst2 src2 = Ok (arr2', k) /\
     take k (view arr2' dst2) = take k (view arr1' dst1) /\
     length arr2' = length arr2 /\
     forall j, (j < s_off dst2)%nat \/ (s_off dst2 + k <= j)%nat ->
               arr2' !! j = arr2 !! j) /\
  ((s_len dst2 < k)%nat -> Encode_at enc arr2 dst2 src2 = Panic index_out_of_range).
Proof.
  intros Hnew Hb Hd1 Hs1 Hno1 H1 Hd2 Hs2 Hno2 Hview.
  pose proof (NewEncoding_table_ok _ _ Hnew) as Ht.
  rewrite Encode_at_run in H1 by assumption. cbv zeta in H1.
  rewrite Encode_at_run by (try assumption; rewrite Hview; exact Hb).
  cbv zeta. rewrite Hview.
  set (out := map (sym enc) (enc_digits (view arr1 src1) 0 0)) in *.
  assert (Hout : length out = length (enc_digits (view arr1 src1) 0 0))
    by apply length_map.
  rewrite <- Hout in *.
  destruct (decide (length out <= s_len dst1)%nat) as [Hroom |]; [| discriminate].
  injection H1 as <- <-. split.
  - intros Hk. rewrite decide_True by exact Hk.
    eexists. split; [reflexivity |].
    rewrite !take_view_written by assumption.
    split; [reflexivity |].
    unfold in_array in Hd2. split.
    + apply length_written. lia.
    + intros j Hj. apply lookup_written_outside; lia.
  - intros Hk. rewrite decide_False by lia. reflexivity.
Qed.

Lemma Encode_buffer_independent_witness :
  exists arr2',
    Encode_at std ([116; 101; 115; 116] ++ replicate 8 9) (mkSlice 4 8) (mkSlice 0 4)
      = Ok (arr2', 5%nat) /\
    take 5 (view arr2' (mkSlice 4 8))
      = take 5 (view [102; 80; 78; 75; 100; 0; 116; 101; 115; 116] (mkSlice 0 6)) /\
    length arr2' = length ([116; 101; 115; 116] ++ replicate 8 9) /\
    forall j, (j < s_off (mkSlice 4 8))%nat \/ (s_off (mkSlice 4 8) + 5 <= j)%nat ->
              arr2' !! j = ([116; 101; 115; 116] ++ replicate 8 9) !! j.
Proof.
  apply (Encode_buffer_independent encodeStd std
           (replicate 6 0 ++ [116; 101; 115; 116]) (mkSlice 0 6) (mkSlice 6 4)
           [102; 80; 78; 75; 100; 0; 116; 101; 115; 116] 5
           ([116; 101; 115; 116] ++ replicate 8 9) (mkSlice 4 8) (mkSlice 0 4)).
  - vm_compute. reflexivity.
  - repeat (constructor; [unfold is_byte; lia |]). constructor.
  - unfold in_array. simpl. lia.
  - unfold in_array. simpl. lia.
  - unfold no_overlap. simpl. lia.
  - vm_compute. reflexivity.
  - unfold in_array. simpl. lia.
  - unfold in_array. simpl. lia.
  - unfold no_overlap. simpl. lia.
  - reflexivity.
  - simpl. lia.
Defined.

(** The hypothesis on the slices is needed: on [dst = buf[:10]] and
    [src = buf[:8]] of one array holding "testdata", [Encode] overwrites
    the bytes it has not read yet, and the last four symbols are not
    those it writes to a buffer of its own. *)
Remark Encode_overlapping_buffers :
  Encode_at std ([116; 101; 115; 116; 100; 97; 116; 97] ++ [0; 0])
            (mkSlice 0 10) (mkSlice 0 8)
    = Ok ([102; 80; 78; 75; 55; 43; 112; 88; 121; 80], 10%nat) /\
  Encode std (replicate 10 0) [116; 101; 115; 116; 100; 97; 116; 97]
    = Ok ([102; 80; 78; 75; 55; 43; 54; 89; 77; 82], 10%nat).
Proof. split; vm_compute; reflexivity. Qed.

(** X7. What [Decode] writes does not depend on the buffer, for a [dst]
    that shares no element with [src]: when it returns the count [n]
    and the error [err], it returns the same count, error and [n] bytes
    for the same input in every array and every [dst] of at least [n]
    bytes apart from [src], leaves the length of the array and every
    element outside the first [n] of [dst] as they were, and panics with
    an index out of range in every shorter [dst]. *)
Theorem Decode_buffer_independent encoder enc arr1 dst1 src1 arr1' n err arr2 dst2 src2 :
  NewEncoding encoder = Ok enc -> Forall is_byte (view arr1 src1) ->
  in_array arr1 dst1 -> in_array arr1 src1 -> no_overlap dst1 src1 ->
  Decode_at enc arr1 dst1 src1 = Ok (arr1', n, err) ->
  in_array arr2 dst2 -> in_array arr2 src2 -> no_overlap dst2 src2 ->
  view arr2 src2 = view arr1 src1 ->
  ((n <= s_len dst2)%nat ->
   exists arr2',
     Decode_at enc arr2 dst2 src2 = Ok (arr2', n, err) /\
     take n (view arr2' dst2) = take n (view arr1' dst1) /\
     length arr2' = length arr2 /\
     forall j, (j < s_off dst2)%nat \/ (s_off dst2 + n <= j)%nat ->
               arr2' !! j = arr2 !! j) /\
  ((s_len dst2 < n)%nat -> Decode_at enc arr2 dst2 src2 = Panic index_out_of_range).
Proof.
  intros Hnew Hb Hd1 Hs1 Hno1 H1 Hd2 Hs2 Hno2 Hview.
  pose proof (NewEncoding_table_ok _ _ Hnew) as Ht.
  rewrite Decode_at_run in H1 by assumption. cbv zeta in H1.
  rewrite Decode_at_run by (try assumption; rewrite Hview; exact Hb).
  cbv zeta. rewrite Hview.
  destruct (dec_out (map (digit enc) (view arr1 src1)) 0 0 0 (-1)) as [out e] eqn:Er.
  cbn [fst snd] in *.
  destruct (decide (length out <= s_len dst1)%nat) as [Hroom |]; [| discriminate].
  injection H1 as <- <- <-. split.
  - intros Hk. rewrite decide_True by exact Hk.
    eexists. split; [reflexivity |].
    rewrite !take_view_written by assumption.
    split; [reflexivity |].
    unfold in_array in Hd2. split.
    + apply length_written. lia.
    + intros j Hj. apply lookup_written_outside; lia.
  - intros Hk. rewrite decide_False by lia. reflexivity.
Qed.

Lemma Decode_buffer_independent_witness :
  exists arr2',
    Decode_at std ([102; 80; 78; 75; 100] ++ replicate 8 9) (mkSlice 5 8) (mkSlice 0 5)
      = Ok (arr2', 4%nat, None) /\
    take 4 (view arr2' (mkSlice 5 8))
      = take 4 (view [116; 101; 115; 116; 0; 102; 80; 78; 75; 100] (mkSlice 0 5)) /\
    length arr2' = length ([102; 80; 78; 75; 100] ++ replicate 8 9) /\
    forall j, (j < s_off (mkSlice 5 8))%nat \/ (s_off (mkSlice 5 8) + 4 <= j)%nat ->
              arr2' !! j = ([102; 80; 78; 75; 100] ++ replicate 8 9) !! j.
Proof.
  apply (Decode_buffer_independent encodeStd std
           (replicate 5 0 ++ [102; 80; 78; 75; 100]) (mkSlice 0 5) (mkSlice 5 5)
           [116; 101; 115; 116; 0; 102; 80; 78; 75; 100] 4 None
           ([102; 80; 78; 75; 100] ++ replicate 8 9) (mkSlice 5 8) (mkSlice 0 5)).
  - vm_compute. reflexivity.
  - repeat (constructor; [unfold is_byte; lia |]). constructor.
  - unfold in_array. simpl. lia.
  - unfold in_array. simpl. lia.
  - unfold no_overlap. simpl. lia.
  - vm_compute. reflexivity.
  - unfold in_array. simpl. lia.
  - unfold in_array. simpl. lia.
  - unfold no_overlap. simpl. lia.
  - reflexivity.
  - simpl. lia.
Defined.

(** Here too the hypothesis is needed: on [dst = buf[2:]] and
    [src = buf[:5]] of one array holding "fPNKd", [Decode] stores at
    [buf[2]] before it reads it, and writes other bytes than in a buffer
    of its own. *)
Remark Decode_overlapping_buffers :
  Decode_at std ([102; 80; 78; 75; 100] ++ [0; 0; 0]) (mkSlice 2 6) (mkSlice 0 5)
    = Ok ([102; 80; 116; 101; 119; 192; 0; 0], 4%nat, None) /\
  Decode std (replicate 6 0) [102; 80; 78; 75; 100]
    = Ok ([116; 101; 115; 116; 0; 0], 4%nat, None).
Proof. split; vm_compute; reflexivity. Qed.

(** X8. For an alphabet of 91 distinct bytes, [Encode] is injective:
    two inputs for which it returns the same count and the same symbols
    are equal. *)
Theorem Encode_injective encoder enc src1 src2 dst1 dst2 dst1' dst2' k :
  NewEncoding encoder = Ok enc -> NoDup encoder -> Forall is_byte encoder ->
  Forall is_byte src1 -> Forall is_byte src2 ->
  Encode enc dst1 src1 = Ok (dst1', k) -> Encode enc dst2 src2 = Ok (dst2', k) ->
  take k dst1' = take k dst2' ->
  src1 = src2.
Proof.
  intros Hnew Hnd Hb Hs1 Hs2.
  pose proof (NewEncoding_table_ok _ _ Hnew) as Ht.
  pose proof (NewEncoding_table_inverse _ _ Hnew Hnd Hb) as Hinv.
  rewrite !Encode_run by assumption.
  destruct (decide _) as [Hr1 |]; [| discriminate].
  destruct (decide _) as [Hr2 |]; [| discriminate].
  intros H1 H2 Heq. injection H1 as <- <-. injection H2 as <- Hk.
  pose proof (take_written_0 dst1 (map (sym enc) (enc_digits src1 0 0))) as E1.
  pose proof (take_written_0 dst2 (map (sym enc) (enc_digits src2 0 0))) as E2.
  rewrite length_map in E1, E2.
  rewrite E1 in Heq by exact Hr1. rewrite <- Hk in Heq.
  rewrite E2 in Heq by exact Hr2.
  apply (f_equal (map (digit enc))) in Heq.
  destruct (syms_of_digits enc _ Hinv (enc_digits_range src1 Hs1)) as [_ Hd1].
  destruct (syms_of_digits enc _ Hinv (enc_digits_range src2 Hs2)) as [_ Hd2'].
  rewrite Hd1, Hd2' in Heq.
  pose proof (roundtrip_digits src1 Hs1 0 0 0 0 0 [] coupled_init) as R1.
  pose proof (roundtrip_digits src2 Hs2 0 0 0 0 0 [] coupled_init) as R2.
  rewrite Heq, R2 in R1. cbn [app] in R1. inversion R1. reflexivity.
Qed.

Lemma Encode_injective_witness : [116; 101] = [116; 101].
Proof.
  apply (Encode_injective encodeStd std [116; 101] [116; 101]
           (replicate 3 0) (replicate 4 7) [102; 80; 68] [102; 80; 68; 7] 3).
  - vm_compute. reflexivity.
  - exact encodeStd_NoDup.
  - exact encodeStd_bytes.
  - repeat (constructor; [unfold is_byte; lia |]). constructor.
  - repeat (constructor; [unfold is_byte; lia |]). constructor.
  - vm_compute. reflexivity.
  - vm_compute. reflexivity.
  - reflexivity.
Defined.

(** ** Streaming: prefixes *)

Lemma enc_loop_digits_app s1 s2 :
  forall q nb,
  enc_loop_digits (s1 ++ s2) q nb =
  enc_loop_digits s1 q nb ++
  enc_loop_digits s2 (enc_final s1 q nb).1 (enc_final s1 q nb).2.
Proof.
  induction s1 as [| b s1 IH]; intros q nb; [reflexivity |].
  cbn [app enc_loop_digits enc_final].
  destruct (13 <? nb + 8); [cbn [app]; rewrite IH; reflexivity | apply IH].
Qed.

Lemma flush_digits_length q nb : (length (flush_digits q nb) <= 2)%nat.
Proof.
  unfold flush_digits. destruct (0 <? nb); [| simpl; lia].
  destruct ((7 <? nb) || (90 <? q)); simpl; lia.
Qed.

Lemma take_written_prefix dst out a rest :
  (length out <= length dst)%nat -> out = a ++ rest ->
  forall m, (m <= length a)%nat -> take m (written dst 0 out) = take m a.
Proof.
  intros Hroom -> m Hm. unfold written. rewrite take_0. cbn [app].
  rewrite <- app_assoc. apply take_app_le. exact Hm.
Qed.

(** X9. The symbols of an input are kept when the input is extended: if
    [Encode] returns the count [k1] on [src1], then on [src1 ++ src2] it
    writes the same symbols at the first [k1 - 2] positions (only the
    one or two symbols of the final flush of [src1] can change). *)
Theorem Encode_prefix_stable encoder enc src1 src2 dst1 dst1' k1 dst2 dst2' k2 :
  NewEncoding encoder = Ok enc -> Forall is_byte src1 -> Forall is_byte src2 ->
  Encode enc dst1 src1 = Ok (dst1', k1) ->
  Encode enc dst2 (src1 ++ src2) = Ok (dst2', k2) ->
  (k1 - 2 <= k2)%nat /\ take (k1 - 2) dst2' = take (k1 - 2) dst1'.
Proof.
  intros Hnew Hs1 Hs2. pose proof (NewEncoding_table_ok _ _ Hnew) as Ht.
  assert (Hs12 : Forall is_byte (src1 ++ src2)) by (apply Forall_app; split; assumption).
  rewrite !Encode_run by assumption.
  destruct (decide _) as [Hr1 |]; [| discriminate].
  destruct (decide _) as [Hr2 |]; [| discriminate].
  intros H1 H2. inversion H1; subst dst1' k1; clear H1.
  inversion H2; subst dst2' k2; clear H2.
  unfold enc_digits in *. rewrite enc_loop_digits_app in *.
  set (L1 := enc_loop_digits src1 0 0) in *.
  set (F1 := flush_digits (enc_final src1 0 0).1 (enc_final src1 0 0).2) in *.
  set (T2 := enc_loop_digits src2 (enc_final src1 0 0).1 (enc_final src1 0 0).2 ++
             flush_digits (enc_final (src1 ++ src2) 0 0).1
                          (enc_final (src1 ++ src2) 0 0).2).
  assert (HF : (length F1 <= 2)%nat) by apply flush_digits_length.
  rewrite <- app_assoc in *. fold T2 in Hr2 |- *.
  rewrite !length_app in *. split; [lia |].
  rewrite (take_written_prefix dst2 _ (map (sym enc) L1) (map (sym enc) T2));
    [| rewrite length_map, length_app; exact Hr2 | apply map_app
     | rewrite length_map; lia].
  rewrite (take_written_prefix dst1 _ (map (sym enc) L1) (map (sym enc) F1));
    [| rewrite length_map, length_app; exact Hr1 | apply map_app
     | rewrite length_map; lia].
  reflexivity.
Qed.

Lemma Encode_prefix_stable_witness :
  (5 - 2 <= 6)%nat /\
  take (5 - 2) [102; 80; 78; 75; 100; 65; 0] = take (5 - 2) [102; 80; 78; 75; 100].
Proof.
  apply (Encode_prefix_stable encodeStd std [116; 101; 115; 116] [0]
           (replicate 5 0) [102; 80; 78; 75; 100] 5
           (replicate 7 0) [102; 80; 78; 75; 100; 65; 0] 6).
  - vm_compute. reflexivity.
  - repeat (constructor; [unfold is_byte; lia |]). constructor.
  - repeat (constructor; [unfold is_byte; lia |]). constructor.
  - vm_compute. reflexivity.
  - vm_compute. reflexivity.
Defined.

(** ** What [Decode] reports and writes *)

Lemma dec_out_error ds :
  forall i q nb v,
  (dec_out ds i q nb v).2 = None <-> Forall (fun d => d <> 255) ds.
Proof.
  induction ds as [| d ds IH]; intros i q nb v.
  - simpl. split; [constructor | reflexivity].
  - cbn [dec_out]. destruct (d =? 255) eqn:E.
    + apply Z.eqb_eq in E. simpl. split; [discriminate |].
      intros H. apply Forall_cons in H as [H _]. contradiction.
    + apply Z.eqb_neq in E. destruct (v =? -1).
      * rewrite IH. split; [intros H; constructor; assumption |].
        intros H. apply Forall_cons in H as [_ H]. exact H.
      * cbn [snd]. rewrite IH. split; [intros H; constructor; assumption |].
        intros H. apply Forall_cons in H as [_ H]. exact H.
Qed.

Lemma digit_valid_iff encoder enc c :
  NewEncoding encoder = Ok enc -> Forall is_byte encoder -> is_byte c ->
  digit enc c <> 255 <-> In c encoder.
Proof.
  intros Hnew Hb Hc. unfold digit.
  destruct (in_dec Z.eq_dec c encoder) as [Hin | Hin].
  - destruct (digit_in_alphabet _ _ c Hnew Hb Hin) as (d & -> & Hd).
    simpl. split; [intros _; exact Hin | lia].
  - rewrite (digit_not_in_alphabet _ _ c Hnew Hb Hc Hin). simpl.
    split; [congruence | contradiction].
Qed.

(** X10. The error [Decode] returns is nil exactly when every byte of
    the input is a symbol of the alphabet. *)
Theorem Decode_error_iff encoder enc dst src dst' n err :
  NewEncoding encoder = Ok enc -> Forall is_byte encoder -> Forall is_byte src ->
  Decode enc dst src = Ok (dst', n, err) ->
  err = None <-> Forall (fun c => In c encoder) src.
Proof.
  intros Hnew Hb Hsrc. pose proof (NewEncoding_table_ok _ _ Hnew) as Ht.
  rewrite Decode_run by assumption. cbv zeta.
  destruct (decide _); [| discriminate].
  intros H. injection H as _ _ <-. rewrite dec_out_error.
  rewrite Forall_map. clear - Hnew Hb Hsrc.
  induction Hsrc as [| c src Hc Hsrc IH].
  - split; constructor.
  - split; intros H; apply Forall_cons in H as [H1 H2]; constructor;
      try (apply IH; assumption);
      apply (digit_valid_iff _ _ c Hnew Hb Hc); exact H1.
Qed.

Lemma Decode_error_iff_witness :
  Some (CorruptInputError 1) = None <-> Forall (fun c => In c encodeStd) [102; 32; 80].
Proof.
  apply (Decode_error_iff encodeStd std (replicate 3 0) [102; 32; 80]
           (replicate 3 0) 0%nat (Some (CorruptInputError 1))).
  - vm_compute. reflexivity.
  - exact encodeStd_bytes.
  - repeat (constructor; [unfold is_byte; lia |]). constructor.
  - vm_compute. reflexivity.
Defined.

Lemma dec_out_tight ds :
  Forall digit_or_invalid ds ->
  forall i q nb v, dec_inv q nb v ->
  8 * Z.of_nat (length (dec_out ds i q nb v).1)
  <= nb + 7 * Z.of_nat (length ds) + (if v =? -1 then 1 else 8).
Proof.
  induction ds as [| d ds IH]; intros Hds i q nb v Hinv.
  - destruct Hinv as (Hnb & _ & _). simpl. destruct (v =? -1); simpl; lia.
  - inversion Hds as [| ? ? Hd Hds']; subst. cbn [dec_out].
    destruct (d =? 255) eqn:E255.
    { destruct Hinv as (Hnb & _ & _). cbn [fst length].
      destruct (v =? -1); lia. }
    apply Z.eqb_neq in E255.
    assert (Hd' : 0 <= d <= 90) by (destruct Hd; [assumption | contradiction]).
    destruct (v =? -1) eqn:Ev.
    + assert (Hinv' : dec_inv q nb d).
      { destruct Hinv as (Hnb & Hq & _). repeat split; try lia. }
      specialize (IH Hds' (S i) q nb d Hinv').
      rewrite (proj2 (Z.eqb_neq d (-1))) in IH by lia.
      cbn [length]. lia.
    + apply Z.eqb_neq in Ev.
      assert (Hv : 0 <= v <= 90) by (destruct Hinv as (_ & _ & [? | ?]); lia).
      destruct (dec_pair_step q nb v d Hinv Hv Hd') as (Hq1 & Hnb1 & Hj & Hj8 & Hinv').
      cbv zeta. cbn [fst]. rewrite length_app, length_le_split.
      specialize (IH Hds' (S i) _ _ (-1) Hinv').
      change (-1 =? -1) with true in IH. cbv iota in IH.
      pose proof (width_cases (v + d * 91)) as Hw.
      cbn [length]. rewrite Nat2Z.inj_add, Z2Nat.id by lia.
      destruct Hw as [Hw | Hw]; rewrite Hw in *; lia.
Qed.

(** X11. [Decode] writes at most seven bits of output per symbol, and one
    more: the count [n] it returns satisfies [8 * n <= 7 * len(src) + 1],
    a sharper bound than [DecodedLen(len(src))]. *)
Theorem Decode_tight_bound encoder enc dst src dst' n err :
  NewEncoding encoder = Ok enc -> Forall is_byte src ->
  Decode enc dst src = Ok (dst', n, err) ->
  8 * Z.of_nat n <= 7 * Z.of_nat (length src) + 1.
Proof.
  intros Hnew Hsrc. pose proof (NewEncoding_table_ok _ _ Hnew) as Ht.
  rewrite Decode_run by assumption. cbv zeta.
  destruct (decide _); [| discriminate].
  intros H. injection H as _ <- _.
  pose proof (dec_out_tight _ (digits_of_table enc src Ht) 0 0 0 (-1) dec_inv_init) as Hb.
  change (-1 =? -1) with true in Hb. cbv iota in Hb.
  rewrite length_map in Hb. lia.
Qed.

Lemma Decode_tight_bound_witness :
  8 * Z.of_nat 1 <= 7 * Z.of_nat (length [102]) + 1.
Proof.
  apply (Decode_tight_bound encodeStd std (replicate 1 0) [102] [31] 1%nat None).
  - vm_compute. reflexivity.
  - repeat (constructor; [unfold is_byte; lia |]). constructor.
  - vm_compute. reflexivity.
Defined.

Lemma dec_out_even_app rest pre :
  Forall (fun d => 0 <= d <= 90) pre -> Nat.even (length pre) = true ->
  forall i q nb,
  (dec_out pre i q nb (-1)).2 = None /\
  exists tail e,
    dec_out (pre ++ rest) i q nb (-1) = ((dec_out pre i q nb (-1)).1 ++ tail, e).
Proof.
  induction pre as [| a | a b pre IH] using list_pair_ind; intros Hpre Hev i q nb.
  - split; [reflexivity |]. cbn [app]. simpl (dec_out [] _ _ _ _).1.
    destruct (dec_out rest i q nb (-1)) as [t e]. exists t, e. reflexivity.
  - discriminate.
  - apply Forall_cons in Hpre as [Ha Hpre]. apply Forall_cons in Hpre as [Hb Hpre].
    cbn [app]. rewrite !dec_out_pair by assumption. cbv zeta. cbn [fst snd].
    match goal with
    | |- context [dec_out pre ?i' ?q' ?nb' (-1)] =>
        destruct (IH Hpre Hev i' q' nb') as (Hnone & tail & e & Happ)
    end.
    split; [exact Hnone |]. exists tail, e. rewrite Happ. cbn [fst snd].
    rewrite app_assoc. reflexivity.
Qed.

(** X12. Decoding is stable under extension at a pair boundary: when
    [pre] is an even number of symbols of the alphabet, [Decode] on
    [pre] returns no error, and on [pre ++ rest] it writes the same
    bytes first. *)
Theorem Decode_even_prefix encoder enc pre rest dst1 dst1' n1 err1 dst2 dst2' n2 err2 :
  NewEncoding encoder = Ok enc -> Forall is_byte encoder ->
  Forall (fun c => In c encoder) pre -> Nat.even (length pre) = true ->
  Forall is_byte rest ->
  Decode enc dst1 pre = Ok (dst1', n1, err1) ->
  Decode enc dst2 (pre ++ rest) = Ok (dst2', n2, err2) ->
  err1 = None /\ (n1 <= n2)%nat /\ take n1 dst2' = take n1 dst1'.
Proof.
  intros Hnew Hb Hpre Hev Hrest.
  pose proof (NewEncoding_table_ok _ _ Hnew) as Ht.
  assert (Hpre_b : Forall is_byte pre).
  { apply Forall_forall. intros c Hc. eapply Forall_forall in Hpre; [| exact Hc].
    apply list_elem_of_In in Hpre. eapply Forall_forall in Hb; eauto. }
  assert (Hds : Forall (fun d => 0 <= d <= 90) (map (digit enc) pre)).
  { apply Forall_map. apply Forall_forall. intros c Hc.
    eapply Forall_forall in Hpre; [| exact Hc]. simpl.
    destruct (digit_in_alphabet _ _ c Hnew Hb Hpre) as (d & Hd & Hr).
    unfold digit. rewrite Hd. exact Hr. }
  rewrite !Decode_run by (try assumption; apply Forall_app; split; assumption).
  cbv zeta. rewrite map_app.
  assert (Hev' : Nat.even (length (map (digit enc) pre)) = true)
    by (rewrite length_map; exact Hev).
  destruct (dec_out_even_app (map (digit enc) rest) _ Hds Hev' 0 0 0)
    as (Hnone & tail & e & Happ).
  rewrite Happ. cbn [fst snd].
  destruct (decide _) as [Hr1 |]; [| discriminate].
  destruct (decide _) as [Hr2 |]; [| discriminate].
  intros H1 H2. injection H1 as <- <- <-. injection H2 as <- <- <-.
  split; [exact Hnone |]. rewrite length_app. split; [lia |].
  rewrite (take_written_prefix dst2 _ _ tail Hr2 eq_refl) by lia.
  rewrite (take_written_prefix dst1 _ (dec_out (map (digit enc) pre) 0 0 0 (-1)).1 []);
    [reflexivity | exact Hr1 | rewrite app_nil_r; reflexivity | lia].
Qed.

Lemma Decode_even_prefix_witness :
  None = @None error /\ (1 <= 2)%nat /\ take 1 [116; 101; 0] = take 1 [116; 0].
Proof.
  apply (Decode_even_prefix encodeStd std [102; 80] [68]
           (replicate 2 0) [116; 0] 1%nat None
           (replicate 3 0) [116; 101; 0] 2%nat None).
  - vm_compute. reflexivity.
  - exact encodeStd_bytes.
  - repeat (constructor; [vm_compute; tauto |]). constructor.
  - reflexivity.
  - repeat (constructor; [unfold is_byte; lia |]). constructor.
  - vm_compute. reflexivity.
  - vm_compute. reflexivity.
Defined.

(** ** Alphabets with repeated symbols *)

(** The loop of [NewEncoding] overwrites: the entry of a symbol is the
    last position at which it occurs. *)
Lemma fill_decodeMap_last encoder :
  Forall is_byte encoder ->
  forall i m k c,
  length m = 256%nat -> encoder !! k = Some c ->
  (forall j, (k < j)%nat -> encoder !! j <> Some c) ->
  fill_decodeMap encoder i m !! Z.to_nat c = Some (to_byte (Z.of_nat (i + k))).
Proof.
  induction encoder as [| c0 rest IH]; intros Hb i m k c Hm Hk Hlast; [discriminate |].
  apply Forall_is_byte_cons in Hb as [Hc0 Hb].
  destruct k as [| k]; cbn [fill_decodeMap].
  - injection Hk as ->.
    rewrite fill_decodeMap_other.
    + rewrite list_lookup_insert_eq by (unfold is_byte in Hc0; lia).
      rewrite Nat.add_0_r. reflexivity.
    + apply Forall_forall. intros c' Hin Heq.
      assert (Hc' : is_byte c') by (eapply Forall_forall in Hb; eauto).
      unfold is_byte in *. assert (c' = c) by lia. subst c'.
      apply list_elem_of_lookup in Hin as [j Hj].
      apply (Hlast (S j)); [lia | exact Hj].
  - replace (i + S k)%nat with (S i + k)%nat by lia.
    apply IH; [exact Hb | rewrite length_insert; exact Hm | exact Hk |].
    intros j Hj. apply (Hlast (S j)). lia.
Qed.

(** X13. Whatever the alphabet, [decodeMap] sends a symbol to the last
    position at which it occurs in the alphabet. *)
Theorem NewEncoding_last_occurrence encoder enc k c :
  NewEncoding encoder = Ok enc -> Forall is_byte encoder ->
  encoder !! k = Some c ->
  (forall j, (k < j)%nat -> encoder !! j <> Some c) ->
  decodeMap enc !! Z.to_nat c = Some (Z.of_nat k).
Proof.
  intros Hnew Hb Hk Hlast.
  apply NewEncoding_Ok in Hnew as (Hlen & _ & _ & ->).
  rewrite (fill_decodeMap_last encoder Hb 0 _ k c (length_replicate _ _) Hk Hlast).
  apply lookup_lt_Some in Hk. cbn [Nat.add].
  unfold to_byte. rewrite Z.mod_small by lia. reflexivity.
Qed.

Lemma NewEncoding_last_occurrence_witness :
  fill_decodeMap (66 :: drop 1 encodeStd) 0 (replicate 256 255) !! Z.to_nat 66
  = Some (Z.of_nat 1).
Proof.
  apply (NewEncoding_last_occurrence (66 :: drop 1 encodeStd)
           {| encode := 66 :: drop 1 encodeStd;
              decodeMap := fill_decodeMap (66 :: drop 1 encodeStd) 0 (replicate 256 255) |}
           1 66).
  - exact duplicate_table.
  - constructor; [unfold is_byte; lia |].
    apply Forall_drop. exact encodeStd_bytes.
  - reflexivity.
  - intros j Hj E. destruct j as [| j]; [lia |].
    change ((66 :: drop 1 encodeStd) !! S j) with (encodeStd !! S j) in E.
    pose proof (NoDup_lookup _ _ _ _ encodeStd_NoDup E
                  (eq_refl : encodeStd !! 1%nat = Some 66)).
    lia.
Defined.

Lemma enc_digits_one_byte b :
  0 <= b <= 90 -> enc_digits [b] 0 0 = [b; 0].
Proof.
  intros Hb. rewrite enc_digits_keep by lia. rewrite enc_digits_nil.
  rewrite Z.pow_0_r, Z.mul_1_r, Z.add_0_l. unfold flush_digits.
  change (0 <? 0 + 8) with true. change (7 <? 0 + 8) with true. cbn [orb].
  rewrite Z.mod_small, Z.div_small by lia. reflexivity.
Qed.

(** X14. With a repeated symbol [Encode] is not injective: if positions
    [i] and [j] of the alphabet hold the same byte, the one-byte inputs
    [i] and [j] have the same encoding, so no decoder tells them apart. *)
Theorem Encode_duplicate_collision encoder enc i j c dst :
  NewEncoding encoder = Ok enc ->
  encoder !! i = Some c -> encoder !! j = Some c -> i <> j ->
  [Z.of_nat i] <> [Z.of_nat j] /\
  Encode enc dst [Z.of_nat i] = Encode enc dst [Z.of_nat j].
Proof.
  intros Hnew Hi Hj Hij. pose proof (NewEncoding_table_ok _ _ Hnew) as Ht.
  apply NewEncoding_Ok in Hnew as (Hlen & _ & He & _).
  pose proof (lookup_lt_Some _ _ _ Hi) as Hi'.
  pose proof (lookup_lt_Some _ _ _ Hj) as Hj'.
  split; [intros E; injection E as E; lia |].
  rewrite !Encode_run; try assumption;
    try (constructor; [unfold is_byte; lia | constructor]).
  rewrite !enc_digits_one_byte by lia. cbn [map length].
  assert (Hs : sym enc (Z.of_nat i) = sym enc (Z.of_nat j))
    by (unfold sym; rewrite !Nat2Z.id, He, Hi, Hj; reflexivity).
  rewrite Hs. reflexivity.
Qed.

Lemma Encode_duplicate_collision_witness :
  [Z.of_nat 0] <> [Z.of_nat 1] /\
  Encode {| encode := 66 :: drop 1 encodeStd;
            decodeMap := fill_decodeMap (66 :: drop 1 encodeStd) 0 (replicate 256 255) |}
         (replicate 2 0) [Z.of_nat 0]
  = Encode {| encode := 66 :: drop 1 encodeStd;
              decodeMap := fill_decodeMap (66 :: drop 1 encodeStd) 0 (replicate 256 255) |}
           (replicate 2 0) [Z.of_nat 1].
Proof.
  apply (Encode_duplicate_collision (66 :: drop 1 encodeStd) _ 0 1 66).
  - exact duplicate_table.
  - reflexivity.
  - reflexivity.
  - lia.
Defined.

(** X15. [NewEncoding] returns a table exactly for the alphabets of 91
    bytes without line feed and carriage return, repeated symbols or
    not; the table holds the alphabet as it was given, and the length
    is checked first. *)
Theorem NewEncoding_accepts_iff encoder :
  ((exists enc, NewEncoding encoder = Ok enc) <->
   length encoder = 91%nat /\ ~ In 10 encoder /\ ~ In 13 encoder) /\
  (forall enc, NewEncoding encoder = Ok enc ->
     encode enc = encoder /\ length (decodeMap enc) = 256%nat) /\
  (NewEncoding encoder = Panic "encoding alphabet contains newline character" ->
   length encoder = 91%nat).
Proof.
  split; [| split].
  - split.
    + intros [enc H]. apply NewEncoding_Ok in H as (Hlen & Hnl & _).
      split; [exact Hlen |].
      assert (Hn : ~ (In 10 encoder \/ In 13 encoder)).
      { intros Hin. apply existsb_is_newline in Hin. congruence. }
      tauto.
    + intros (Hlen & H10 & H13). unfold NewEncoding.
      rewrite (proj2 (Nat.eqb_eq _ _) Hlen). cbn [negb].
      destruct (existsb is_newline encoder) eqn:E; [| eauto].
      apply existsb_is_newline in E. tauto.
  - intros enc H. pose proof (NewEncoding_table_ok _ _ H) as Ht.
    apply NewEncoding_Ok in H as (_ & _ & He & _).
    split; [exact He | apply (decodeMap_len _ Ht)].
  - unfold NewEncoding. destruct (length encoder =? 91)%nat eqn:El.
    + intros _. apply Nat.eqb_eq. exact El.
    + cbn [negb]. intros H. injection H as H. discriminate.
Qed.

(** ** The standard alphabet *)

(** X16. The standard alphabet is the printable ASCII characters without
    the space, the apostrophe, the hyphen and the backslash. *)
Theorem encodeStd_printable c :
  In c encodeStd <-> 32 <= c <= 126 /\ c <> 32 /\ c <> 39 /\ c <> 45 /\ c <> 92.
Proof.
  split.
  - intros Hin. vm_compute in Hin.
    repeat (destruct Hin as [<- | Hin]; [lia |]). destruct Hin.
  - intros (Hr & H32 & H39 & H45 & H92).
    assert (Hall : Forall (fun c => c <> 39 -> c <> 45 -> c <> 92 -> c ∈ encodeStd)
                          (seqZ 33 94)).
    { apply (bool_decide_unpack _). vm_compute. reflexivity. }
    apply list_elem_of_In.
    eapply Forall_forall in Hall; [apply Hall; assumption |].
    apply elem_of_seqZ. lia.
Qed.

(** ** The bound of [Decode] is attained *)

Lemma le_split_0 j : le_split j 0 = replicate j 0.
Proof.
  induction j as [| j IH]; [reflexivity |]. cbn [le_split replicate].
  change (0 / 256) with 0. change (0 mod 256) with 0. rewrite IH. reflexivity.
Qed.

Lemma dec_out_zeros m :
  forall i nb, 0 <= nb <= 7 ->
  dec_out (replicate (2 * m) 0) i 0 nb (-1)
  = (replicate (Z.to_nat ((nb + 14 * Z.of_nat m) / 8)) 0, None).
Proof.
  induction m as [| m IH]; intros i nb Hnb.
  - cbn [Nat.mul replicate dec_out]. change (-1 =? -1) with true. cbv iota.
    rewrite Z.div_small by lia. reflexivity.
  - replace (2 * S m)%nat with (S (S (2 * m))) by lia. cbn [replicate].
    rewrite dec_out_pair by lia. cbv zeta.
    change (0 + 0 * 91) with 0. rewrite Z.mul_0_l, Z.add_0_l, Zdiv_0_l.
    change (width 0) with 14. rewrite le_split_0.
    set (j := (nb + 14) / 8).
    assert (Hj : 8 * j <= nb + 14 < 8 * j + 8).
    { unfold j. pose proof (Z.div_mod (nb + 14) 8 ltac:(lia)).
      pose proof (Z.mod_pos_bound (nb + 14) 8 ltac:(lia)). lia. }
    rewrite IH by lia. cbn [fst snd]. rewrite <- replicate_add.
    replace (nb + 14 - 8 * j + 14 * Z.of_nat m)
      with (nb + 14 * Z.of_nat (S m) + (- j) * 8) by lia.
    rewrite Z.div_add by lia.
    assert (Hd : j <= (nb + 14 * Z.of_nat (S m)) / 8).
    { unfold j. apply Z.div_le_mono; lia. }
    rewrite <- Z2Nat.inj_add by lia.
    replace (j + ((nb + 14 * Z.of_nat (S m)) / 8 + - j))
      with ((nb + 14 * Z.of_nat (S m)) / 8) by lia.
    reflexivity.
Qed.

(** X17. The bound of seven bits per symbol is attained: on [2 * m]
    copies of the first symbol of an alphabet of distinct bytes
    [Decode] writes [7 * m / 4] zero bytes, that is 14 bytes for 16
    symbols. *)
Theorem Decode_bound_attained encoder enc m dst :
  NewEncoding encoder = Ok enc -> NoDup encoder -> Forall is_byte encoder ->
  let n := Z.to_nat (7 * Z.of_nat m / 4) in
  (n <= length dst)%nat ->
  exists dst',
    Decode enc dst (replicate (2 * m) (sym enc 0)) = Ok (dst', n, None) /\
    take n dst' = replicate n 0.
Proof.
  intros Hnew Hnd Hb n Hroom.
  pose proof (NewEncoding_table_ok _ _ Hnew) as Ht.
  destruct (NewEncoding_table_inverse _ _ Hnew Hnd Hb 0 ltac:(lia)) as [Hs Hd].
  assert (Hmap : forall k, map (digit enc) (replicate k (sym enc 0)) = replicate k 0).
  { induction k as [| k IH]; [reflexivity |]. cbn [replicate map]. rewrite IH, Hd. reflexivity. }
  assert (Hn : Z.to_nat ((0 + 14 * Z.of_nat m) / 8) = n).
  { unfold n. f_equal. rewrite Z.add_0_l.
    replace (14 * Z.of_nat m) with (2 * (7 * Z.of_nat m)) by lia.
    change 8 with (2 * 4). apply Z.div_mul_cancel_l; lia. }
  rewrite Decode_run by (try assumption; apply Forall_replicate; exact Hs).
  cbv zeta. rewrite Hmap, dec_out_zeros by lia. cbn [fst snd].
  rewrite Hn, length_replicate.
  destruct (decide _) as [_ | Hno]; [| contradiction].
  eexists. split; [reflexivity |].
  rewrite <- (length_replicate n 0) at 1. apply take_written_0.
  rewrite length_replicate. exact Hroom.
Qed.

Lemma Decode_bound_attained_witness :
  exists dst',
    Decode std (replicate 14 0) (replicate (2 * 8) (sym std 0)) = Ok (dst', 14%nat, None) /\
    take 14 dst' = replicate 14 0.
Proof.
  apply (Decode_bound_attained encodeStd std 8 (replicate 14 0)).
  - vm_compute. reflexivity.
  - exact encodeStd_NoDup.
  - exact encodeStd_bytes.
  - vm_compute. lia.
Defined.

(** ** The message of [CorruptInputError] *)

Lemma to_int_not_nil z :
  Z.to_int z <> Decimal.Pos Decimal.Nil /\ Z.to_int z <> Decimal.Neg Decimal.Nil.
Proof.
  destruct z as [| p | p]; cbn; split; try discriminate;
    intros H; injection H as H;
    apply (f_equal Pos.of_uint) in H; rewrite DecimalPos.Unsigned.of_to in H;
    discriminate.
Qed.

(** X18. The message of a [CorruptInputError] determines the offset:
    two errors with the same message are the same error. *)
Theorem Error_injective e1 e2 : Error e1 = Error e2 -> e1 = e2.
Proof.
  destruct e1 as [i1], e2 as [i2]. unfold Error. intros H.
  cbn [String.append] in H. inversion H as [H'].
  destruct (to_int_not_nil i1) as [Hp1 Hn1]. destruct (to_int_not_nil i2) as [Hp2 Hn2].
  pose proof (DecimalString.NilZero.isi _ Hp1 Hn1) as E1.
  pose proof (DecimalString.NilZero.isi _ Hp2 Hn2) as E2.
  rewrite H' in E1. rewrite E1 in E2. injection E2 as E2.
  apply (f_equal Z.of_int) in E2. rewrite !DecimalZ.of_to in E2. congruence.
Qed.

Lemma Error_injective_witness : CorruptInputError 7 = CorruptInputError 7.
Proof. apply (Error_injective (CorruptInputError 7) (CorruptInputError 7)). reflexivity. Defined.
